(** * Netflix metadata extractor: extraction engine, response parser,
      schema validator and evaluation scorer

    A shallow embedding of [src/extractor.py], [src/schemas.py],
    [src/prompts.py] and [src/evaluation.py], followed by the properties
    checked for them.

    Conventions.
    - A Python [str] is a sequence of Unicode code points: [text] is
      [list N], and [t "..."] turns an ASCII literal into text.
    - A Python exception is a value of [exn]; a function that can raise
      returns [exn + A] ([inl] is the raised exception).
    - Python's [/] on numbers is exact division here (rationals, [Q]);
      the rounding of binary floating point is not part of the model, and
      of a quotient only what rounding preserves is stated: its bounds,
      its order, and its value where a float holds it exactly.
    - What [print] writes is not part of the model. *)

From Stdlib Require Import List Bool Arith ZArith NArith Lia String Ascii.
From Stdlib Require Import QArith.
From Stdlib Require Decimal DecimalFacts DecimalPos DecimalN DecimalZ.
Import ListNotations.

Set Implicit Arguments.
Unset Strict Implicit.

Open Scope N_scope.
Open Scope list_scope.

(** ** Text *)

Module Text.

Abbreviation char := N (only parsing).
Abbreviation text := (list N) (only parsing).

(** An ASCII literal as text. *)
Fixpoint t (s : string) : text :=
  match s with
  | EmptyString => []
  | String c s' => N_of_ascii c :: t s'
  end.

Definition dquote : char := 34.
Definition backslash : char := 92.
Definition newline : char := 10.

(** [q "abc"] is the text ["abc"] between double quotes. *)
Definition q (s : string) : text := dquote :: t s ++ [dquote].

Definition text_eqb (a b : text) : bool :=
  if list_eq_dec N.eq_dec a b then true else false.

Fixpoint strip_prefix (p s : text) : option text :=
  match p, s with
  | [], _ => Some s
  | c :: p', d :: s' => if c =? d then strip_prefix p' s' else None
  | _ :: _, [] => None
  end.

(** [s.startswith(p)]. *)
Definition startswith (p s : text) : bool :=
  match strip_prefix p s with
  | Some _ => true
  | None => false
  end.

(** Whether [lit] occurs in [s]. *)
Fixpoint occurs (lit s : text) : bool :=
  match s with
  | [] => false
  | _ :: s' => startswith lit s || occurs lit s'
  end.

(** [c.isspace()]: the code points Python treats as whitespace, which are
    the ones [\s] matches in a [str] pattern and the ones [str.strip()]
    removes. *)
Definition isspace (c : char) : bool :=
  ((9 <=? c) && (c <=? 13)) || ((28 <=? c) && (c <=? 32))
  || (c =? 133) || (c =? 160) || (c =? 5760)
  || ((8192 <=? c) && (c <=? 8202))
  || (c =? 8232) || (c =? 8233) || (c =? 8239) || (c =? 8287) || (c =? 12288).

(** [s.lstrip()], [s.rstrip()], [s.strip()]. *)
Fixpoint lstrip (s : text) : text :=
  match s with
  | c :: s' => if isspace c then lstrip s' else s
  | [] => []
  end.

Definition rstrip (s : text) : text := List.rev (lstrip (List.rev s)).

Definition strip (s : text) : text := rstrip (lstrip s).

(** [re.sub(lit + r"\s*", "", s)] for a non-empty literal [lit]: scanning
    from the left, every occurrence of [lit] is removed together with the
    whitespace that follows it (the star is greedy); matches do not
    overlap.  The fuel bounds the number of scanning steps; [re_sub_ws]
    supplies enough of it, as [re_sub_ws_fuel_enough] shows. *)
Fixpoint re_sub_ws_fuel (fuel : nat) (lit s : text) : text :=
  match fuel with
  | O => []
  | S fuel' =>
      match s with
      | [] => []
      | c :: s' =>
          match strip_prefix lit s with
          | Some rest => re_sub_ws_fuel fuel' lit (lstrip rest)
          | None => c :: re_sub_ws_fuel fuel' lit s'
          end
      end
  end.

Definition re_sub_ws (lit s : text) : text :=
  re_sub_ws_fuel (S (List.length s)) lit s.

(** [s.split(sep)] for a one-character separator. *)
Fixpoint split_char (sep : char) (s : text) : list text :=
  match s with
  | [] => [[]]
  | c :: s' =>
      if c =? sep then [] :: split_char sep s'
      else match split_char sep s' with
           | w :: ws => (c :: w) :: ws
           | [] => [[c]]
           end
  end.

(** Decimal numerals. *)
Fixpoint text_of_uint (u : Decimal.uint) : text :=
  match u with
  | Decimal.Nil => []
  | Decimal.D0 u' => 48 :: text_of_uint u'
  | Decimal.D1 u' => 49 :: text_of_uint u'
  | Decimal.D2 u' => 50 :: text_of_uint u'
  | Decimal.D3 u' => 51 :: text_of_uint u'
  | Decimal.D4 u' => 52 :: text_of_uint u'
  | Decimal.D5 u' => 53 :: text_of_uint u'
  | Decimal.D6 u' => 54 :: text_of_uint u'
  | Decimal.D7 u' => 55 :: text_of_uint u'
  | Decimal.D8 u' => 56 :: text_of_uint u'
  | Decimal.D9 u' => 57 :: text_of_uint u'
  end.

(** [str(n)] for a natural number and for an integer. *)
Definition str_nat (n : nat) : text := text_of_uint (Nat.to_uint n).

Definition str_int (z : Z) : text :=
  match Z.to_int z with
  | Decimal.Pos u => text_of_uint u
  | Decimal.Neg u => 45 :: text_of_uint u
  end.

(** The number of digits of the decimal numeral of an integer. *)
Definition int_digits (z : Z) : nat := List.length (str_int (Z.abs z)).

(** [s.count(c)] and the index just after the last [c] of [s], if any. *)
Definition count_char (c : char) (s : text) : nat :=
  List.length (filter (N.eqb c) s).

Fixpoint after_last (c : char) (s : text) : option text :=
  match s with
  | [] => None
  | d :: s' =>
      match after_last c s' with
      | Some r => Some r
      | None => if d =? c then Some s' else None
      end
  end.

End Text.
Import Text.

(** ** JSON values, [json.dumps] and [json.loads]

    The values [json.loads] builds and the text [json.dumps] prints, for
    the default encoder and decoder of Python's [json] module (separators
    [", "] and [": "], [ensure_ascii], strict strings).  A mapping is kept
    as the list of its items in insertion order; a mapping built by Python
    has no two items with the same key.  A float is kept as the literal it
    was read from; the literal the encoder prints for it is the float in
    canonical form.  The decoder is the one that two limits of the
    interpreter bound: the nesting of arrays and objects it may enter, and
    the number of digits of an integer. *)

Module Json.

Unset Elimination Schemes.
Inductive json : Type :=
| JNull
| JBool (b : bool)
| JInt (z : Z)
| JFloat (literal : text)
| JStr (s : text)
| JList (xs : list json)
| JDict (items : list (text * json)).
Set Elimination Schemes.

(** Induction on values, with the hypothesis for every item of a list
    and for every value of a mapping. *)
Definition json_ind' (P : json -> Prop)
  (HNull : P JNull) (HBool : forall b, P (JBool b))
  (HInt : forall z, P (JInt z)) (HFloat : forall l, P (JFloat l))
  (HStr : forall s, P (JStr s))
  (HList : forall xs, Forall P xs -> P (JList xs))
  (HDict : forall kvs, Forall (fun kv => P (snd kv)) kvs -> P (JDict kvs))
  : forall v, P v :=
  fix go (v : json) : P v :=
    match v with
    | JNull => HNull
    | JBool b => HBool b
    | JInt z => HInt z
    | JFloat l => HFloat l
    | JStr s => HStr s
    | JList xs =>
        HList xs
          ((fix all (xs : list json) : Forall P xs :=
              match xs with
              | [] => Forall_nil _
              | x :: xs' => Forall_cons x (go x) (all xs')
              end) xs)
    | JDict kvs =>
        HDict kvs
          ((fix all (kvs : list (text * json))
              : Forall (fun kv => P (snd kv)) kvs :=
              match kvs with
              | [] => Forall_nil _
              | kv :: kvs' => Forall_cons kv (go (snd kv)) (all kvs')
              end) kvs)
    end.

(** [d.get(k)] and [d[k] = v] on the items of a mapping. *)
Fixpoint dict_get (k : text) (d : list (text * json)) : option json :=
  match d with
  | [] => None
  | (k', v) :: d' => if text_eqb k k' then Some v else dict_get k d'
  end.

Fixpoint dict_set (k : text) (v : json) (d : list (text * json))
  : list (text * json) :=
  match d with
  | [] => [(k, v)]
  | (k', v') :: d' =>
      if text_eqb k k' then (k', v) :: d' else (k', v') :: dict_set k v d'
  end.

(** *** Encoder *)

Definition hexdigit (d : N) : char := if d <? 10 then 48 + d else 87 + d.

(** ['{0:04x}'.format(n)] for [n < 65536]. *)
Definition hex4 (n : N) : text :=
  [hexdigit (n / 4096 mod 16); hexdigit (n / 256 mod 16);
   hexdigit (n / 16 mod 16); hexdigit (n mod 16)].

Definition uescape (n : N) : text := backslash :: 117 :: hex4 n.

(** The replacement [py_encode_basestring_ascii] makes for one character. *)
Definition encode_char (c : char) : text :=
  if c =? 34 then [backslash; 34]
  else if c =? 92 then [backslash; 92]
  else if c =? 10 then [backslash; 110]
  else if c =? 13 then [backslash; 114]
  else if c =? 9 then [backslash; 116]
  else if c =? 12 then [backslash; 102]
  else if c =? 8 then [backslash; 98]
  else if (32 <=? c) && (c <=? 126) then [c]
  else if c <? 65536 then uescape c
  else
    let n := c - 65536 in
    uescape (N.lor 55296 (N.land (N.shiftr n 10) 1023))
    ++ uescape (N.lor 56320 (N.land n 1023)).

Definition encode_basestring_ascii (s : text) : text :=
  dquote :: flat_map encode_char s ++ [dquote].

Section Dumps.

(** What the encoder prints for the float read from a literal:
    [float.__repr__] of it, or [NaN], [Infinity], [-Infinity].  It is
    Python's, and not modelled. *)
Variable float_repr : text -> text.

(** The text [json.dumps(v)] returns, when it returns; [json_dumps] below
    adds the limits of the interpreter. *)
Fixpoint dumps (v : json) : text :=
  match v with
  | JNull => t "null"
  | JBool true => t "true"
  | JBool false => t "false"
  | JInt z => str_int z
  | JFloat l => float_repr l
  | JStr s => encode_basestring_ascii s
  | JList xs =>
      let fix items (xs : list json) : text :=
        match xs with
        | [] => []
        | [x] => dumps x
        | x :: xs' => dumps x ++ t ", " ++ items xs'
        end in
      t "[" ++ items xs ++ t "]"
  | JDict kvs =>
      let fix items (kvs : list (text * json)) : text :=
        match kvs with
        | [] => []
        | [(k, x)] => encode_basestring_ascii k ++ t ": " ++ dumps x
        | (k, x) :: kvs' =>
            encode_basestring_ascii k ++ t ": " ++ dumps x ++ t ", "
            ++ items kvs'
        end in
      t "{" ++ items kvs ++ t "}"
  end.

End Dumps.

(** *** Decoder *)

(** [json.JSONDecodeError(msg, doc, pos)]. *)
Record JSONDecodeError : Type := mkJSONDecodeError {
  msg : text;
  doc : text;
  pos : nat
}.

Definition lineno (e : JSONDecodeError) : nat :=
  S (count_char newline (firstn (pos e) (doc e))).

Definition colno (e : JSONDecodeError) : nat :=
  let before := firstn (pos e) (doc e) in
  match after_last newline before with
  | Some r => S (List.length r)
  | None => S (pos e)
  end.

(** [str(e)] for a [JSONDecodeError]. *)
Definition str_JSONDecodeError (e : JSONDecodeError) : text :=
  msg e ++ t ": line " ++ str_nat (lineno e) ++ t " column "
  ++ str_nat (colno e) ++ t " (char " ++ str_nat (pos e) ++ t ")".

(** [sys.get_int_max_str_digits()] as the interpreter starts: [int]
    refuses a decimal literal of more digits. *)
Definition int_max_str_digits : nat := 4300.

(** The two limits the scanner can hit: a [RecursionError] when it is to
    enter one more object or array than the interpreter allows, and the
    [ValueError] of [int] for a literal of too many digits. *)
Inductive limit_error : Type :=
| TooDeep (container : text)
| TooLong (digits : nat).

(** The outcome of scanning a suffix of the document: a value and the text
    left after it, or an error message with the number of characters
    between the error position and the end of the document, or a limit
    that was hit. *)
Inductive scan (A : Type) : Type :=
| Scanned (a : A) (rest : text)
| Failed (m : text) (remaining : nat)
| Raised (e : limit_error)
| Exhausted.
Arguments Failed {A} m remaining.
Arguments Raised {A} e.
Arguments Exhausted {A}.

(** JSON whitespace: space, tab, line feed, carriage return. *)
Definition is_ws (c : char) : bool :=
  (c =? 32) || (c =? 9) || (c =? 10) || (c =? 13).

Fixpoint skip_ws (s : text) : text :=
  match s with
  | c :: s' => if is_ws c then skip_ws s' else s
  | [] => []
  end.

Definition is_digit (c : char) : bool := (48 <=? c) && (c <=? 57).

Definition hexval (c : char) : option N :=
  if is_digit c then Some (c - 48)
  else if (97 <=? c) && (c <=? 102) then Some (c - 87)
  else if (65 <=? c) && (c <=? 70) then Some (c - 55)
  else None.

Definition hex4val (a b c d : char) : option N :=
  match hexval a, hexval b, hexval c, hexval d with
  | Some x, Some y, Some z, Some w => Some (((x * 16 + y) * 16 + z) * 16 + w)
  | _, _, _, _ => None
  end.

Definition is_high_surrogate (c : N) : bool := (55296 <=? c) && (c <=? 56319).
Definition is_low_surrogate (c : N) : bool := (56320 <=? c) && (c <=? 57343).
Definition join_surrogates (hi lo : N) : N :=
  65536 + N.lor (N.shiftl (N.land hi 1023) 10) (N.land lo 1023).

(** The character a one-letter escape stands for. *)
Definition unescape (e : char) : option char :=
  if e =? 34 then Some 34
  else if e =? 92 then Some 92
  else if e =? 47 then Some 47
  else if e =? 98 then Some 8
  else if e =? 102 then Some 12
  else if e =? 110 then Some 10
  else if e =? 114 then Some 13
  else if e =? 116 then Some 9
  else None.

(** [scanstring]: the body of a string literal, [s] being the text after
    the opening quote, [begin] the characters left from that quote on and
    [acc] the characters decoded so far, last first. *)
Fixpoint scanstring (begin : nat) (s : text) (acc : text) : scan text :=
  match s with
  | [] => Failed (t "Unterminated string starting at") begin
  | c :: s1 =>
      if c =? 34 then Scanned (List.rev acc) s1
      else if c =? 92 then
        match s1 with
        | [] => Failed (t "Unterminated string starting at") begin
        | e :: s2 =>
            if e =? 117 then
              match s2 with
              | h1 :: h2 :: h3 :: h4 :: ((_ :: _) as s3) =>
                  match hex4val h1 h2 h3 h4 with
                  | None => Failed (t "Invalid \uXXXX escape") (List.length s1)
                  | Some c1 =>
                      match s3 with
                      | b2 :: u2 :: g1 :: g2 :: g3 :: g4 :: ((_ :: _) as s4) =>
                          if is_high_surrogate c1 && (b2 =? 92) && (u2 =? 117)
                          then
                            match hex4val g1 g2 g3 g4 with
                            | None =>
                                Failed (t "Invalid \uXXXX escape")
                                       (List.length s3 - 1)
                            | Some c2 =>
                                if is_low_surrogate c2
                                then scanstring begin s4
                                       (join_surrogates c1 c2 :: acc)
                                else scanstring begin s3 (c1 :: acc)
                            end
                          else scanstring begin s3 (c1 :: acc)
                      | _ => scanstring begin s3 (c1 :: acc)
                      end
                  end
              | _ => Failed (t "Invalid \uXXXX escape") (List.length s1)
              end
            else
              match unescape e with
              | Some ch => scanstring begin s2 (ch :: acc)
              | None => Failed (t "Invalid \escape") (List.length s)
              end
        end
      else if c <=? 31 then
        Failed (t "Invalid control character at") (List.length s)
      else scanstring begin s1 (c :: acc)
  end.

(** Numbers. *)
Fixpoint span_digits (s : text) : text * text :=
  match s with
  | c :: s' =>
      if is_digit c
      then let '(ds, r) := span_digits s' in (c :: ds, r)
      else ([], s)
  | [] => ([], [])
  end.

Fixpoint uint_of_digits (ds : text) : Decimal.uint :=
  match ds with
  | [] => Decimal.Nil
  | c :: ds' =>
      let u := uint_of_digits ds' in
      match c - 48 with
      | 0 => Decimal.D0 u | 1 => Decimal.D1 u | 2 => Decimal.D2 u | 3 => Decimal.D3 u | 4 => Decimal.D4 u
      | 5 => Decimal.D5 u | 6 => Decimal.D6 u | 7 => Decimal.D7 u | 8 => Decimal.D8 u | _ => Decimal.D9 u
      end
  end.

(** The integer part, an optional minus sign followed by [0] or by a
    digit run that does not start with [0]: sign, digits and the rest. *)
Definition match_int (s : text) : option (bool * text * text) :=
  let '(neg, s1) :=
    match s with
    | c :: s' => if c =? 45 then (true, s') else (false, s)
    | [] => (false, s)
    end in
  match s1 with
  | c :: s2 =>
      if c =? 48 then Some (neg, [c], s2)
      else if is_digit c
      then let '(ds, r) := span_digits s2 in Some (neg, c :: ds, r)
      else None
  | [] => None
  end.

(** The fraction [(\.[0-9]+)?]. *)
Definition match_frac (s : text) : text * text :=
  match s with
  | c :: d :: s' =>
      if (c =? 46) && is_digit d
      then let '(ds, r) := span_digits s' in (c :: d :: ds, r)
      else ([], s)
  | _ => ([], s)
  end.

(** The exponent [([eE][-+]?[0-9]+)?]. *)
Definition match_exp (s : text) : text * text :=
  match s with
  | c :: s1 =>
      if (c =? 101) || (c =? 69) then
        let '(sign, s2) :=
          match s1 with
          | d :: s' => if (d =? 45) || (d =? 43) then ([d], s') else ([], s1)
          | [] => ([], s1)
          end in
        match span_digits s2 with
        | ([], _) => ([], s)
        | (ds, r) => (c :: sign ++ ds, r)
        end
      else ([], s)
  | [] => ([], s)
  end.

(** [_match_number]: no number at [s] is the error [Expecting value]
    there; a literal with a fraction or an exponent is a float, any other
    an integer, which [int] converts. *)
Definition match_number (s : text) : scan json :=
  match match_int s with
  | None => Failed (t "Expecting value") (List.length s)
  | Some (neg, ds, r1) =>
      let '(frac, r2) := match_frac r1 in
      let '(ex, r3) := match_exp r2 in
      match frac, ex with
      | [], [] =>
          if (int_max_str_digits <? List.length ds)%nat
          then Raised (TooLong (List.length ds))
          else
            let u := uint_of_digits ds in
            Scanned
              (JInt (Z.of_int (if neg then Decimal.Neg u else Decimal.Pos u)))
              r3
      | _, _ =>
          Scanned (JFloat ((if neg then [45] else []) ++ ds ++ frac ++ ex))
                  r3
      end
  end.

Definition scan_string_value (s s1 : text) : scan json :=
  match scanstring (List.length s) s1 [] with
  | Scanned str rest => Scanned (JStr str) rest
  | Failed m r => Failed m r
  | Raised e => Raised e
  | Exhausted => Exhausted
  end.

Section Scanner.

(** The three functions below call each other; each is written here with
    the functions it calls as parameters, as [JSONObject] and [JSONArray]
    receive [scan_once] in Python. *)
Variable scan_once : text -> scan json.
Variable object_loop : text -> list (text * json) -> scan json.
Variable array_loop : text -> list json -> scan json.

(** [_scan_once] at the suffix [s]; the prologues of [JSONObject] and
    [JSONArray], up to the first key or item, are part of it.  [depth] is
    the number of objects and arrays, one inside the other, that the
    interpreter still lets the scanner enter: at none left, an opening
    brace or bracket raises [RecursionError]. *)
Definition scan_once_body (depth : nat) (s : text) : scan json :=
  match s with
  | [] => Failed (t "Expecting value") 0
  | c :: s1 =>
      if c =? 34 then scan_string_value s s1
      else if c =? 123 then
        match depth with
        | O => Raised (TooDeep (t "object"))
        | S _ =>
            match skip_ws s1 with
            | d :: r =>
                if d =? 125 then Scanned (JDict []) r
                else object_loop (d :: r) []
            | [] => object_loop [] []
            end
        end
      else if c =? 91 then
        match depth with
        | O => Raised (TooDeep (t "array"))
        | S _ =>
            match skip_ws s1 with
            | d :: r =>
                if d =? 93 then Scanned (JList []) r
                else array_loop (d :: r) []
            | [] => array_loop [] []
            end
        end
      else
        match strip_prefix (t "null") s, strip_prefix (t "true") s,
              strip_prefix (t "false") s, strip_prefix (t "NaN") s,
              strip_prefix (t "Infinity") s,
              strip_prefix (t "-Infinity") s with
        | Some r, _, _, _, _, _ => Scanned JNull r
        | _, Some r, _, _, _, _ => Scanned (JBool true) r
        | _, _, Some r, _, _, _ => Scanned (JBool false) r
        | _, _, _, Some r, _, _ => Scanned (JFloat (t "NaN")) r
        | _, _, _, _, Some r, _ => Scanned (JFloat (t "Infinity")) r
        | _, _, _, _, _, Some r => Scanned (JFloat (t "-Infinity")) r
        | None, None, None, None, None, None => match_number s
        end
  end.

(** One turn of the loop of [JSONObject]: a key, a colon, a value, then
    the end of the object or a comma and the next turn.  [acc] holds the
    items read so far. *)
Definition object_loop_body (s : text) (acc : list (text * json))
  : scan json :=
  match s with
  | [] => Failed (t "Expecting property name enclosed in double quotes") 0
  | c :: s1 =>
      if c =? 34 then
        match scanstring (List.length s) s1 [] with
        | Scanned key r1 =>
            match skip_ws r1 with
            | [] => Failed (t "Expecting ':' delimiter") 0
            | d :: r2 =>
                if d =? 58 then
                  match scan_once (skip_ws r2) with
                  | Scanned v r3 =>
                      let acc' := dict_set key v acc in
                      match skip_ws r3 with
                      | [] => Failed (t "Expecting ',' delimiter") 0
                      | e :: r4 =>
                          if e =? 125 then Scanned (JDict acc') r4
                          else if e =? 44
                          then object_loop (skip_ws r4) acc'
                          else Failed (t "Expecting ',' delimiter")
                                      (List.length (e :: r4))
                      end
                  | Failed m r => Failed m r
                  | Raised e => Raised e
                  | Exhausted => Exhausted
                  end
                else Failed (t "Expecting ':' delimiter")
                            (List.length (d :: r2))
            end
        | Failed m r => Failed m r
        | Raised e => Raised e
        | Exhausted => Exhausted
        end
      else
        Failed (t "Expecting property name enclosed in double quotes")
               (List.length s)
  end.

(** One turn of the loop of [JSONArray]: a value, then the end of the
    array or a comma and the next turn.  [acc] holds the items read so
    far, last first. *)
Definition array_loop_body (s : text) (acc : list json) : scan json :=
  match scan_once s with
  | Scanned v r1 =>
      match skip_ws r1 with
      | [] => Failed (t "Expecting ',' delimiter") 0
      | e :: r2 =>
          if e =? 93 then Scanned (JList (List.rev (v :: acc))) r2
          else if e =? 44 then array_loop (skip_ws r2) (v :: acc)
          else Failed (t "Expecting ',' delimiter") (List.length (e :: r2))
      end
  | Failed m r => Failed m r
  | Raised e => Raised e
  | Exhausted => Exhausted
  end.

End Scanner.

(** The scanner, with fuel for the calls it makes; [json_loads] supplies
    enough of it, as [scan_once_enough_fuel] shows.  The items of an
    object or an array are scanned with one container less to enter. *)
Fixpoint scan_once (fuel depth : nat) (s : text) : scan json :=
  match fuel with
  | O => Exhausted
  | S fuel' =>
      scan_once_body (fun s' acc => object_loop fuel' (pred depth) s' acc)
                     (fun s' acc => array_loop fuel' (pred depth) s' acc)
                     depth s
  end

with object_loop (fuel depth : nat) (s : text) (acc : list (text * json))
  : scan json :=
  match fuel with
  | O => Exhausted
  | S fuel' =>
      object_loop_body (fun s' => scan_once fuel' depth s')
                       (fun s' acc' => object_loop fuel' depth s' acc') s acc
  end

with array_loop (fuel depth : nat) (s : text) (acc : list json)
  : scan json :=
  match fuel with
  | O => Exhausted
  | S fuel' =>
      array_loop_body (fun s' => scan_once fuel' depth s')
                      (fun s' acc' => array_loop fuel' depth s' acc') s acc
  end.

Definition enough_fuel (s : text) : nat := 2 * S (List.length s).

(** [str(e)] for the exception of a limit. *)
Definition str_limit_error (e : limit_error) : text :=
  match e with
  | TooDeep container =>
      t "maximum recursion depth exceeded while decoding a JSON "
      ++ container ++ t " from a unicode string"
  | TooLong digits =>
      t "Exceeds the limit (" ++ str_nat int_max_str_digits
      ++ t " digits) for integer string conversion: value has "
      ++ str_nat digits
      ++ t " digits; use sys.set_int_max_str_digits() to increase the limit"
  end.

End Json.
Import Json.

(** ** Exceptions *)

(** One entry of a pydantic [ValidationError]: where the value was found
    (field name, then the index of an item) and what is wrong with it. *)
Inductive loc_item : Type :=
| LocField (name : text)
| LocIndex (index : nat).

Inductive error_type : Type :=
| missing
| list_type
| string_type.

Record ErrorDetails : Type := mkErrorDetails {
  loc : list loc_item;
  type : error_type
}.

Inductive exn : Type :=
| ValueError (message : text)
| JSONDecodeErr (e : JSONDecodeError)
| ValidationError (errors : list ErrorDetails)
| TypeError (message : text)
| AttributeError (message : text)
| ZeroDivisionError
| RecursionError (message : text)
| OtherException (class_name : text) (message : text).

Definition result (A : Type) : Type := (exn + A)%type.

Definition bind {A B : Type} (m : result A) (k : A -> result B) : result B :=
  match m with
  | inl e => inl e
  | inr a => k a
  end.

Notation "x <- m ;; k" := (bind m (fun x => k))
  (at level 61, m at next level, right associativity).
Notation "' p <- m ;; k" := (bind m (fun p => k))
  (at level 61, p pattern, m at next level, right associativity).

(** ** [json.loads] *)

Module Loads.

(** The exception of a limit the scanner hit. *)
Definition limit_exn (e : limit_error) : exn :=
  match e with
  | TooDeep _ => RecursionError (str_limit_error e)
  | TooLong _ => ValueError (str_limit_error e)
  end.

(** [json.loads(s)] for a [str]: the value, or the exception raised, a
    [JSONDecodeError] for a syntax error.  [limit] is the number of
    objects and arrays, one inside the other, that the interpreter lets
    the scanner enter at this call: its recursion limit less the frames in
    use, somewhat under a thousand by default. *)
Definition json_loads (limit : nat) (s : text) : result json :=
  if startswith [65279] s then
    inl (JSONDecodeErr
           (mkJSONDecodeError
              (t "Unexpected UTF-8 BOM (decode using utf-8-sig)") s 0))
  else
    let s0 := skip_ws s in
    match scan_once (enough_fuel s0) limit s0 with
    | Scanned v rest =>
        match skip_ws rest with
        | [] => inr v
        | c :: r =>
            inl (JSONDecodeErr
                   (mkJSONDecodeError (t "Extra data") s
                      (List.length s - List.length (c :: r))))
        end
    | Failed m remaining =>
        inl (JSONDecodeErr
               (mkJSONDecodeError m s (List.length s - remaining)))
    | Raised e => inl (limit_exn e)
    | Exhausted => inl (JSONDecodeErr (mkJSONDecodeError [] s 0))
    end.

(** *** [json.dumps] *)

Section FirstError.

Variable A : Type.
Variable f : A -> option exn.

(** The first exception met in a list, going through it in order. *)
Fixpoint first_error (xs : list A) : option exn :=
  match xs with
  | [] => None
  | x :: xs' =>
      match f x with
      | Some e => Some e
      | None => first_error xs'
      end
  end.

End FirstError.

Arguments first_error {A} f xs.

(** The exception the encoder raises on [v], if any: [int.__repr__]
    raises for an integer of more than [int_max_str_digits] digits, and
    the interpreter for a list or a mapping entered with no nesting left
    of the [depth] lists and mappings, one inside the other, that it
    allows. *)
Fixpoint encoder_error (depth : nat) (v : json) {struct v}
  : option exn :=
  match v with
  | JInt z =>
      if (int_max_str_digits <? int_digits z)%nat
      then Some (ValueError
                   (t "Exceeds the limit (" ++ str_nat int_max_str_digits
                    ++ t " digits) for integer string conversion; use sys.set_int_max_str_digits() to increase the limit"))
      else None
  | JList xs =>
      match depth with
      | O =>
          Some (RecursionError
                  (t "maximum recursion depth exceeded while encoding a JSON object"))
      | S depth' => first_error (encoder_error depth') xs
      end
  | JDict kvs =>
      match depth with
      | O =>
          Some (RecursionError
                  (t "maximum recursion depth exceeded while encoding a JSON object"))
      | S depth' => first_error (fun kv => encoder_error depth' (snd kv)) kvs
      end
  | _ => None
  end.

(** [json.dumps(v)]: the text [dumps] gives, or the exception of a limit
    of the interpreter.  [limit] is as for [json_loads]. *)
Definition json_dumps (limit : nat) (float_repr : text -> text) (v : json)
  : result text :=
  match encoder_error limit v with
  | Some e => inl e
  | None => inr (dumps float_repr v)
  end.

End Loads.
Import Loads.

(** ** [src/schemas.py] *)

Module Schemas.

Record ContentMetadata : Type := mkContentMetadata {
  genres : list text;
  themes : list text;
  mood : text;
  target_audience : text;
  content_warnings : list text
}.

(** The errors of the items of a [list[str]] field, from index [i] on. *)
Fixpoint item_errors (name : text) (i : nat) (xs : list json)
  : list ErrorDetails :=
  match xs with
  | [] => []
  | JStr _ :: xs' => item_errors name (S i) xs'
  | _ :: xs' =>
      mkErrorDetails [LocField name; LocIndex i] string_type
      :: item_errors name (S i) xs'
  end.

Fixpoint item_strings (xs : list json) : list text :=
  match xs with
  | [] => []
  | JStr s :: xs' => s :: item_strings xs'
  | _ :: xs' => item_strings xs'
  end.

(** A field declared [str]. *)
Definition validate_str (name : text) (data : list (text * json))
  : list ErrorDetails + text :=
  match dict_get name data with
  | None => inl [mkErrorDetails [LocField name] missing]
  | Some (JStr s) => inr s
  | Some _ => inl [mkErrorDetails [LocField name] string_type]
  end.

(** A field declared [list[str]], with its default if it has one. *)
Definition validate_list_str (name : text) (default : option (list text))
  (data : list (text * json)) : list ErrorDetails + list text :=
  match dict_get name data with
  | None =>
      match default with
      | Some d => inr d
      | None => inl [mkErrorDetails [LocField name] missing]
      end
  | Some (JList xs) =>
      match item_errors name 0 xs with
      | [] => inr (item_strings xs)
      | errs => inl errs
      end
  | Some _ => inl [mkErrorDetails [LocField name] list_type]
  end.

Definition errors_of {A : Type} (r : list ErrorDetails + A)
  : list ErrorDetails :=
  match r with
  | inl errs => errs
  | inr _ => []
  end.

(** The name Python gives the type of a decoded value. *)
Definition type_name (v : json) : text :=
  match v with
  | JNull => t "NoneType"
  | JBool _ => t "bool"
  | JInt _ => t "int"
  | JFloat _ => t "float"
  | JStr _ => t "str"
  | JList _ => t "list"
  | JDict _ => t "dict"
  end.

(** [ContentMetadata] called with the items of [data] as keyword
    arguments: the fields are validated in the order of their declaration
    and every error is reported; keys that are not fields are ignored.  A
    [data] that is not a mapping cannot be unpacked into keyword
    arguments. *)
Definition ContentMetadata_init (data : json) : result ContentMetadata :=
  match data with
  | JDict items =>
      let g := validate_list_str (t "genres") None items in
      let th := validate_list_str (t "themes") None items in
      let m := validate_str (t "mood") items in
      let a := validate_str (t "target_audience") items in
      let w := validate_list_str (t "content_warnings") (Some []) items in
      match g, th, m, a, w with
      | inr g', inr th', inr m', inr a', inr w' =>
          inr (mkContentMetadata g' th' m' a' w')
      | _, _, _, _, _ =>
          inl (ValidationError
                 (errors_of g ++ errors_of th ++ errors_of m ++ errors_of a
                  ++ errors_of w))
      end
  | _ =>
      inl (TypeError
             (t "src.schemas.ContentMetadata() argument after ** must be a mapping, not "
              ++ type_name data))
  end.

End Schemas.
Import Schemas.

(** ** [src/prompts.py] *)

Module Prompts.

Definition nl : text := [newline].
Definition dq : text := [dquote].

(** [EXTRACTION_PROMPT.format(description=..., schema=...)]. *)
Definition EXTRACTION_PROMPT_format (description schema : text) : text :=
  t "You are a content metadata extraction system for a streaming platform." ++ nl
  ++ nl
  ++ t "Extract the following from the show/movie description:" ++ nl
  ++ t "- genres: List of applicable genres (Drama, Comedy, Thriller, Horror, Sci-Fi, Romance, Documentary, Action, Animation, Mystery, Crime, Fantasy, Adventure, Family)" ++ nl
  ++ t "- themes: Key themes present (family, revenge, love, survival, identity, justice, power, friendship, betrayal, redemption, loss, coming-of-age, corruption, freedom)" ++ nl
  ++ t "- mood: Overall tone (dark, lighthearted, suspenseful, tense, heartwarming, eerie, comedic, dramatic, inspiring, melancholic, thrilling)" ++ nl
  ++ t "- target_audience: Primary audience (kids, teens, adults, family)" ++ nl
  ++ t "- content_warnings: Any potentially sensitive content (violence, language, sexual content, drug use, death, gore, frightening scenes). Use an empty list if none are apparent." ++ nl
  ++ nl
  ++ t "IMPORTANT RULES:" ++ nl
  ++ t "- Return ONLY valid JSON. No markdown, no backticks, no explanation." ++ nl
  ++ t "- genres and themes should each have 1-4 items." ++ nl
  ++ t "- mood should be a single word or short phrase." ++ nl
  ++ t "- target_audience should be exactly one of: kids, teens, adults, family." ++ nl
  ++ t "- Base your extraction ONLY on what the description states or strongly implies." ++ nl
  ++ nl
  ++ t "EXAMPLE:" ++ nl
  ++ t "Description: " ++ q "A brilliant group of students become card-counting experts with the intent of swindling millions out of Las Vegas casinos by playing blackjack." ++ nl
  ++ t "Output:" ++ nl
  ++ t "{" ++ q "genres" ++ t ": [" ++ q "Drama" ++ t ", " ++ q "Thriller" ++ t ", " ++ q "Crime" ++ t "], "
  ++ q "themes" ++ t ": [" ++ q "ambition" ++ t ", " ++ q "deception" ++ t ", " ++ q "risk" ++ t "], "
  ++ q "mood" ++ t ": " ++ q "thrilling" ++ t ", "
  ++ q "target_audience" ++ t ": " ++ q "adults" ++ t ", "
  ++ q "content_warnings" ++ t ": [" ++ q "gambling" ++ t "]}" ++ nl
  ++ nl
  ++ t "Now extract metadata from:" ++ nl
  ++ t "Description: " ++ description ++ nl
  ++ nl
  ++ schema.

(** [RETRY_PROMPT.format(error=..., description=...)]. *)
Definition RETRY_PROMPT_format (error description : text) : text :=
  t "Your previous response was not valid JSON or did not match the required schema." ++ nl
  ++ t "Error: " ++ error ++ nl
  ++ nl
  ++ t "Please try again. Return ONLY valid JSON with these exact fields:" ++ nl
  ++ t "- genres: list of strings" ++ nl
  ++ t "- themes: list of strings  " ++ nl
  ++ t "- mood: string" ++ nl
  ++ t "- target_audience: string (one of: kids, teens, adults, family)" ++ nl
  ++ t "- content_warnings: list of strings" ++ nl
  ++ nl
  ++ t "Description: " ++ description ++ nl
  ++ nl
  ++ t "Respond with ONLY the JSON object, no other text.".

End Prompts.
Import Prompts.

(** ** [src/extractor.py] *)

Module Extractor.

(** [self.max_retries], set by [__init__]. *)
Definition max_retries : nat := 2.

(** The dictionary [extract] returns. *)
Record Envelope : Type := mkEnvelope {
  metadata : option ContentMetadata;
  raw_response : option text;
  retries : nat;
  success : bool;
  error : option text
}.

(** The same dictionary once [extract_batch] has set its ["title"] and
    ["description"]. *)
Record Result : Type := mkResult {
  envelope :> Envelope;
  title : text;
  description : text
}.

(** An item handed to [extract_batch]; either key may be absent. *)
Record Item : Type := mkItem {
  item_title : option text;
  item_description : option text
}.

Definition fence : text := [96; 96; 96].

Definition _clean_json_response (response : text) : text :=
  let cleaned := re_sub_ws (fence ++ t "json") response in
  let cleaned := re_sub_ws fence cleaned in
  let cleaned := strip cleaned in
  cleaned.

(** The [except] clause names [json.JSONDecodeError] only: any other
    exception of [json.loads] leaves [_parse_response] as it is.
    [depth_limit] is the nesting the interpreter allows the decoder
    here. *)
Definition _parse_response (depth_limit : nat) (response : text)
  : result json :=
  let cleaned := _clean_json_response response in
  match json_loads depth_limit cleaned with
  | inr data => inr data
  | inl (JSONDecodeErr e) =>
      inl (ValueError
             (t "Invalid JSON response: " ++ str_JSONDecodeError e ++ nl
              ++ t "Response was: " ++ cleaned))
  | inl e => inl e
  end.

Definition _validate (data : json) : result ContentMetadata :=
  ContentMetadata_init data.

(** The exceptions the [except] clause of [extract] catches:
    [ValueError], [ValidationError], [json.JSONDecodeError]. *)
Definition is_caught (e : exn) : bool :=
  match e with
  | ValueError _ | JSONDecodeErr _ | ValidationError _ => true
  | _ => false
  end.

Section Engine.

(** The model-call collaborator behind [_call_api]: given the prompt and
    its own state, it returns text or raises, and moves to a new state. *)
Variable St : Type.
Variable _call_api : text -> St -> result text * St.

(** [json.dumps(ContentMetadata.model_json_schema(), indent=2)] and the
    text pydantic prints for a [ValidationError]: both are pydantic's. *)
Variable schema_json : text.
Variable str_ValidationError : list ErrorDetails -> text.

(** The nesting of objects and arrays the interpreter allows the decoder
    when [extract] has it called. *)
Variable depth_limit : nat.

Definition _get_schema_string : text :=
  t "Required JSON schema: " ++ schema_json.

(** [str(e)]. *)
Definition str_exn (e : exn) : text :=
  match e with
  | ValueError m => m
  | JSONDecodeErr e' => str_JSONDecodeError e'
  | ValidationError errs => str_ValidationError errs
  | TypeError m => m
  | AttributeError m => m
  | ZeroDivisionError => t "division by zero"
  | RecursionError m => m
  | OtherException _ m => m
  end.

(** [str(last_error)], [last_error] being [None] before any failure. *)
Definition str_last_error (last_error : option exn) : text :=
  match last_error with
  | Some e => str_exn e
  | None => t "None"
  end.

(** The body of the [try]: call, parse, validate.  The second component
    is the text bound to [raw_response] by this attempt, if the call
    returned. *)
Definition attempt_once (prompt : text) (s : St)
  : result ContentMetadata * option text * St :=
  let '(r, s1) := _call_api prompt s in
  match r with
  | inl e => (inl e, None, s1)
  | inr raw =>
      (data <- _parse_response depth_limit raw ;; _validate data, Some raw,
       s1)
  end.

(** The [for attempt in range(1 + self.max_retries)] loop over the
    attempts still to make, and the [return] after it. *)
Fixpoint extract_loop (attempts : list nat) (description prompt : text)
  (last_error : option exn) (raw_response : option text) (s : St)
  : result Envelope * St :=
  match attempts with
  | [] =>
      (inr (mkEnvelope None raw_response max_retries false
              (Some (str_last_error last_error))), s)
  | attempt :: attempts' =>
      let prompt :=
        if (0 <? attempt)%nat
        then RETRY_PROMPT_format (str_last_error last_error) description
        else prompt in
      let '(r, bound, s1) := attempt_once prompt s in
      let raw_response :=
        match bound with
        | Some raw => Some raw
        | None => raw_response
        end in
      match r with
      | inr md =>
          (inr (mkEnvelope (Some md) raw_response attempt true None), s1)
      | inl e =>
          if is_caught e
          then extract_loop attempts' description prompt (Some e)
                 raw_response s1
          else (inl e, s1)
      end
  end.

Definition extract (description : text) (s : St) : result Envelope * St :=
  let schema_str := _get_schema_string in
  let prompt := EXTRACTION_PROMPT_format description schema_str in
  extract_loop (seq 0 (1 + max_retries)) description prompt None None s.

(** The [for i, item in enumerate(descriptions)] loop of [extract_batch],
    from index [i] on, [results] being the list built so far. *)
Fixpoint extract_batch_loop (i : nat) (descriptions : list Item)
  (results : list Result) (s : St) : result (list Result) * St :=
  match descriptions with
  | [] => (inr results, s)
  | item :: descriptions' =>
      let title :=
        match item_title item with
        | Some x => x
        | None => t "Item " ++ str_nat (i + 1)
        end in
      let description :=
        match item_description item with
        | Some x => x
        | None => []
        end in
      match extract description s with
      | (inl e, s1) => (inl e, s1)
      | (inr result, s1) =>
          extract_batch_loop (S i) descriptions'
            (results ++ [mkResult result title description]) s1
      end
  end.

Definition extract_batch (descriptions : list Item) (s : St)
  : result (list Result) * St :=
  extract_batch_loop 0 descriptions [] s.

End Engine.

End Extractor.
Import Extractor.

(** ** [src/evaluation.py] *)

Module Evaluation.

(** Python's [a / b] on numbers. *)
Definition truediv (a b : Q) : result Q :=
  if Qeq_bool b 0 then inl ZeroDivisionError else inr (a / b)%Q.

Definition Qnat (n : nat) : Q := inject_Z (Z.of_nat n).

(** [sum(xs)]. *)
Definition Qsum (xs : list Q) : Q := fold_left Qplus xs 0%Q.

(** [sum(1 for r in results if p(r))]. *)
Definition count {A : Type} (p : A -> bool) (xs : list A) : nat :=
  List.length (filter p xs).

Definition schema_compliance_rate (results : list Result) : result Q :=
  match results with
  | [] => inr 0%Q
  | _ =>
      let first_try_success :=
        count (fun r : Result => success r && (retries r =? 0)%nat) results in
      x <- truediv (Qnat first_try_success) (Qnat (List.length results)) ;;
      inr (x * 100)%Q
  end.

Definition overall_success_rate (results : list Result) : result Q :=
  match results with
  | [] => inr 0%Q
  | _ =>
      let successes := count (fun r : Result => success r) results in
      x <- truediv (Qnat successes) (Qnat (List.length results)) ;;
      inr (x * 100)%Q
  end.

Definition retry_rate (results : list Result) : result Q :=
  match results with
  | [] => inr 0%Q
  | _ =>
      let retried :=
        count (fun r : Result => success r && (0 <? retries r)%nat) results in
      x <- truediv (Qnat retried) (Qnat (List.length results)) ;;
      inr (x * 100)%Q
  end.

(** Sets of strings: [set(xs)], [a & b], [a | b], [len]. *)
Definition mem (x : text) (xs : list text) : bool := existsb (text_eqb x) xs.

Fixpoint set_of (xs : list text) : list text :=
  match xs with
  | [] => []
  | x :: xs' => if mem x xs' then set_of xs' else x :: set_of xs'
  end.

Definition set_inter (a b : list text) : list text :=
  filter (fun x => mem x b) a.

Definition set_union (a b : list text) : list text :=
  a ++ filter (fun x => negb (mem x a)) b.

(** [r["metadata"]] read as a [ContentMetadata]; on [None] the attribute
    access that follows raises. *)
Definition metadata_of (r : Result) : result ContentMetadata :=
  match metadata r with
  | Some md => inr md
  | None =>
      inl (AttributeError (t "'NoneType' object has no attribute 'genres'"))
  end.

(** A row of the labeled dataset. *)
Record Row : Type := mkRow {
  Title : text;
  Description : text;
  Type_ : text
}.

Record GenreDetail : Type := mkGenreDetail {
  gd_title : text;
  gd_extracted : list text;
  gd_actual : list text;
  gd_match : bool
}.

Record GenreAccuracy : Type := mkGenreAccuracy {
  accuracy : Q;
  matches : nat;
  total : nat;
  details : list GenreDetail
}.

Record Annotation : Type := mkAnnotation {
  ann_title : text;
  ann_description : text;
  expected : ContentMetadata
}.

Record Scores : Type := mkScores {
  s_genres : Q;
  s_themes : Q;
  s_mood : Q;
  s_target_audience : Q;
  s_content_warnings : Q
}.

Record Comparison : Type := mkComparison {
  c_title : text;
  c_extracted : ContentMetadata;
  c_expected : ContentMetadata;
  c_scores : Scores
}.

(** The lists of [field_scores], in the order of its keys. *)
Record FieldScores : Type := mkFieldScores {
  fs_genres : list Q;
  fs_themes : list Q;
  fs_mood : list Q;
  fs_target_audience : list Q;
  fs_content_warnings : list Q
}.

Record AverageScores : Type := mkAverageScores {
  avg_genres : Q;
  avg_themes : Q;
  avg_mood : Q;
  avg_target_audience : Q;
  avg_content_warnings : Q;
  avg_overall : Q
}.

Record ManualAccuracy : Type := mkManualAccuracy {
  average_scores : AverageScores;
  comparison_details : list Comparison
}.

Section Scorer.

(** [str.lower], which follows the Unicode character database. *)
Variable lower : text -> text.

(** The row of [df] selected by [df[df["Title"] == title]] and [iloc[0]]. *)
Definition find_row (df : list Row) (title : text) : option Row :=
  find (fun row => text_eqb (Title row) title) df.

(** The [for result in results] loop of [genre_accuracy]. *)
Fixpoint genre_accuracy_loop (results : list Result) (df : list Row)
  (matches total : nat) (details : list GenreDetail)
  : result (nat * nat * list GenreDetail) :=
  match results with
  | [] => inr (matches, total, details)
  | result :: results' =>
      if negb (success result)
      then genre_accuracy_loop results' df matches total details
      else
        let title := title result in
        md <- metadata_of result ;;
        let extracted_genres := map lower (genres md) in
        match find_row df title with
        | None => genre_accuracy_loop results' df matches total details
        | Some row =>
            let actual_type := strip (lower (Type_ row)) in
            let actual_genres :=
              map (fun g => lower (strip g)) (split_char 44 actual_type) in
            let overlap :=
              set_inter (set_of extracted_genres) (set_of actual_genres) in
            let has_match := (0 <? List.length overlap)%nat in
            let matches := if has_match then S matches else matches in
            let total := S total in
            genre_accuracy_loop results' df matches total
              (details
               ++ [mkGenreDetail title extracted_genres actual_genres
                     has_match])
        end
  end.

Definition genre_accuracy (results : list Result) (df : list Row)
  : result GenreAccuracy :=
  '(matches, total, details) <- genre_accuracy_loop results df 0 0 [] ;;
  acc <- (if (0 <? total)%nat
          then x <- truediv (Qnat matches) (Qnat total) ;; inr (x * 100)%Q
          else inr 0%Q) ;;
  inr (mkGenreAccuracy acc matches total details).

(** Jaccard similarity of the lower-cased sets of two lists of strings,
    [1.0] when both sets are empty. *)
Definition overlap_score (extracted expected : list text) : result Q :=
  let ext := set_of (map lower extracted) in
  let exp := set_of (map lower expected) in
  match ext, exp with
  | [], [] => inr 1%Q
  | _, _ =>
      truediv (Qnat (List.length (set_inter ext exp)))
              (Qnat (List.length (set_union ext exp)))
  end.

Definition exact_score (extracted expected : text) : Q :=
  if text_eqb (lower extracted) (lower expected) then 1%Q else 0%Q.

(** The [for annotation in annotations] loop of [manual_accuracy]. *)
Fixpoint manual_accuracy_loop (results : list Result)
  (annotations : list Annotation) (field_scores : FieldScores)
  (comparison_details : list Comparison)
  : result (FieldScores * list Comparison) :=
  match annotations with
  | [] => inr (field_scores, comparison_details)
  | annotation :: annotations' =>
      let title := ann_title annotation in
      let expected := expected annotation in
      match find (fun r => text_eqb (Extractor.title r) title) results with
      | None =>
          manual_accuracy_loop results annotations' field_scores
            comparison_details
      | Some result =>
          if negb (success result)
          then manual_accuracy_loop results annotations' field_scores
                 comparison_details
          else
            extracted <- metadata_of result ;;
            genre_score <- overlap_score (genres extracted) (genres expected) ;;
            theme_score <- overlap_score (themes extracted) (themes expected) ;;
            let mood_score := exact_score (mood extracted) (mood expected) in
            let audience_score :=
              exact_score (target_audience extracted)
                          (target_audience expected) in
            warning_score <-
              overlap_score (content_warnings extracted)
                            (content_warnings expected) ;;
            manual_accuracy_loop results annotations'
              (mkFieldScores
                 (fs_genres field_scores ++ [genre_score])
                 (fs_themes field_scores ++ [theme_score])
                 (fs_mood field_scores ++ [mood_score])
                 (fs_target_audience field_scores ++ [audience_score])
                 (fs_content_warnings field_scores ++ [warning_score]))
              (comparison_details
               ++ [mkComparison title extracted expected
                     (mkScores genre_score theme_score mood_score
                        audience_score warning_score)])
      end
  end.

(** [sum(scores) / len(scores) * 100 if scores else 0.0]. *)
Definition average (scores : list Q) : result Q :=
  match scores with
  | [] => inr 0%Q
  | _ =>
      x <- truediv (Qsum scores) (Qnat (List.length scores)) ;;
      inr (x * 100)%Q
  end.

Definition manual_accuracy (results : list Result)
  (annotations : list Annotation) : result ManualAccuracy :=
  '(field_scores, comparison_details) <-
    manual_accuracy_loop results annotations
      (mkFieldScores [] [] [] [] []) [] ;;
  g <- average (fs_genres field_scores) ;;
  th <- average (fs_themes field_scores) ;;
  m <- average (fs_mood field_scores) ;;
  a <- average (fs_target_audience field_scores) ;;
  w <- average (fs_content_warnings field_scores) ;;
  overall <- truediv (Qsum [g; th; m; a; w]) (Qnat 5) ;;
  inr (mkManualAccuracy (mkAverageScores g th m a w overall)
         comparison_details).

End Scorer.

End Evaluation.
Import Evaluation.

(** ** [src/evaluation.py]: the evaluation pipeline *)

Module Pipeline.

(** The ["metrics"] of the report. *)
Record Metrics : Type := mkMetrics {
  schema_compliance_first_try : Q;
  m_overall_success_rate : Q;
  m_retry_rate : Q;
  m_genre_accuracy : Q;
  m_manual_accuracy : AverageScores
}.

(** An entry of the ["failures"] of the report. *)
Record Failure : Type := mkFailure {
  f_title : text;
  f_error : option text
}.

(** The dictionary [run_evaluation] returns. *)
Record Report : Type := mkReport {
  timestamp : text;
  total_samples : nat;
  metrics : Metrics;
  failure_count : nat;
  failures : list Failure
}.

(** The items built from the annotations, and from the sampled rows. *)
Definition annotated_items (annotations : list Annotation) : list Item :=
  map (fun a => mkItem (Some (ann_title a)) (Some (ann_description a)))
    annotations.

Definition sample_items (sample_df : list Row) : list Item :=
  map (fun row => mkItem (Some (Title row)) (Some (Description row)))
    sample_df.

Section RunEvaluation.

Variable St : Type.
Variable _call_api : text -> St -> result text * St.
Variable schema_json : text.
Variable str_ValidationError : list ErrorDetails -> text.
Variable depth_limit : nat.
Variable lower : text -> text.

(** pandas' part: the rows drawn by
    [df[["Title", "Description", "Type"]].dropna().sample(n=n_samples, random_state=42)],
    which raises when it cannot draw that many; the three columns of a
    [Row] hold strings, so [dropna] removes nothing.  The clock's part:
    [datetime.now().isoformat()].  The file system's part: writing the
    report to [data/evaluation_report.json]. *)
Variable sample : list Row -> nat -> result (list Row).
Variable now : text.
Variable save : Report -> result unit.

(** What is printed is not part of the model. *)
Definition run_evaluation (df : list Row) (annotations : list Annotation)
  (n_samples : nat) (save_report : bool) (s : St) : result Report * St :=
  match extract_batch _call_api schema_json str_ValidationError
          depth_limit (annotated_items annotations) s with
  | (inl e, s1) => (inl e, s1)
  | (inr annotated_results, s1) =>
      match sample df n_samples with
      | inl e => (inl e, s1)
      | inr sample_df =>
          match extract_batch _call_api schema_json str_ValidationError
                  depth_limit (sample_items sample_df) s1 with
          | (inl e, s2) => (inl e, s2)
          | (inr sample_results, s2) =>
              let all_results := annotated_results ++ sample_results in
              (compliance <- schema_compliance_rate all_results ;;
               success_rate <- overall_success_rate all_results ;;
               retries_rate <- retry_rate all_results ;;
               genre_acc <- genre_accuracy lower sample_results df ;;
               manual_acc <-
                 manual_accuracy lower annotated_results annotations ;;
               let failed :=
                 filter (fun r : Result => negb (success r)) all_results in
               let report :=
                 mkReport now (List.length all_results)
                   (mkMetrics compliance success_rate retries_rate
                      (accuracy genre_acc) (average_scores manual_acc))
                   (List.length failed)
                   (map (fun f : Result => mkFailure (title f) (error f))
                      failed) in
               _ <- (if save_report then save report else inr tt) ;;
               inr report,
               s2)
          end
      end
  end.

End RunEvaluation.

End Pipeline.
Import Pipeline.

(** ** Vocabulary of the properties *)

Module Props.

(** The shapes the schema declares. *)
Definition is_str (v : json) : bool :=
  match v with
  | JStr _ => true
  | _ => false
  end.

Definition is_list_of_str (v : json) : bool :=
  match v with
  | JList xs => forallb is_str xs
  | _ => false
  end.

Definition list_str_fields : list text := [t "genres"; t "themes"].
Definition str_fields : list text := [t "mood"; t "target_audience"].
Definition required_fields : list text := list_str_fields ++ str_fields.

(** Whether [v] has the shape declared for the required field [name]. *)
Definition well_shaped (name : text) (v : json) : bool :=
  if mem name str_fields then is_str v else is_list_of_str v.

(** The field an error entry names. *)
Definition names_field (name : text) (e : ErrorDetails) : Prop :=
  hd_error (loc e) = Some (LocField name).

Definition is_inl {A B : Type} (r : A + B) : bool :=
  match r with
  | inl _ => true
  | inr _ => false
  end.

(** A collaborator that also counts the calls it receives. *)
Definition counted {St : Type} (call : text -> St -> result text * St)
  (prompt : text) (sn : St * nat) : result text * (St * nat) :=
  let '(r, s') := call prompt (fst sn) in (r, (s', S (snd sn))).

(** A collaborator that answers from a script, one entry per call, and
    raises [StopIteration] once the script is over (a mock with a
    [side_effect] list). *)
Definition scripted (prompt : text) (script : list (result text))
  : result text * list (result text) :=
  match script with
  | [] => (inl (OtherException (t "StopIteration") []), [])
  | r :: script' => (r, script')
  end.

(** A collaborator without state that returns the same text to every
    call (a mock with a [return_value]). *)
Definition constant_call (raw : text) (prompt : text) (s : unit)
  : result text * unit := (inr raw, s).

(** A collaborator none of whose calls makes [extract] raise: it returns
    text or raises an exception of a caught class, and a returned text is
    read by the parser as a mapping or rejected by it with an exception of
    a caught class. *)
Definition contained {St : Type} (limit : nat)
  (call : text -> St -> result text * St) : Prop :=
  forall prompt s,
    match fst (call prompt s) with
    | inl e => is_caught e = true
    | inr raw =>
        match _parse_response limit raw with
        | inr (JDict _) => True
        | inr _ => False
        | inl e => is_caught e = true
        end
    end.

(** A collaborator whose answer depends on the prompt only. *)
Definition prompt_determined {St : Type}
  (call : text -> St -> result text * St) : Prop :=
  forall prompt s1 s2, fst (call prompt s1) = fst (call prompt s2).

(** The title and description [extract_batch] reads from the item at
    index [i]. *)
Definition title_of (i : nat) (item : Item) : text :=
  match item_title item with
  | Some x => x
  | None => t "Item " ++ str_nat (i + 1)
  end.

Definition description_of (item : Item) : text :=
  match item_description item with
  | Some x => x
  | None => []
  end.

(** A result as [extract] builds it: a successful one has its record. *)
Definition well_formed (r : Result) : Prop :=
  success r = true -> metadata r <> None.

(** Whether two lists of strings have an element in common. *)
Definition intersects (a b : list text) : bool :=
  existsb (fun x => mem x b) a.

(** [q] is the Jaccard similarity of the sets of the lower-cased elements
    of [a] and [b]: the size of their intersection over the size of their
    union, and [1] when both are empty. *)
Definition is_jaccard (lower : text -> text) (a b : list text) (q : Q)
  : Prop :=
  exists I U : list text,
    NoDup I /\ NoDup U
    /\ (forall x, In x I <-> In x (map lower a) /\ In x (map lower b))
    /\ (forall x, In x U <-> In x (map lower a) \/ In x (map lower b))
    /\ q = match U with
           | [] => 1%Q
           | _ => (Qnat (List.length I) / Qnat (List.length U))%Q
           end.

(** The rows [genre_accuracy] compares: for each successful result, in
    order, the first row of the dataset with the result's title, when
    there is one. *)
Definition comparable_rows (results : list Result) (df : list Row)
  : list (ContentMetadata * Row) :=
  flat_map
    (fun r : Result =>
       if success r
       then match metadata r, find_row df (title r) with
            | Some md, Some row => [(md, row)]
            | _, _ => []
            end
       else [])
    results.

(** The genres listed by the label of a row: the parts between commas,
    trimmed and lower-cased. *)
Definition label_genres (lower : text -> text) (row : Row) : list text :=
  map (fun g => lower (strip g)) (split_char 44 (strip (lower (Type_ row)))).

Definition is_genre_match (lower : text -> text)
  (c : ContentMetadata * Row) : bool :=
  intersects (map lower (genres (fst c))) (label_genres lower (snd c)).

(** The annotations [manual_accuracy] compares, each with the record of
    its result: those for which the first result with the annotation's
    title exists and is successful. *)
Definition comparable_annotations (results : list Result)
  (annotations : list Annotation)
  : list (text * ContentMetadata * ContentMetadata) :=
  flat_map
    (fun a =>
       match find (fun r : Result => text_eqb (title r) (ann_title a))
                  results with
       | Some r =>
           if success r
           then match metadata r with
                | Some md => [(ann_title a, md, expected a)]
                | None => []
                end
           else []
       | None => []
       end)
    annotations.

(** The mean of a list of scores as a percentage, [0] for no score. *)
Definition percent_mean (scores : list Q) : Q :=
  match scores with
  | [] => 0%Q
  | _ => (Qsum scores / Qnat (List.length scores) * 100)%Q
  end.

(** The scores of a comparison are those of its two records: Jaccard
    similarity for the three list fields, exact match of the lower-cased
    strings for the two string fields. *)
Definition scored (lower : text -> text) (c : Comparison) : Prop :=
  is_jaccard lower (genres (c_extracted c)) (genres (c_expected c))
    (s_genres (c_scores c))
  /\ is_jaccard lower (themes (c_extracted c)) (themes (c_expected c))
       (s_themes (c_scores c))
  /\ is_jaccard lower (content_warnings (c_extracted c))
       (content_warnings (c_expected c)) (s_content_warnings (c_scores c))
  /\ s_mood (c_scores c)
     = (if text_eqb (lower (mood (c_extracted c)))
                    (lower (mood (c_expected c)))
        then 1%Q else 0%Q)
  /\ s_target_audience (c_scores c)
     = (if text_eqb (lower (target_audience (c_extracted c)))
                    (lower (target_audience (c_expected c)))
        then 1%Q else 0%Q).

Definition is_attribute_error (e : exn) : Prop :=
  match e with
  | AttributeError _ => True
  | _ => False
  end.

(** A scan result that is not out of fuel and, when a value was read,
    has consumed at least one character of [s]. *)
Definition progress {A : Type} (s : text) (r : scan A) : Prop :=
  match r with
  | Scanned _ rest => (List.length rest < List.length s)%nat
  | Failed _ _ => True
  | Raised _ => True
  | Exhausted => False
  end.

Definition scan_good (n : nat) (f : text -> scan json) : Prop :=
  forall s, (List.length s < n)%nat -> progress s (f s).

Definition loop_good {A : Type} (n : nat) (f : text -> A -> scan json)
  : Prop :=
  forall s acc, (List.length s < n)%nat -> progress s (f s acc).

(** More fuel does not change a result obtained without running out. *)
Definition below (f g : text -> scan json) : Prop :=
  forall s, f s <> Exhausted -> g s = f s.

Definition below_loop {A : Type} (f g : text -> A -> scan json) : Prop :=
  forall s acc, f s acc <> Exhausted -> g s acc = f s acc.

(** Whether [rest] is empty or starts with a character that ends a
    value inside an array or an object: comma, closing bracket, closing
    brace. *)
Definition delim (rest : text) : bool :=
  match rest with
  | [] => true
  | c :: _ => (c =? 44) || (c =? 93) || (c =? 125)
  end.

(** A Unicode scalar value: a code point that is not a surrogate. *)
Definition is_scalar (c : N) : bool :=
  (c <? 55296) || ((57343 <? c) && (c <? 1114112)).

(** No string occurs twice in [ks]. *)
Fixpoint distinct (ks : list text) : bool :=
  match ks with
  | [] => true
  | k :: ks' => negb (mem k ks') && distinct ks'
  end.

(** A literal that [_match_number] reads to its end, as a float. *)
Definition float_literal (l : text) : bool :=
  match match_number l with
  | Scanned (JFloat l') [] => text_eqb l' l
  | _ => false
  end.

(** A float in canonical form: its literal is the one the encoder prints
    for it, which is a number with a fraction or an exponent, or
    [Infinity], or [-Infinity].  Every float but [NaN], which is not equal
    to itself, has one canonical form. *)
Definition canonical_float (fr : text -> text) (l : text) : bool :=
  text_eqb (fr l) l
  && (float_literal l || text_eqb l (t "Infinity")
      || text_eqb l (t "-Infinity")).

(** The values taken here as the values of Python: null, booleans,
    integers, floats in canonical form, strings of Unicode scalar values,
    lists of such values, and mappings from such strings, no two items
    with the same key, to such values. *)
Fixpoint plain (fr : text -> text) (v : json) : bool :=
  match v with
  | JNull | JBool _ | JInt _ => true
  | JFloat l => canonical_float fr l
  | JStr s => forallb is_scalar s
  | JList xs => forallb (plain fr) xs
  | JDict kvs =>
      distinct (map fst kvs)
      && forallb (fun kv => forallb is_scalar (fst kv) && plain fr (snd kv))
           kvs
  end.

(** The characters the rendering of a value starts and ends with. *)
Definition value_start (c : char) : bool :=
  (c =? 110) || (c =? 116) || (c =? 102) || (c =? 45) || is_digit c
  || (c =? 34) || (c =? 91) || (c =? 123) || (c =? 73).

Definition value_end (c : char) : bool :=
  (c =? 108) || (c =? 101) || is_digit c || (c =? 34) || (c =? 93)
  || (c =? 125) || (c =? 121).

(** [rest] is what is left of [s] after some of its characters. *)
Definition suffix (rest s : text) : Prop := exists p, s = p ++ rest.

(** A scan that, when it read a value, stopped inside [s]; and right
    after a closing bracket when [s] starts with an opening bracket, after
    a closing brace when [s] starts with an opening brace. *)
Definition closed_scan (s : text) (r : scan json) : Prop :=
  match r with
  | Scanned _ rest =>
      suffix rest s
      /\ match s with
         | c :: _ =>
             ((c =? 91) = true -> suffix (93 :: rest) s)
             /\ ((c =? 123) = true -> suffix (125 :: rest) s)
         | [] => True
         end
  | _ => True
  end.

(** A loop of the scanner that, when it read a value, stopped right after
    the character [closer]. *)
Definition closed_loop (closer : char) (s : text) (r : scan json) : Prop :=
  match r with
  | Scanned _ rest => suffix (closer :: rest) s
  | _ => True
  end.

(** The parser rejects [response]: it raises the [ValueError] that
    carries the syntax error of the decoder, which is about the cleaned
    text, and the cleaned text; or it lets through the exception of a
    limit of the interpreter that the decoder hit. *)
Definition rejected (limit : nat) (response : text) : Prop :=
  (exists e,
      json_loads limit (_clean_json_response response)
      = inl (JSONDecodeErr e)
      /\ doc e = _clean_json_response response
      /\ (pos e <= List.length (_clean_json_response response))%nat
      /\ _parse_response limit response
         = inl (ValueError
                  (t "Invalid JSON response: " ++ str_JSONDecodeError e
                   ++ nl ++ t "Response was: "
                   ++ _clean_json_response response)))
  \/ (exists le,
        json_loads limit (_clean_json_response response)
        = inl (limit_exn le)
        /\ _parse_response limit response = inl (limit_exn le)).

(** Whether [s] starts as no JSON document does: it is empty, or its
    first character is neither whitespace, nor a byte order mark, nor a
    quote, a brace, a bracket, a minus sign or a digit, and none of the
    literals [null], [true], [false], [NaN], [Infinity] is at its
    start. *)
Definition starts_no_value (s : text) : bool :=
  match s with
  | [] => true
  | c :: _ =>
      negb (is_ws c || (c =? 65279) || (c =? 34) || (c =? 123) || (c =? 91)
            || (c =? 45) || is_digit c)
      && negb (startswith (t "null") s || startswith (t "true") s
               || startswith (t "false") s || startswith (t "NaN") s
               || startswith (t "Infinity") s)
  end.

Section Items.

Variable fr : text -> text.

(** The text [json.dumps] writes between the brackets of a list and
    between the braces of a mapping. *)
Fixpoint list_items (xs : list json) : text :=
  match xs with
  | [] => []
  | [x] => dumps fr x
  | x :: xs' => dumps fr x ++ t ", " ++ list_items xs'
  end.

Fixpoint dict_items (kvs : list (text * json)) : text :=
  match kvs with
  | [] => []
  | [(k, x)] => encode_basestring_ascii k ++ t ": " ++ dumps fr x
  | (k, x) :: kvs' =>
      encode_basestring_ascii k ++ t ": " ++ dumps fr x ++ t ", "
      ++ dict_items kvs'
  end.

End Items.

(** No match of [lit] starts inside [body] when [tail] follows it. *)
Definition inert (lit body tail : text) : Prop :=
  forall b1 b2, body = b1 ++ b2 -> b2 <> [] ->
    strip_prefix lit (b2 ++ tail) = None.

(** [tail] is empty or starts with a character that is neither a backtick
    nor the letter j. *)
Definition calm (tail : text) : Prop :=
  match tail with
  | [] => True
  | c :: _ => (c =? 96) = false /\ (c =? 106) = false
  end.

(** [body] in a fenced code block, the opening marker tagged [json] or
    not, with text around the markers and around the body. *)
Definition wrap (tagged : bool) (ws1 ws2 body ws3 ws4 : text) : text :=
  ws1 ++ fence ++ (if tagged then t "json" else []) ++ ws2 ++ body ++ ws3
  ++ fence ++ ws4.

(** A collaborator that also records, call after call, the prompt it
    received and what the call returned or raised. *)
Definition recorded {St : Type} (call : text -> St -> result text * St)
  (prompt : text) (sl : St * list (text * result text))
  : result text * (St * list (text * result text)) :=
  let '(r, s') := call prompt (fst sl) in (r, (s', snd sl ++ [(prompt, r)])).

(** The exception an attempt of [extract] ends with, given what its call
    returned or raised; [None] when the attempt succeeds. *)
Definition attempt_failure (limit : nat) (o : result text) : option exn :=
  match o with
  | inl e => Some e
  | inr raw =>
      match (data <- _parse_response limit raw ;; _validate data) with
      | inl e => Some e
      | inr _ => None
      end
  end.

(** An attempt that fails with an exception of a caught class. *)
Definition retried (limit : nat) (o : result text) : bool :=
  match attempt_failure limit o with
  | Some e => is_caught e
  | None => false
  end.

(** The prompts of successive attempts, the first one being [prompt], each
    later one the retry prompt for the failure of the attempt before
    it. *)
Fixpoint prompts_sent (sv : list ErrorDetails -> text) (limit : nat)
  (description : text) (prompt : text) (outcomes : list (result text))
  : list text :=
  match outcomes with
  | [] => []
  | o :: outcomes' =>
      prompt
      :: prompts_sent sv limit description
           (RETRY_PROMPT_format
              (str_last_error sv (attempt_failure limit o)) description)
           outcomes'
  end.

(** The last text among the outcomes of some calls, [default] if no call
    returned. *)
Definition last_text (default : option text) (outcomes : list (result text))
  : option text :=
  fold_left
    (fun acc o => match o with inr raw => Some raw | inl _ => acc end)
    outcomes default.

(** The five names of the fields of [ContentMetadata]. *)
Definition field_names : list text :=
  required_fields ++ [t "content_warnings"].

(** The annotations paired with the results at the same positions, for
    the successful results. *)
Definition compared_in_order (results : list Result)
  (annotations : list Annotation)
  : list (text * ContentMetadata * ContentMetadata) :=
  flat_map
    (fun ar : Annotation * Result =>
       if success (snd ar)
       then match metadata (snd ar) with
            | Some md => [(ann_title (fst ar), md, expected (fst ar))]
            | None => []
            end
       else [])
    (combine annotations results).

(** Scores between 0 and 1; percentages between 0 and 100. *)
Definition unit_scores (sc : Scores) : Prop :=
  (0 <= s_genres sc <= 1 /\ 0 <= s_themes sc <= 1 /\ 0 <= s_mood sc <= 1
   /\ 0 <= s_target_audience sc <= 1
   /\ 0 <= s_content_warnings sc <= 1)%Q.

Definition percentages (avg : AverageScores) : Prop :=
  (0 <= avg_genres avg <= 100 /\ 0 <= avg_themes avg <= 100
   /\ 0 <= avg_mood avg <= 100 /\ 0 <= avg_target_audience avg <= 100
   /\ 0 <= avg_content_warnings avg <= 100
   /\ 0 <= avg_overall avg <= 100)%Q.

(** Every average is 100. *)
Definition all_hundred (avg : AverageScores) : Prop :=
  (avg_genres avg == 100 /\ avg_themes avg == 100 /\ avg_mood avg == 100
   /\ avg_target_audience avg == 100 /\ avg_content_warnings avg == 100
   /\ avg_overall avg == 100)%Q.

End Props.
Import Props.

(** ** Concrete inputs used below *)

Module Examples.

(** [{"genres": ["Comedy"], "themes": ["love"], "mood": "lighthearted",
    "target_audience": "teens"}], as in [test_empty_warnings_default]. *)
Definition mapping_without_warnings : list (text * json) :=
  [(t "genres", JList [JStr (t "Comedy")]);
   (t "themes", JList [JStr (t "love")]);
   (t "mood", JStr (t "lighthearted"));
   (t "target_audience", JStr (t "teens"))].

(** The same mapping with ["content_warnings": "violence"], a string
    where a list of strings is declared. *)
Definition mapping_bad_warnings : list (text * json) :=
  mapping_without_warnings ++ [(t "content_warnings", JStr (t "violence"))].

(** [{"genres": "Drama", "themes": ["love"], "mood": "dark",
    "target_audience": "adults"}], as in [test_wrong_type_genres]. *)
Definition mapping_genres_string : list (text * json) :=
  [(t "genres", JStr (t "Drama"));
   (t "themes", JList [JStr (t "love")]);
   (t "mood", JStr (t "dark"));
   (t "target_audience", JStr (t "adults"))].

(** A valid response, as in [test_retry_on_invalid_json]. *)
Definition valid_response : text :=
  t "{" ++ q "genres" ++ t ": [" ++ q "Comedy" ++ t "], "
  ++ q "themes" ++ t ": [" ++ q "love" ++ t "], "
  ++ q "mood" ++ t ": " ++ q "lighthearted" ++ t ", "
  ++ q "target_audience" ++ t ": " ++ q "teens" ++ t ", "
  ++ q "content_warnings" ++ t ": []}".

Definition valid_metadata : ContentMetadata :=
  mkContentMetadata [t "Comedy"] [t "love"] (t "lighthearted") (t "teens") [].

(** The mapping [valid_response] denotes. *)
Definition valid_mapping : list (text * json) :=
  [(t "genres", JList [JStr (t "Comedy")]);
   (t "themes", JList [JStr (t "love")]);
   (t "mood", JStr (t "lighthearted"));
   (t "target_audience", JStr (t "teens"));
   (t "content_warnings", JList [])].

(** The message of the [ValueError] raised for a response that, like
    ["Not JSON"], starts with a character no JSON value starts with. *)
Definition not_json_message (response : text) : text :=
  t "Invalid JSON response: Expecting value: line 1 column 1 (char 0)" ++ nl
  ++ t "Response was: " ++ response.

(** A stand-in for the text pydantic prints for a [ValidationError]. *)
Definition some_str_ValidationError (errs : list ErrorDetails) : text :=
  str_nat (List.length errs) ++ t " validation errors for ContentMetadata".

(** A service error, such as the client library raises when the
    connection fails. *)
Definition service_error : exn :=
  OtherException (t "APIConnectionError") (t "Connection error.").

(** [str.lower] on ASCII text. *)
Definition ascii_lower (s : text) : text :=
  map (fun c => if (65 <=? c) && (c <=? 90) then c + 32 else c) s.

Definition drama_metadata : ContentMetadata :=
  mkContentMetadata [t "Drama"] [t "family"] (t "dark") (t "adults") [].

(** A successful result titled ["A"] whose only genre is ["Drama"]. *)
Definition drama_result : Result :=
  mkResult (mkEnvelope (Some drama_metadata) (Some [125]) 0 true None)
    (t "A") (t "d").

(** A failed result titled ["B"]. *)
Definition failed_result : Result :=
  mkResult (mkEnvelope None None 2 false (Some (t "e"))) (t "B") (t "d").

(** A dataset row for ["A"] labelled ["Comedy, Drama"]. *)
Definition drama_row : Row := mkRow (t "A") (t "d") (t "Comedy, Drama").

(** An annotation for ["A"] that expects exactly [drama_metadata]. *)
Definition drama_annotation : Annotation :=
  mkAnnotation (t "A") (t "d") drama_metadata.

(** A failed result titled ["A"]. *)
Definition failed_result_A : Result :=
  mkResult (mkEnvelope None None 2 false (Some (t "e"))) (t "A") (t "d").

(** The truncated response [{"genres": ["Drama"], as in
    [test_partial_json]. *)
Definition truncated_response : text :=
  t "{" ++ q "genres" ++ t ": [" ++ q "Drama".

(** The mapping [{"mood": "```"}], whose string holds a fence marker. *)
Definition backtick_mapping : json :=
  JDict [(t "mood", JStr fence)].

(** An encoder for which every float literal is the canonical one: it
    prints the literal the float was read from. *)
Definition literal_repr (literal : text) : text := literal.

(** The nesting the decoder is allowed when the recursion limit is the
    default 1000 and ten frames are in use. *)
Definition default_depth : nat := 990.

(** 2000 opening brackets, twice the default recursion limit. *)
Definition deep_response : text := repeat 91 2000.

(** An opening bracket followed by a numeral of 4301 digits, one more
    than [int] converts. *)
Definition long_integer_response : text := 91 :: repeat 49 4301.

(** The list [[1.5, -2e-07, Infinity]]. *)
Definition float_list : json :=
  JList [JFloat (t "1.5"); JFloat (t "-2e-07"); JFloat (t "Infinity")].

(** The mapping
    [{"rating": 8.5, "year": 2020, "scores": [1.5, -2e-07, Infinity],
      "seen": null}]. *)
Definition rated_mapping : json :=
  JDict [(t "rating", JFloat (t "8.5")); (t "year", JInt 2020);
         (t "scores", float_list); (t "seen", JNull)].

(** The valid mapping with its items in reverse order and one more key,
    [rating], in front. *)
Definition mapping_with_rating : list (text * json) :=
  (t "rating", JInt 5) :: List.rev valid_mapping.

(** The accuracy of [drama_result] alone against [drama_row], and of no
    compared result. *)
Definition drama_accuracy : GenreAccuracy :=
  mkGenreAccuracy (Qnat 1 / Qnat 1 * 100) 1 1
    [mkGenreDetail (t "A") [t "drama"] [t "comedy"; t "drama"] true].

Definition empty_accuracy : GenreAccuracy := mkGenreAccuracy 0 0 0 [].

(** The result of the item of [drama_annotation] when the response is
    [valid_response]. *)
Definition annotated_result : Result :=
  mkResult (mkEnvelope (Some valid_metadata) (Some valid_response) 0 true
              None) (t "A") (t "d").

(** A sampling that takes the first rows, a time, and a saving that
    succeeds. *)
Definition first_rows (df : list Row) (n : nat) : result (list Row) :=
  inr (firstn n df).

Definition some_time : text := t "2025-01-01T00:00:00".

Definition saved (report : Report) : result unit := inr tt.

(** A run of the pipeline in which the annotated item is extracted at the
    first attempt and the three attempts for the sampled row fail, and its
    report. *)
Definition example_run : result Report * list (result text) :=
  run_evaluation scripted (t "schema") some_str_ValidationError
    default_depth ascii_lower first_rows some_time saved [drama_row]
    [drama_annotation] 1 true
    [inr valid_response; inr (t "Not JSON"); inr (t "Not JSON");
     inr (t "Not JSON")].

Definition example_report : Report :=
  Eval vm_compute in
    match fst example_run with
    | inr report => report
    | inl _ =>
        mkReport [] 0 (mkMetrics 0 0 0 0 (mkAverageScores 0 0 0 0 0 0)) 0 []
    end.

End Examples.
Import Examples.

(** * Properties *)

Unset Implicit Arguments.

(** ** Schema validator *)

Section ValidatorFacts.

Lemma text_eqb_refl (a : text) : text_eqb a a = true.
Proof. unfold text_eqb. destruct (list_eq_dec N.eq_dec a a); congruence. Qed.

Lemma text_eqb_eq (a b : text) : text_eqb a b = true <-> a = b.
Proof.
  unfold text_eqb. destruct (list_eq_dec N.eq_dec a b); split; congruence.
Qed.

Lemma item_errors_strings (name : text) (ss : list text) (i : nat) :
  item_errors name i (map JStr ss) = [] /\ item_strings (map JStr ss) = ss.
Proof.
  revert i. induction ss as [|s ss IH]; intro i; simpl; [easy|].
  destruct (IH (S i)) as [-> ->]. easy.
Qed.

Lemma validate_list_str_ok name default items ss :
  dict_get name items = Some (JList (map JStr ss)) ->
  validate_list_str name default items = inr ss.
Proof.
  intro H. unfold validate_list_str. rewrite H.
  destruct (item_errors_strings name ss 0%nat) as [-> ->]. reflexivity.
Qed.

Lemma validate_str_ok name items s :
  dict_get name items = Some (JStr s) -> validate_str name items = inr s.
Proof. intro H. unfold validate_str. now rewrite H. Qed.

Lemma item_errors_named name xs i :
  Forall (names_field name) (item_errors name i xs).
Proof.
  revert i. induction xs as [|x xs IH]; intro i; simpl; [constructor|].
  destruct x; try (constructor; [reflexivity|]); apply IH.
Qed.

Lemma item_errors_nonempty name xs i :
  forallb is_str xs = false -> item_errors name i xs <> [].
Proof.
  revert i. induction xs as [|x xs IH]; intro i; simpl; [discriminate|].
  destruct x; simpl; try discriminate. apply IH.
Qed.

(** A [list[str]] field without default that is absent or ill-shaped
    yields a non-empty list of errors, all of them naming the field. *)
Lemma validate_list_str_bad name items :
  match dict_get name items with
  | None => True
  | Some v => is_list_of_str v = false
  end ->
  exists e errs,
    validate_list_str name None items = inl (e :: errs)
    /\ Forall (names_field name) (e :: errs).
Proof.
  unfold validate_list_str. destruct (dict_get name items) as [v|].
  - intro H.
    destruct v;
      try (eexists _, _; split; [reflexivity|];
           constructor; [reflexivity|constructor]).
    simpl in H. pose proof (item_errors_nonempty name xs 0%nat H) as Hne.
    pose proof (item_errors_named name xs 0%nat) as Hall.
    destruct (item_errors name 0%nat xs) as [|e errs]; [congruence|].
    eexists _, _. split; [reflexivity|exact Hall].
  - intros _. eexists _, _. split; [reflexivity|].
    constructor; [reflexivity|constructor].
Qed.

Lemma validate_str_bad name items :
  match dict_get name items with
  | None => True
  | Some v => is_str v = false
  end ->
  exists e,
    validate_str name items = inl [e] /\ names_field name e.
Proof.
  unfold validate_str. destruct (dict_get name items) as [v|].
  - intro H. destruct v; try discriminate; eexists; split; reflexivity.
  - intros _. eexists; split; reflexivity.
Qed.

(** As soon as one field is rejected the mapping is, with the errors of
    all the fields. *)
Lemma init_invalid items :
  is_inl (validate_list_str (t "genres") None items)
  || is_inl (validate_list_str (t "themes") None items)
  || is_inl (validate_str (t "mood") items)
  || is_inl (validate_str (t "target_audience") items)
  || is_inl (validate_list_str (t "content_warnings") (Some []) items)
  = true ->
  ContentMetadata_init (JDict items)
  = inl (ValidationError
           (errors_of (validate_list_str (t "genres") None items)
            ++ errors_of (validate_list_str (t "themes") None items)
            ++ errors_of (validate_str (t "mood") items)
            ++ errors_of (validate_str (t "target_audience") items)
            ++ errors_of
                 (validate_list_str (t "content_warnings") (Some [])
                    items))).
Proof.
  unfold ContentMetadata_init.
  destruct (validate_list_str (t "genres") None items),
    (validate_list_str (t "themes") None items),
    (validate_str (t "mood") items),
    (validate_str (t "target_audience") items),
    (validate_list_str (t "content_warnings") (Some []) items);
    simpl; intro H; try reflexivity; discriminate H.
Qed.

End ValidatorFacts.

(** ** C3 and C4: what the validator accepts and rejects *)

(** C3, as stated, fails: a mapping whose four required fields are well
    typed is still rejected when its optional [content_warnings] is not a
    list of strings. *)
Lemma validate_rejects_bad_optional_field :
  ~ (forall items g th m a,
        dict_get (t "genres") items = Some (JList (map JStr g)) ->
        dict_get (t "themes") items = Some (JList (map JStr th)) ->
        dict_get (t "mood") items = Some (JStr m) ->
        dict_get (t "target_audience") items = Some (JStr a) ->
        exists md, _validate (JDict items) = inr md).
Proof.
  intro H.
  destruct (H mapping_bad_warnings [t "Comedy"] [t "love"]
              (t "lighthearted") (t "teens")
              eq_refl eq_refl eq_refl eq_refl) as [md Hmd].
  vm_compute in Hmd. discriminate Hmd.
Qed.

(** C3, amended: for every mapping whose four required fields are well
    typed and whose [content_warnings], when present, is a list of
    strings, the validator succeeds and the record's fields equal the
    input values; when [content_warnings] is absent the record's
    [content_warnings] is the empty list. *)
Theorem validate_accepts_well_typed_mapping items g th m a :
  dict_get (t "genres") items = Some (JList (map JStr g)) ->
  dict_get (t "themes") items = Some (JList (map JStr th)) ->
  dict_get (t "mood") items = Some (JStr m) ->
  dict_get (t "target_audience") items = Some (JStr a) ->
  (dict_get (t "content_warnings") items = None ->
   _validate (JDict items) = inr (mkContentMetadata g th m a []))
  /\ (forall w,
        dict_get (t "content_warnings") items = Some (JList (map JStr w)) ->
        _validate (JDict items) = inr (mkContentMetadata g th m a w)).
Proof.
  intros Hg Hth Hm Ha.
  unfold _validate, ContentMetadata_init.
  rewrite (validate_list_str_ok _ None _ _ Hg),
          (validate_list_str_ok _ None _ _ Hth),
          (validate_str_ok _ _ _ Hm), (validate_str_ok _ _ _ Ha).
  split.
  - intro Hw. unfold validate_list_str at 1. now rewrite Hw.
  - intros w Hw. now rewrite (validate_list_str_ok _ (Some []) _ _ Hw).
Qed.

Lemma validate_accepts_well_typed_mapping_witness :
  _validate (JDict mapping_without_warnings)
  = inr (mkContentMetadata [t "Comedy"] [t "love"] (t "lighthearted")
           (t "teens") []).
Proof.
  exact (proj1 (validate_accepts_well_typed_mapping
                  mapping_without_warnings [t "Comedy"] [t "love"]
                  (t "lighthearted") (t "teens")
                  eq_refl eq_refl eq_refl eq_refl) eq_refl).
Defined.

(** C4: a mapping in which a required field is missing, or has a value
    of the wrong shape, is rejected with a [ValidationError] one of whose
    entries names that field; no record is produced. *)
Theorem validate_rejects_missing_or_malformed items name :
  In name required_fields ->
  match dict_get name items with
  | None => True
  | Some v => well_shaped name v = false
  end ->
  exists errs,
    _validate (JDict items) = inl (ValidationError errs)
    /\ Exists (names_field name) errs.
Proof.
  intros Hin Hbad.
  unfold _validate. eexists. split.
  - apply init_invalid.
    destruct Hin as [<-|[<-|[<-|[<-|[]]]]].
    + destruct (validate_list_str_bad (t "genres") items Hbad)
        as (e & errs & -> & _). reflexivity.
    + destruct (validate_list_str_bad (t "themes") items Hbad)
        as (e & errs & -> & _).
      simpl. rewrite ?orb_true_r. reflexivity.
    + destruct (validate_str_bad (t "mood") items Hbad) as (e & -> & _).
      simpl. rewrite ?orb_true_r. reflexivity.
    + destruct (validate_str_bad (t "target_audience") items Hbad)
        as (e & -> & _).
      simpl. rewrite ?orb_true_r. reflexivity.
  - destruct Hin as [<-|[<-|[<-|[<-|[]]]]].
    + destruct (validate_list_str_bad (t "genres") items Hbad)
        as (e & errs & -> & Hall).
      simpl. apply Exists_cons_hd. now inversion Hall.
    + destruct (validate_list_str_bad (t "themes") items Hbad)
        as (e & errs & -> & Hall).
      apply Exists_app. right. simpl. apply Exists_cons_hd.
      now inversion Hall.
    + destruct (validate_str_bad (t "mood") items Hbad) as (e & -> & Hn).
      apply Exists_app. right. apply Exists_app. right.
      simpl. now apply Exists_cons_hd.
    + destruct (validate_str_bad (t "target_audience") items Hbad)
        as (e & -> & Hn).
      apply Exists_app. right. apply Exists_app. right.
      apply Exists_app. right. simpl. now apply Exists_cons_hd.
Qed.

Lemma validate_rejects_missing_or_malformed_witness :
  exists errs,
    _validate (JDict mapping_genres_string) = inl (ValidationError errs)
    /\ Exists (names_field (t "genres")) errs.
Proof.
  apply (validate_rejects_missing_or_malformed mapping_genres_string
           (t "genres")).
  - simpl. auto.
  - reflexivity.
Defined.

(** ** Extraction engine *)

Section EngineFacts.

Variable St : Type.
Variable call : text -> St -> result text * St.
Variable schema_json : text.
Variable sv : list ErrorDetails -> text.
Variable limit : nat.

Local Abbreviation extract' := (extract call schema_json sv limit).
Local Abbreviation loop' := (extract_loop call sv limit).
Local Abbreviation str' := (str_exn sv).

(** What [json.loads] raises: a syntax error, or the exception of a limit
    of the interpreter. *)
Lemma json_loads_error s e :
  json_loads limit s = inl e ->
  (exists je, e = JSONDecodeErr je) \/ (exists le, e = limit_exn le).
Proof.
  unfold json_loads. destruct (startswith _ _).
  - intro H. inversion H. eauto.
  - destruct (scan_once _ _ _) as [v rest|m r|le|];
      [destruct (skip_ws rest)|..]; intro H; inversion H; eauto.
Qed.

(** What [_parse_response] raises: the [ValueError] that wraps the syntax
    error of the decoder, its message starting with a fixed prefix and
    ending with the cleaned text, or else the exception of a limit, as the
    decoder raised it. *)
Lemma parse_response_error response e :
  _parse_response limit response = inl e ->
  (exists je,
     json_loads limit (_clean_json_response response)
     = inl (JSONDecodeErr je)
     /\ e = ValueError
              (t "Invalid JSON response: " ++ str_JSONDecodeError je ++ nl
               ++ t "Response was: " ++ _clean_json_response response))
  \/ (exists le,
        json_loads limit (_clean_json_response response)
        = inl (limit_exn le)
        /\ e = limit_exn le).
Proof.
  unfold _parse_response.
  destruct (json_loads limit (_clean_json_response response)) as [e'|v]
    eqn:Hj; [|discriminate].
  destruct (json_loads_error _ _ Hj) as [[je ->]|[le ->]].
  - intro H. inversion H. left. eauto.
  - intro H. right. exists le. split; [reflexivity|].
    destruct le; cbn in H |- *; congruence.
Qed.

(** The message of a caught exception of [_parse_response] is not
    empty. *)
Lemma parse_response_error_message response e :
  _parse_response limit response = inl e ->
  is_caught e = true -> str' e <> [].
Proof.
  intros H Hc.
  destruct (parse_response_error _ _ H) as [(je & _ & ->)|(le & _ & ->)].
  - discriminate.
  - destruct le; [discriminate Hc|]. cbn. discriminate.
Qed.

(** One turn of the loop, by the outcome of the attempt. *)
Lemma loop_success attempt attempts d prompt le rr s raw s1 data md :
  let prompt' :=
    if (0 <? attempt)%nat then RETRY_PROMPT_format (str_last_error sv le) d
    else prompt in
  call prompt' s = (inr raw, s1) ->
  _parse_response limit raw = inr data ->
  _validate data = inr md ->
  loop' (attempt :: attempts) d prompt le rr s
  = (inr (mkEnvelope (Some md) (Some raw) attempt true None), s1).
Proof.
  intros prompt' Hc Hp Hv. unfold loop'. cbn [extract_loop].
  unfold attempt_once. fold prompt'. rewrite Hc, Hp. cbn [bind].
  rewrite Hv. reflexivity.
Qed.

Lemma loop_unparsable attempt attempts d prompt le rr s raw s1 e :
  let prompt' :=
    if (0 <? attempt)%nat then RETRY_PROMPT_format (str_last_error sv le) d
    else prompt in
  call prompt' s = (inr raw, s1) ->
  _parse_response limit raw = inl e ->
  is_caught e = true ->
  loop' (attempt :: attempts) d prompt le rr s
  = loop' attempts d prompt' (Some e) (Some raw) s1.
Proof.
  intros prompt' Hc Hp He. unfold loop'. cbn [extract_loop].
  unfold attempt_once. fold prompt'. rewrite Hc, Hp. cbn [bind].
  rewrite He. reflexivity.
Qed.

Lemma loop_parser_raise attempt attempts d prompt le rr s raw s1 e :
  let prompt' :=
    if (0 <? attempt)%nat then RETRY_PROMPT_format (str_last_error sv le) d
    else prompt in
  call prompt' s = (inr raw, s1) ->
  _parse_response limit raw = inl e ->
  is_caught e = false ->
  loop' (attempt :: attempts) d prompt le rr s = (inl e, s1).
Proof.
  intros prompt' Hc Hp He. unfold loop'. cbn [extract_loop].
  unfold attempt_once. fold prompt'. rewrite Hc, Hp. cbn [bind].
  rewrite He. reflexivity.
Qed.

Lemma loop_raise attempt attempts d prompt le rr s e s1 :
  let prompt' :=
    if (0 <? attempt)%nat then RETRY_PROMPT_format (str_last_error sv le) d
    else prompt in
  call prompt' s = (inl e, s1) ->
  is_caught e = false ->
  loop' (attempt :: attempts) d prompt le rr s = (inl e, s1).
Proof.
  intros prompt' Hc He. unfold loop'. cbn [extract_loop].
  unfold attempt_once. fold prompt'. rewrite Hc, He. reflexivity.
Qed.

(** Counting the calls does not change what [extract] does. *)
Lemma loop_counted_same attempts d prompt le rr s n :
  let '(r, sn) :=
    extract_loop (counted call) sv limit attempts d prompt le rr (s, n) in
  (r, fst sn) = loop' attempts d prompt le rr s.
Proof.
  unfold loop'. revert prompt le rr s n.
  induction attempts as [|attempt attempts IH]; intros prompt le rr s n.
  - reflexivity.
  - cbn [extract_loop]. unfold attempt_once, counted. cbn [fst snd].
    set (prompt' := if (0 <? attempt)%nat then _ else _).
    destruct (call prompt' s) as [[e|raw] s1].
    + destruct (is_caught e); [apply IH|reflexivity].
    + destruct (raw' <- _parse_response limit raw ;; _validate raw') as [e|md].
      * destruct (is_caught e); [apply IH|reflexivity].
      * reflexivity.
Qed.

(** The calls made by the attempts [k, k+1, ..., k+m-1]: at most [m];
    a success envelope records the number of the attempt that succeeded,
    a failure envelope is returned after all [m] attempts. *)
Lemma loop_counted_calls m k d prompt le rr s n0 :
  let '(r, sn) :=
    extract_loop (counted call) sv limit (seq k m) d prompt le rr (s, n0) in
  (n0 <= snd sn <= n0 + m)%nat
  /\ match r with
     | inr env =>
         if success env
         then (retries env + n0 + 1 = snd sn + k)%nat
         else snd sn = (n0 + m)%nat /\ retries env = max_retries
     | inl _ => True
     end.
Proof.
  revert k prompt le rr s n0.
  induction m as [|m IH]; intros k prompt le rr s n0.
  - cbn. split; [lia|]. split; [lia|reflexivity].
  - cbn [seq extract_loop]. unfold attempt_once, counted. cbn [fst snd].
    set (prompt' := if (0 <? k)%nat then _ else _).
    destruct (call prompt' s) as [[e|raw] s1].
    + destruct (is_caught e).
      * specialize (IH (S k) prompt' (Some e) rr s1 (S n0)).
        destruct (extract_loop _ _ _ _ _ _ _ _) as [r sn].
        destruct IH as [Hn Hr]. split; [lia|].
        destruct r as [|env]; [exact I|].
        destruct (success env); [lia|]. split; [lia|tauto].
      * cbn. split; [lia|exact I].
    + destruct (raw' <- _parse_response limit raw ;; _validate raw') as [e|md].
      * destruct (is_caught e).
        -- specialize (IH (S k) prompt' (Some e) (Some raw) s1 (S n0)).
           destruct (extract_loop _ _ _ _ _ _ _ _) as [r sn].
           destruct IH as [Hn Hr]. split; [lia|].
           destruct r as [|env]; [exact I|].
           destruct (success env); [lia|]. split; [lia|tauto].
        -- cbn. split; [lia|exact I].
      * cbn. split; lia.
Qed.


(** What the validator raises on a mapping is a [ValidationError]. *)
Lemma validate_mapping_error_caught items e :
  _validate (JDict items) = inl e -> is_caught e = true.
Proof.
  unfold _validate, ContentMetadata_init.
  destruct (validate_list_str (t "genres") None items),
    (validate_list_str (t "themes") None items),
    (validate_str (t "mood") items),
    (validate_str (t "target_audience") items),
    (validate_list_str (t "content_warnings") (Some []) items);
    intro H; inversion H; reflexivity.
Qed.

Lemma loop_contained attempts d prompt le rr s :
  contained limit call ->
  exists env s', loop' attempts d prompt le rr s = (inr env, s').
Proof.
  intro Hcall. unfold loop'. revert prompt le rr s.
  induction attempts as [|attempt attempts IH]; intros prompt le rr s.
  - cbn. eauto.
  - cbn [extract_loop]. unfold attempt_once.
    set (prompt' := if (0 <? attempt)%nat then _ else _).
    specialize (Hcall prompt' s).
    destruct (call prompt' s) as [[e|raw] s1]; cbn [fst] in Hcall.
    + rewrite Hcall. apply IH.
    + destruct (_parse_response limit raw) as [e|data] eqn:Hp; cbn [bind].
      * rewrite Hcall. apply IH.
      * destruct data; try contradiction.
        destruct (_validate (JDict items)) as [e|md] eqn:Hv.
        -- rewrite (validate_mapping_error_caught _ _ Hv). apply IH.
        -- eauto.
Qed.

(** A success envelope carries its record. *)
Lemma extract_envelope_well_formed description s env s' :
  extract' description s = (inr env, s') ->
  success env = true -> metadata env <> None.
Proof.
  unfold extract. generalize (seq 0 (1 + max_retries)).
  generalize (EXTRACTION_PROMPT_format description
                (_get_schema_string schema_json)).
  generalize (@None exn). generalize (@None (list N)). revert s.
  intros s rr le prompt attempts. revert s rr le prompt.
  induction attempts as [|attempt attempts IH]; intros s rr le prompt H Hs.
  - cbn in H. inversion H; subst. discriminate Hs.
  - cbn [extract_loop] in H. unfold attempt_once in H.
    set (prompt' := if (0 <? attempt)%nat then _ else _) in H.
    destruct (call prompt' s) as [[e|raw] s1].
    + destruct (is_caught e); [now apply IH in H|discriminate H].
    + destruct (raw' <- _parse_response limit raw ;; _validate raw') as [e|md].
      * destruct (is_caught e); [now apply IH in H|discriminate H].
      * inversion H; subst. discriminate.
Qed.

Lemma extract_contained description s :
  contained limit call ->
  exists env s', extract' description s = (inr env, s').
Proof. intro Hcall. unfold extract', extract. now apply loop_contained. Qed.

End EngineFacts.




Lemma constant_valid_contained :
  contained default_depth (constant_call valid_response).
Proof. intros prompt s. vm_compute. exact I. Qed.

Lemma constant_not_json_contained :
  contained default_depth (constant_call (t "Not JSON")).
Proof. intros prompt s. vm_compute. reflexivity. Qed.

Lemma constant_call_prompt_determined raw :
  prompt_determined (constant_call raw).
Proof. intros prompt s1 s2. reflexivity. Qed.

(** ** Batch runner *)

Section BatchFacts.

Variable St : Type.
Variable call : text -> St -> result text * St.
Variable schema_json : text.
Variable sv : list ErrorDetails -> text.
Variable limit : nat.

Local Abbreviation extract' := (extract call schema_json sv limit).
Local Abbreviation batch_loop' := (extract_batch_loop call schema_json sv limit).

(** The results the loop appends: one per item, in order, each with the
    title and description read from its item and the envelope [extract]
    returned for that description. *)
Lemma batch_loop_results items i acc s results s' :
  batch_loop' i items acc s = (inr results, s') ->
  exists news,
    results = acc ++ news
    /\ List.length news = List.length items
    /\ forall j item,
         nth_error items j = Some item ->
         exists r sj sj',
           nth_error news j = Some r
           /\ title r = title_of (i + j) item
           /\ description r = description_of item
           /\ extract' (description_of item) sj = (inr (envelope r), sj').
Proof.
  unfold batch_loop'. revert i acc s.
  induction items as [|item items IH]; intros i acc s H.
  - cbn in H. inversion H; subst. exists []. rewrite app_nil_r.
    repeat split. intros [|j] item Hj; discriminate Hj.
  - cbn [extract_batch_loop] in H.
    fold (description_of item) in H. fold (title_of i item) in H.
    destruct (extract call schema_json sv limit (description_of item) s)
      as [[e|env] s1] eqn:Hex; [discriminate H|].
    destruct (IH _ _ _ H) as (news & -> & Hlen & Hnth).
    exists (mkResult env (title_of i item) (description_of item) :: news).
    split; [now rewrite <- app_assoc|]. split; [cbn; lia|].
    intros [|j] item' Hj; cbn in Hj.
    + inversion Hj; subst item'.
      exists (mkResult env (title_of i item) (description_of item)), s, s1.
      cbn. rewrite Nat.add_0_r. repeat split. exact Hex.
    + destruct (Hnth j item' Hj) as (r & sj & sj' & Hr & Ht & Hd & He).
      exists r, sj, sj'. cbn. rewrite <- plus_n_Sm. auto.
Qed.

Lemma batch_loop_contained items i acc s :
  contained limit call ->
  exists results s', batch_loop' i items acc s = (inr results, s').
Proof.
  intro Hcall. unfold batch_loop'. revert i acc s.
  induction items as [|item items IH]; intros i acc s.
  - cbn. eauto.
  - cbn [extract_batch_loop].
    destruct (extract_contained St call schema_json sv limit
                (description_of item) s Hcall)
      as (env & s1 & Hex).
    fold (description_of item). rewrite Hex. apply IH.
Qed.

(** The loop raises at the first item for which [extract] raises, the
    items before it having been extracted. *)
Lemma batch_loop_abort items i acc s e s' :
  batch_loop' i items acc s = (inl e, s') ->
  exists xs item ys rs s1,
    items = xs ++ item :: ys
    /\ batch_loop' i xs acc s = (inr rs, s1)
    /\ extract' (description_of item) s1 = (inl e, s').
Proof.
  unfold batch_loop'. revert i acc s.
  induction items as [|item items IH]; intros i acc s H.
  - discriminate H.
  - cbn [extract_batch_loop] in H.
    fold (description_of item) in H. fold (title_of i item) in H.
    destruct (extract call schema_json sv limit (description_of item) s)
      as [[e0|env] s1] eqn:Hex.
    + inversion H; subst. exists [], item, items, acc, s. auto.
    + destruct (IH _ _ _ H) as (xs & item' & ys & rs & s2 & -> & Hxs & He).
      exists (item :: xs), item', ys, rs, s2. repeat split; [|exact He].
      cbn [List.app extract_batch_loop].
      fold (description_of item). fold (title_of i item).
      rewrite Hex. exact Hxs.
Qed.

(** With a collaborator whose answer depends on the prompt only, what
    [extract] returns does not depend on the state it starts from. *)
Lemma loop_prompt_determined attempts d prompt le rr s1 s2 :
  prompt_determined call ->
  fst (extract_loop call sv limit attempts d prompt le rr s1)
  = fst (extract_loop call sv limit attempts d prompt le rr s2).
Proof.
  intro Hcall. revert prompt le rr s1 s2.
  induction attempts as [|attempt attempts IH]; intros prompt le rr s1 s2.
  - reflexivity.
  - cbn [extract_loop]. unfold attempt_once.
    set (prompt' := if (0 <? attempt)%nat then _ else _).
    specialize (Hcall prompt' s1 s2).
    destruct (call prompt' s1) as [r1 t1], (call prompt' s2) as [r2 t2].
    cbn [fst] in Hcall. subst r2.
    destruct r1 as [e|raw].
    + destruct (is_caught e); [apply IH|reflexivity].
    + destruct (raw' <- _parse_response limit raw ;; _validate raw') as [e|md].
      * destruct (is_caught e); [apply IH|reflexivity].
      * reflexivity.
Qed.

(** The results of a batch are well formed. *)
Lemma extract_batch_well_formed descriptions s results s' :
  extract_batch call schema_json sv limit descriptions s = (inr results, s') ->
  Forall well_formed results.
Proof.
  intro H. unfold extract_batch in H.
  destruct (batch_loop_results _ _ _ _ _ _ H) as (news & -> & Hlen & Hnth).
  cbn [List.app]. apply Forall_forall. intros r Hr.
  apply In_nth_error in Hr. destruct Hr as [j Hj].
  assert (Hlt : (j < List.length descriptions)%nat).
  { rewrite <- Hlen. apply nth_error_Some. congruence. }
  destruct (nth_error descriptions j) as [item|] eqn:Hitem;
    [|apply nth_error_None in Hitem; lia].
  destruct (Hnth j item Hitem) as (r' & sj & sj' & Hr' & _ & _ & Hex).
  rewrite Hj in Hr'. inversion Hr'; subst r'.
  exact (extract_envelope_well_formed St call schema_json sv limit _ _ _ _
           Hex).
Qed.


End BatchFacts.



(** ** Evaluation scorer *)

Section ScorerFacts.

Variable lower : text -> text.

Lemma truediv_Qnat a n :
  (0 < n)%nat -> truediv a (Qnat n) = inr (a / Qnat n)%Q.
Proof.
  intro Hn. unfold truediv, Qnat.
  destruct (Qeq_bool (inject_Z (Z.of_nat n)) 0) eqn:E; [|reflexivity].
  apply Qeq_bool_eq in E. unfold Qeq in E. cbn in E. lia.
Qed.

Lemma rate_total (p : Result -> bool) r results :
  truediv (Qnat (count p (r :: results)))
          (Qnat (List.length (r :: results)))
  = inr (Qnat (count p (r :: results))
         / Qnat (List.length (r :: results)))%Q.
Proof. apply truediv_Qnat. cbn. lia. Qed.

(** Sets of strings as duplicate-free lists. *)
Lemma mem_In x xs : mem x xs = true <-> In x xs.
Proof.
  unfold mem. rewrite existsb_exists. split.
  - intros (y & Hy & Heq). apply text_eqb_eq in Heq. now subst.
  - intro H. exists x. split; [exact H|apply text_eqb_refl].
Qed.

Lemma mem_false x xs : mem x xs = false <-> ~ In x xs.
Proof.
  rewrite <- mem_In. destruct (mem x xs); split; congruence.
Qed.

Lemma set_of_In x xs : In x (set_of xs) <-> In x xs.
Proof.
  induction xs as [|y xs IH]; cbn; [tauto|].
  destruct (mem y xs) eqn:E.
  - rewrite IH. apply mem_In in E. split; [tauto|].
    intros [<-|H]; auto.
  - cbn. rewrite IH. tauto.
Qed.

Lemma set_of_NoDup xs : NoDup (set_of xs).
Proof.
  induction xs as [|y xs IH]; cbn; [constructor|].
  destruct (mem y xs) eqn:E; [exact IH|].
  constructor; [|exact IH]. rewrite set_of_In. now apply mem_false.
Qed.

Lemma set_inter_In x a b : In x (set_inter a b) <-> In x a /\ In x b.
Proof. unfold set_inter. rewrite filter_In, mem_In. tauto. Qed.

Lemma set_inter_NoDup a b : NoDup a -> NoDup (set_inter a b).
Proof. apply NoDup_filter. Qed.

Lemma set_union_In x a b : In x (set_union a b) <-> In x a \/ In x b.
Proof.
  unfold set_union. rewrite in_app_iff, filter_In, negb_true_iff, mem_false.
  destruct (in_dec (list_eq_dec N.eq_dec) x a); tauto.
Qed.

Lemma set_union_NoDup a b : NoDup a -> NoDup b -> NoDup (set_union a b).
Proof.
  intros Ha Hb. unfold set_union. apply NoDup_app; [exact Ha| |].
  - now apply NoDup_filter.
  - intros x Hx Hy. apply filter_In in Hy.
    destruct Hy as [_ Hy]. apply negb_true_iff, mem_false in Hy. tauto.
Qed.

Lemma intersects_spec a b :
  intersects a b = true <-> exists x, In x a /\ In x b.
Proof.
  unfold intersects. rewrite existsb_exists.
  split; intros (x & Ha & Hb); exists x; split; auto; now apply mem_In.
Qed.

Lemma overlap_intersects a b :
  (0 <? List.length (set_inter (set_of a) (set_of b)))%nat = intersects a b.
Proof.
  apply eq_true_iff_eq. rewrite intersects_spec, Nat.ltb_lt. split.
  - intro H. destruct (set_inter (set_of a) (set_of b)) as [|x l] eqn:E;
      [cbn in H; lia|].
    assert (Hx : In x (set_inter (set_of a) (set_of b)))
      by (rewrite E; now left).
    apply set_inter_In in Hx. rewrite !set_of_In in Hx. eauto.
  - intros (x & Ha & Hb).
    assert (Hx : In x (set_inter (set_of a) (set_of b)))
      by (apply set_inter_In; now rewrite !set_of_In).
    destruct (set_inter (set_of a) (set_of b)); [destruct Hx|cbn; lia].
Qed.

(** The loop of [genre_accuracy] adds one to [total], and one to
    [matches] when the genres intersect, for every comparable row. *)
Lemma genre_accuracy_loop_counts results df m n details :
  Forall well_formed results ->
  exists details',
    genre_accuracy_loop lower results df m n details
    = inr ((m + List.length (filter (is_genre_match lower)
                               (comparable_rows results df)))%nat,
           (n + List.length (comparable_rows results df))%nat,
           details')
    /\ map gd_match details'
       = map gd_match details
         ++ map (is_genre_match lower) (comparable_rows results df).
Proof.
  intro Hwf. revert m n details.
  induction Hwf as [|r results Hr Hwf IH]; intros m n details.
  - cbn. rewrite !Nat.add_0_r, app_nil_r. eauto.
  - cbn [genre_accuracy_loop comparable_rows flat_map].
    fold (comparable_rows results df).
    destruct (success r) eqn:Hs; cbn [negb].
    + unfold metadata_of. destruct (metadata r) as [md|] eqn:Hmd;
        [|now destruct (Hr Hs)].
      cbn [bind]. destruct (find_row df (title r)) as [row|].
      * rewrite overlap_intersects.
        fold (label_genres lower row).
        change (intersects (map lower (genres md)) (label_genres lower row))
          with (is_genre_match lower (md, row)).
        cbn [List.app filter].
        destruct (IH (if is_genre_match lower (md, row) then S m else m)
                     (S n)
                     (details
                      ++ [mkGenreDetail (title r) (map lower (genres md))
                            (label_genres lower row)
                            (is_genre_match lower (md, row))]))
          as (details' & -> & Hd).
        exists details'. split.
        -- destruct (is_genre_match lower (md, row));
             cbn [List.length Nat.add]; rewrite ?Nat.add_succ_r;
             reflexivity.
        -- rewrite Hd, map_app. cbn. now rewrite <- app_assoc.
      * cbn [List.app]. apply IH.
    + cbn [List.app]. apply IH.
Qed.

(** C8, amended.  For results in which every successful one has its
    record, [genre_accuracy] returns; [total] is the number of comparable
    rows (successful results whose title is that of a dataset row; the
    others are left out), [matches] the number of those whose lower-cased
    extracted genres have an element in common with the lower-cased,
    trimmed parts of the row's label split on commas, and [accuracy] is
    [matches / total * 100], a percentage, or [0] without comparable
    rows. *)
Theorem genre_accuracy_counts results df :
  Forall well_formed results ->
  let rows := comparable_rows results df in
  exists ga,
    genre_accuracy lower results df = inr ga
    /\ total ga = List.length rows
    /\ matches ga = List.length (filter (is_genre_match lower) rows)
    /\ map gd_match (details ga) = map (is_genre_match lower) rows
    /\ accuracy ga
       = match rows with
         | [] => 0%Q
         | _ => (Qnat (matches ga) / Qnat (total ga) * 100)%Q
         end
    /\ (forall c,
          is_genre_match lower c = true
          <-> exists g,
                In g (map lower (genres (fst c)))
                /\ In g (label_genres lower (snd c))).
Proof.
  intros Hwf rows. unfold genre_accuracy.
  destruct (genre_accuracy_loop_counts results df 0 0 [] Hwf)
    as (details' & -> & Hd).
  cbn [bind Nat.add map List.app] in *. subst rows. revert Hd.
  destruct (comparable_rows results df) as [|c0 rows']; intro Hd.
  - cbn. eexists. split; [reflexivity|].
    cbn. repeat (split; [first [reflexivity|exact Hd]|]).
    intro c. apply intersects_spec.
  - cbn [List.length Nat.ltb Nat.leb].
    rewrite truediv_Qnat by lia. cbn [bind].
    eexists. split; [reflexivity|].
    cbn [total matches accuracy details].
    repeat (split; [first [reflexivity|exact Hd]|]).
    intro c. apply intersects_spec.
Qed.

(** [genre_accuracy] returns on well-formed results, with accuracy [0]
    when nothing was comparable. *)
Lemma genre_accuracy_returns results df :
  Forall well_formed results ->
  exists ga,
    genre_accuracy lower results df = inr ga
    /\ (total ga = 0%nat -> accuracy ga = 0%Q).
Proof.
  intro Hwf. unfold genre_accuracy.
  destruct (genre_accuracy_loop_counts results df 0 0 [] Hwf)
    as (details' & -> & _).
  cbn [bind Nat.add].
  destruct (comparable_rows results df) as [|c rows'].
  - cbn. eexists. split; reflexivity.
  - cbn [List.length Nat.ltb Nat.leb].
    rewrite truediv_Qnat by lia. cbn [bind].
    eexists. split; [reflexivity|]. cbn. discriminate.
Qed.

(** Whatever the results, the only exception the loop of
    [genre_accuracy] raises is the [AttributeError] of a successful result
    without record. *)
Lemma genre_accuracy_loop_error results df m n details e :
  genre_accuracy_loop lower results df m n details = inl e ->
  is_attribute_error e.
Proof.
  revert m n details.
  induction results as [|r results IH]; intros m n details H.
  - discriminate H.
  - cbn [genre_accuracy_loop] in H.
    destruct (negb (success r)); [now apply IH in H|].
    unfold metadata_of in H. destruct (metadata r) as [md|].
    + cbn [bind] in H. destruct (find_row df (title r));
        now apply IH in H.
    + cbn in H. inversion H. exact I.
Qed.

Lemma genre_accuracy_error results df e :
  genre_accuracy lower results df = inl e -> is_attribute_error e.
Proof.
  unfold genre_accuracy.
  destruct (genre_accuracy_loop lower results df 0 0 [])
    as [e'|[[m n] details']] eqn:E.
  - cbn. intro H. inversion H; subst.
    now apply genre_accuracy_loop_error in E.
  - cbn [bind]. destruct n as [|n].
    + cbn. discriminate.
    + cbn [Nat.ltb Nat.leb]. rewrite truediv_Qnat by lia. cbn. discriminate.
Qed.

(** The Jaccard score is defined for all pairs of lists: the union is not
    empty when the division is made. *)
Lemma overlap_score_jaccard a b :
  exists q, overlap_score lower a b = inr q /\ is_jaccard lower a b q.
Proof.
  unfold overlap_score, is_jaccard.
  set (ext := set_of (map lower a)). set (exp := set_of (map lower b)).
  assert (HI : forall x, In x (set_inter ext exp)
                         <-> In x (map lower a) /\ In x (map lower b))
    by (intro x; unfold ext, exp; now rewrite set_inter_In, !set_of_In).
  assert (HU : forall x, In x (set_union ext exp)
                         <-> In x (map lower a) \/ In x (map lower b))
    by (intro x; unfold ext, exp; now rewrite set_union_In, !set_of_In).
  assert (HnI : NoDup (set_inter ext exp))
    by (apply set_inter_NoDup, set_of_NoDup).
  assert (HnU : NoDup (set_union ext exp))
    by (apply set_union_NoDup; apply set_of_NoDup).
  assert (Hq : exists q,
             match ext, exp with
             | [], [] => inr 1%Q
             | _, _ =>
                 truediv (Qnat (List.length (set_inter ext exp)))
                         (Qnat (List.length (set_union ext exp)))
             end = inr q
             /\ q = match set_union ext exp with
                    | [] => 1%Q
                    | _ => (Qnat (List.length (set_inter ext exp))
                            / Qnat (List.length (set_union ext exp)))%Q
                    end).
  { destruct ext as [|x ext'].
    - destruct exp as [|y exp'].
      + eexists. split; reflexivity.
      + rewrite truediv_Qnat by (cbn; lia). eexists. split; reflexivity.
    - rewrite truediv_Qnat by (cbn; lia). eexists. split; reflexivity. }
  destruct Hq as (q & Hq & Heq). exists q. split; [exact Hq|].
  exists (set_inter ext exp), (set_union ext exp). auto.
Qed.

Lemma average_percent_mean scores :
  average scores = inr (percent_mean scores).
Proof.
  destruct scores as [|x scores]; [reflexivity|].
  unfold average, percent_mean. now rewrite truediv_Qnat by (cbn; lia).
Qed.

(** The loop of [manual_accuracy] appends, for every comparable
    annotation in order, one comparison and its five scores. *)
Lemma manual_accuracy_loop_scores results annotations fs cd :
  Forall well_formed results ->
  exists cs,
    manual_accuracy_loop lower results annotations fs cd
    = inr (mkFieldScores
             (fs_genres fs ++ map (fun c => s_genres (c_scores c)) cs)
             (fs_themes fs ++ map (fun c => s_themes (c_scores c)) cs)
             (fs_mood fs ++ map (fun c => s_mood (c_scores c)) cs)
             (fs_target_audience fs
              ++ map (fun c => s_target_audience (c_scores c)) cs)
             (fs_content_warnings fs
              ++ map (fun c => s_content_warnings (c_scores c)) cs),
           cd ++ cs)
    /\ map (fun c => (c_title c, c_extracted c, c_expected c)) cs
       = comparable_annotations results annotations
    /\ Forall (scored lower) cs.
Proof.
  intro Hwf. revert fs cd.
  induction annotations as [|a annotations IH]; intros fs cd.
  - exists []. cbn. rewrite !app_nil_r. destruct fs. auto.
  - cbn [manual_accuracy_loop comparable_annotations flat_map].
    fold (comparable_annotations results annotations).
    destruct (find (fun r : Result => text_eqb (title r) (ann_title a))
                results) as [r|] eqn:Hfind; [|apply IH].
    destruct (success r) eqn:Hs; cbn [negb]; [|apply IH].
    apply find_some in Hfind. destruct Hfind as [Hin _].
    rewrite Forall_forall in Hwf. specialize (Hwf r Hin Hs).
    unfold metadata_of. destruct (metadata r) as [md|]; [|congruence].
    cbn [bind].
    destruct (overlap_score_jaccard (genres md) (genres (expected a)))
      as (g & -> & Hg).
    destruct (overlap_score_jaccard (themes md) (themes (expected a)))
      as (th & -> & Hth).
    destruct (overlap_score_jaccard (content_warnings md)
                (content_warnings (expected a))) as (w & -> & Hw).
    cbn [bind].
    match goal with
    | |- context [manual_accuracy_loop _ _ _ ?fs' (cd ++ [?c])] =>
        destruct (IH fs' (cd ++ [c])) as (cs & -> & Hmap & Hsc);
        exists (c :: cs)
    end.
    cbn [fs_genres fs_themes fs_mood fs_target_audience fs_content_warnings
         map c_scores s_genres s_themes s_mood s_target_audience
         s_content_warnings c_title c_extracted c_expected List.app].
    rewrite <- !app_assoc. cbn [List.app]. split; [reflexivity|].
    split; [now rewrite Hmap|].
    constructor; [|exact Hsc]. repeat split; assumption.
Qed.

Lemma manual_accuracy_loop_error results annotations fs cd e :
  manual_accuracy_loop lower results annotations fs cd = inl e ->
  is_attribute_error e.
Proof.
  revert fs cd.
  induction annotations as [|a annotations IH]; intros fs cd H.
  - discriminate H.
  - cbn [manual_accuracy_loop] in H.
    destruct (find _ results) as [r|]; [|now apply IH in H].
    destruct (negb (success r)); [now apply IH in H|].
    unfold metadata_of in H. destruct (metadata r) as [md|].
    + cbn [bind] in H.
      destruct (overlap_score_jaccard (genres md) (genres (expected a)))
        as (g & Hg & _).
      destruct (overlap_score_jaccard (themes md) (themes (expected a)))
        as (th & Hth & _).
      destruct (overlap_score_jaccard (content_warnings md)
                  (content_warnings (expected a))) as (w & Hw & _).
      rewrite Hg, Hth, Hw in H. cbn [bind] in H. now apply IH in H.
    + cbn in H. inversion H. exact I.
Qed.

(** After the loop the averages and the overall score are computed
    without any exception. *)
Lemma manual_accuracy_after_loop results annotations fs cd :
  manual_accuracy_loop lower results annotations
    (mkFieldScores [] [] [] [] []) [] = inr (fs, cd) ->
  manual_accuracy lower results annotations
  = inr (mkManualAccuracy
           (mkAverageScores
              (percent_mean (fs_genres fs)) (percent_mean (fs_themes fs))
              (percent_mean (fs_mood fs))
              (percent_mean (fs_target_audience fs))
              (percent_mean (fs_content_warnings fs))
              (Qsum [percent_mean (fs_genres fs);
                     percent_mean (fs_themes fs);
                     percent_mean (fs_mood fs);
                     percent_mean (fs_target_audience fs);
                     percent_mean (fs_content_warnings fs)] / Qnat 5))
           cd).
Proof.
  intro H. unfold manual_accuracy. rewrite H. cbn [bind].
  rewrite !average_percent_mean. cbn [bind].
  rewrite truediv_Qnat by lia. reflexivity.
Qed.

Lemma manual_accuracy_error results annotations e :
  manual_accuracy lower results annotations = inl e ->
  is_attribute_error e.
Proof.
  destruct (manual_accuracy_loop lower results annotations
              (mkFieldScores [] [] [] [] []) []) as [e'|[fs cd]] eqn:E.
  - unfold manual_accuracy. rewrite E. cbn. intro H. inversion H; subst.
    now apply manual_accuracy_loop_error in E.
  - rewrite (manual_accuracy_after_loop _ _ _ _ E). discriminate.
Qed.

(** C7, amended.  For results in which every successful one has its
    record, [manual_accuracy] returns.  Its comparisons are the comparable
    annotations, in order: those for which the first result with the
    annotation's title exists and is successful.  Each comparison carries
    the Jaccard similarity of the lower-cased sets for genres, themes and
    content warnings ([1] when both sets are empty) and [1] or [0] for the
    equality of the lower-cased mood and target audience.  Each field
    average is the mean of that field's scores over the comparisons
    multiplied by 100 ([0] without comparisons), and the overall score is
    the sum of the five field averages divided by 5. *)
Theorem manual_accuracy_scores results annotations :
  Forall well_formed results ->
  exists ma,
    manual_accuracy lower results annotations = inr ma
    /\ let cs := comparison_details ma in
       let avg := average_scores ma in
       map (fun c => (c_title c, c_extracted c, c_expected c)) cs
       = comparable_annotations results annotations
       /\ Forall (scored lower) cs
       /\ avg_genres avg
          = percent_mean (map (fun c => s_genres (c_scores c)) cs)
       /\ avg_themes avg
          = percent_mean (map (fun c => s_themes (c_scores c)) cs)
       /\ avg_mood avg
          = percent_mean (map (fun c => s_mood (c_scores c)) cs)
       /\ avg_target_audience avg
          = percent_mean (map (fun c => s_target_audience (c_scores c)) cs)
       /\ avg_content_warnings avg
          = percent_mean (map (fun c => s_content_warnings (c_scores c)) cs)
       /\ (avg_overall avg
           == (avg_genres avg + avg_themes avg + avg_mood avg
               + avg_target_audience avg + avg_content_warnings avg) / 5)%Q.
Proof.
  intro Hwf.
  destruct (manual_accuracy_loop_scores results annotations
              (mkFieldScores [] [] [] [] []) [] Hwf)
    as (cs & Hloop & Hmap & Hsc).
  cbn [fs_genres fs_themes fs_mood fs_target_audience fs_content_warnings
       List.app] in Hloop.
  eexists. split; [exact (manual_accuracy_after_loop _ _ _ _ Hloop)|].
  cbn [comparison_details average_scores avg_genres avg_themes avg_mood
       avg_target_audience avg_content_warnings avg_overall fs_genres
       fs_themes fs_mood fs_target_audience fs_content_warnings].
  repeat (split; [first [reflexivity|assumption]|]).
  unfold Qsum. cbn [fold_left].
  change (Qnat 5) with 5%Q. field.
Qed.

(** C10: on an empty list of results the three rates are [0]; for every
    list they return a value; [genre_accuracy] and [manual_accuracy]
    return a value on results whose successful entries have their record,
    [genre_accuracy] with accuracy [0] when no row was comparable; and on
    no input at all does any of the five raise [ZeroDivisionError]. *)
Theorem metrics_never_divide_by_zero :
  schema_compliance_rate [] = inr 0%Q
  /\ overall_success_rate [] = inr 0%Q
  /\ retry_rate [] = inr 0%Q
  /\ (forall results,
        (exists x, schema_compliance_rate results = inr x)
        /\ (exists x, overall_success_rate results = inr x)
        /\ (exists x, retry_rate results = inr x))
  /\ (forall results df,
        Forall well_formed results ->
        exists ga,
          genre_accuracy lower results df = inr ga
          /\ (total ga = 0%nat -> accuracy ga = 0%Q))
  /\ (forall results annotations,
        Forall well_formed results ->
        exists ma, manual_accuracy lower results annotations = inr ma)
  /\ (forall results df,
        genre_accuracy lower results df <> inl ZeroDivisionError)
  /\ (forall results annotations,
        manual_accuracy lower results annotations <> inl ZeroDivisionError).
Proof.
  repeat (split; [reflexivity|]). split; [|split; [|split; [|split]]].
  - intros [|r results].
    + repeat split; eexists; reflexivity.
    + unfold schema_compliance_rate, overall_success_rate, retry_rate.
      rewrite !rate_total. repeat split; eexists; reflexivity.
  - apply genre_accuracy_returns.
  - intros results annotations Hwf.
    destruct (manual_accuracy_loop_scores results annotations
                (mkFieldScores [] [] [] [] []) [] Hwf) as (cs & Hloop & _).
    eexists. exact (manual_accuracy_after_loop _ _ _ _ Hloop).
  - intros results df H. now apply genre_accuracy_error in H.
  - intros results annotations H. now apply manual_accuracy_error in H.
Qed.

End ScorerFacts.

Lemma example_results_well_formed :
  Forall well_formed [drama_result; failed_result].
Proof.
  repeat constructor; intro H; cbn in *; discriminate.
Defined.

(** C8, as stated, fails twice: the accuracy is a percentage, not the
    quotient [matches / total], and the parts of the label are trimmed
    before they are compared, so that the label ["Comedy, Drama"] matches
    the genre ["Drama"] although [" drama"], the second part of the label
    split on commas, is not ["drama"]. *)
Lemma genre_accuracy_is_percentage_of_trimmed_matches :
  ~ (forall lower results df ga,
        genre_accuracy lower results df = inr ga ->
        (accuracy ga == Qnat (matches ga) / Qnat (total ga))%Q)
  /\ ~ (forall lower results df ga,
          genre_accuracy lower results df = inr ga ->
          matches ga
          = List.length
              (filter
                 (fun c : ContentMetadata * Row =>
                    intersects (map lower (genres (fst c)))
                      (map lower (split_char 44 (Type_ (snd c)))))
                 (comparable_rows results df))).
Proof.
  split; intro H.
  - specialize (H ascii_lower [drama_result] [drama_row] _ eq_refl).
    vm_compute in H. discriminate H.
  - specialize (H ascii_lower [drama_result] [drama_row] _ eq_refl).
    vm_compute in H. discriminate H.
Qed.

Lemma genre_accuracy_counts_witness :
  exists ga,
    genre_accuracy ascii_lower [drama_result; failed_result] [drama_row]
    = inr ga
    /\ total ga = 1%nat /\ matches ga = 1%nat.
Proof.
  destruct (genre_accuracy_counts ascii_lower
              [drama_result; failed_result] [drama_row]
              example_results_well_formed)
    as (ga & Hga & Ht & Hm & _).
  exists ga. split; [exact Hga|]. split; [exact Ht|exact Hm].
Defined.

(** C7, as stated, fails twice: a field average is a percentage, not the
    mean of the scores, and an annotation whose title has a successful
    result is still left out when an earlier result with that title
    failed. *)
Lemma manual_accuracy_is_percentage_of_first_matches :
  ~ (forall lower results annotations ma,
        manual_accuracy lower results annotations = inr ma ->
        let scores :=
          map (fun c => s_genres (c_scores c)) (comparison_details ma) in
        (avg_genres (average_scores ma)
         == Qsum scores / Qnat (List.length scores))%Q)
  /\ ~ (forall lower results annotations ma a,
          manual_accuracy lower results annotations = inr ma ->
          In a annotations ->
          (exists r : Result,
              In r results /\ title r = ann_title a /\ success r = true) ->
          In (ann_title a) (map c_title (comparison_details ma))).
Proof.
  split; intro H.
  - specialize (H ascii_lower [drama_result] [drama_annotation] _ eq_refl).
    vm_compute in H. discriminate H.
  - refine (H ascii_lower [failed_result_A; drama_result] [drama_annotation]
              _ drama_annotation eq_refl (or_introl eq_refl) _).
    exists drama_result. repeat split. right. left. reflexivity.
Qed.

Lemma manual_accuracy_scores_witness :
  exists ma,
    manual_accuracy ascii_lower [drama_result; failed_result]
      [drama_annotation] = inr ma
    /\ avg_genres (average_scores ma) = (1 / Qnat 1 * 100)%Q.
Proof.
  destruct (manual_accuracy_scores ascii_lower
              [drama_result; failed_result] [drama_annotation]
              example_results_well_formed)
    as (ma & Hma & _).
  exists ma. split; [exact Hma|].
  vm_compute in Hma. inversion Hma. reflexivity.
Defined.

Lemma metrics_never_divide_by_zero_witness :
  (exists ga,
      genre_accuracy ascii_lower [drama_result; failed_result] [] = inr ga
      /\ (total ga = 0%nat -> accuracy ga = 0%Q))
  /\ exists ma,
      manual_accuracy ascii_lower [drama_result; failed_result] [] = inr ma.
Proof.
  pose proof (metrics_never_divide_by_zero ascii_lower)
    as (_ & _ & _ & _ & Hg & Hm & _).
  split.
  - exact (Hg [drama_result; failed_result] [] example_results_well_formed).
  - exact (Hm [drama_result; failed_result] [] example_results_well_formed).
Defined.

(** ** The decoder: enough fuel, and more fuel changes nothing *)

Section DecoderTermination.

Lemma skip_ws_length s : (List.length (skip_ws s) <= List.length s)%nat.
Proof.
  induction s as [|c s IH]; cbn; [lia|]. destruct (is_ws c); cbn; lia.
Qed.

Lemma strip_prefix_length p s r :
  strip_prefix p s = Some r ->
  List.length s = (List.length p + List.length r)%nat.
Proof.
  revert s. induction p as [|c p IH]; intros s H; cbn in *.
  - now inversion H.
  - destruct s as [|d s]; [discriminate|].
    destruct (c =? d); [|discriminate]. cbn. now rewrite (IH _ H).
Qed.

Lemma span_digits_app s ds r : span_digits s = (ds, r) -> s = ds ++ r.
Proof.
  revert ds r. induction s as [|c s IH]; intros ds r H; cbn in H.
  - now inversion H.
  - destruct (is_digit c).
    + destruct (span_digits s) as [ds' r']. inversion H; subst.
      cbn. now rewrite (IH _ _ eq_refl).
    + now inversion H.
Qed.


Lemma scanstring_progress n : forall s begin acc,
  (List.length s <= n)%nat ->
  match scanstring begin s acc with
  | Scanned _ rest => (List.length rest < List.length s)%nat
  | Failed _ _ => True
  | Raised _ => True
  | Exhausted => False
  end.
Proof.
  induction n as [|n IH]; intros s begin acc Hn.
  - destruct s; [exact I|cbn in Hn; lia].
  - destruct s as [|c s1]; [exact I|]. cbn [scanstring].
    assert (Hrec : forall s' acc',
               (List.length s' <= List.length s1)%nat ->
               match scanstring begin s' acc' with
               | Scanned _ rest =>
                   (List.length rest < List.length (c :: s1))%nat
               | Failed _ _ => True
               | Raised _ => True
               | Exhausted => False
               end).
    { intros s' acc' Hs'. cbn in Hn.
      specialize (IH s' begin acc' ltac:(lia)).
      destruct (scanstring begin s' acc'); auto. cbn. lia. }
    destruct (c =? 34); [cbn; lia|].
    destruct (c =? 92).
    + destruct s1 as [|e s2]; [exact I|].
      destruct (e =? 117).
      * destruct s2 as [|h1 [|h2 [|h3 [|h4 [|x s3']]]]]; try exact I.
        destruct (hex4val h1 h2 h3 h4) as [c1|]; [|exact I].
        destruct s3' as [|u2 [|g1 [|g2 [|g3 [|g4 [|y s4']]]]]];
          try (apply Hrec; cbn; lia).
        destruct (is_high_surrogate c1 && (x =? 92) && (u2 =? 117));
          [|apply Hrec; cbn; lia].
        destruct (hex4val g1 g2 g3 g4) as [c2|]; [|exact I].
        destruct (is_low_surrogate c2); apply Hrec; cbn; lia.
      * destruct (unescape e); [|exact I]. apply Hrec. cbn. lia.
    + destruct (c <=? 31); [exact I|]. apply Hrec. lia.
Qed.

Lemma scan_string_value_progress s s1 c :
  s = c :: s1 -> progress s (scan_string_value s s1).
Proof.
  intros ->. unfold scan_string_value.
  pose proof (scanstring_progress (List.length s1) s1 (List.length (c :: s1))
                [] (le_n _)) as H.
  destruct (scanstring _ s1 []); cbn in *; auto; lia.
Qed.

Lemma match_number_progress s : progress s (match_number s).
Proof.
  unfold match_number. destruct (match_int s) as [[[neg ds] r1]|] eqn:Hi;
    [|exact I].
  assert (H1 : (List.length r1 < List.length s)%nat).
  { unfold match_int in Hi.
    destruct s as [|c s']; [discriminate|].
    destruct (c =? 45).
    - destruct s' as [|c' s2]; [discriminate|].
      destruct (c' =? 48); [inversion Hi; subst; cbn; lia|].
      destruct (is_digit c'); [|discriminate].
      destruct (span_digits s2) as [ds' r'] eqn:Hs.
      inversion Hi; subst. apply span_digits_app in Hs. subst s2.
      cbn. rewrite length_app. lia.
    - destruct (c =? 48); [inversion Hi; subst; cbn; lia|].
      destruct (is_digit c); [|discriminate].
      destruct (span_digits s') as [ds' r'] eqn:Hs.
      inversion Hi; subst. apply span_digits_app in Hs. subst s'.
      cbn. rewrite length_app. lia. }
  assert (H2 : (List.length (snd (match_frac r1)) <= List.length r1)%nat).
  { unfold match_frac. destruct r1 as [|c [|d s']]; cbn; try lia.
    destruct ((c =? 46) && is_digit d); [|cbn; lia].
    destruct (span_digits s') as [ds' r'] eqn:Hs.
    apply span_digits_app in Hs. subst s'. cbn. rewrite length_app. lia. }
  destruct (match_frac r1) as [frac r2]. cbn [snd] in H2.
  assert (H3 : (List.length (snd (match_exp r2)) <= List.length r2)%nat).
  { unfold match_exp. destruct r2 as [|c s1]; cbn; try lia.
    destruct ((c =? 101) || (c =? 69)); [|cbn; lia].
    set (p := match s1 with
              | d :: s' => if (d =? 45) || (d =? 43) then ([d], s') else ([], s1)
              | [] => ([], s1)
              end).
    assert (Hp : (List.length (snd p) <= List.length s1)%nat).
    { unfold p. destruct s1 as [|d s']; cbn; [lia|].
      destruct ((d =? 45) || (d =? 43)); cbn; lia. }
    destruct p as [sign s2]. cbn [snd] in Hp.
    destruct (span_digits s2) as [ds' r'] eqn:Hs.
    apply span_digits_app in Hs. subst s2.
    destruct ds'; cbn; [lia|]. rewrite length_app in Hp. cbn in Hp. lia. }
  destruct (match_exp r2) as [ex r3]. cbn [snd] in H3.
  destruct frac, ex; [destruct (_ <? _)%nat; [exact I|]|..]; cbn; lia.
Qed.



Lemma progress_weaken {A : Type} (s s' : text) (r : scan A) :
  progress s' r -> (List.length s' <= List.length s)%nat -> progress s r.
Proof. destruct r; cbn; auto; lia. Qed.

Lemma scan_body_good n obj arr depth :
  loop_good n obj -> loop_good n arr ->
  scan_good (S n) (scan_once_body obj arr depth).
Proof.
  intros Hobj Harr s Hs. unfold scan_once_body.
  destruct s as [|c s1]; [exact I|]. cbn in Hs.
  destruct (c =? 34); [now apply (scan_string_value_progress _ _ c)|].
  pose proof (skip_ws_length s1) as Hws.
  destruct (c =? 123).
  { destruct depth as [|depth']; [exact I|].
    destruct (skip_ws s1) as [|d r].
    - apply (progress_weaken _ []); [apply Hobj|]; cbn; lia.
    - cbn in Hws. destruct (d =? 125); [cbn; lia|].
      apply (progress_weaken _ (d :: r)); [apply Hobj|]; cbn; lia. }
  destruct (c =? 91).
  { destruct depth as [|depth']; [exact I|].
    destruct (skip_ws s1) as [|d r].
    - apply (progress_weaken _ []); [apply Harr|]; cbn; lia.
    - cbn in Hws. destruct (d =? 93); [cbn; lia|].
      apply (progress_weaken _ (d :: r)); [apply Harr|]; cbn; lia. }
  repeat match goal with
         | |- context [strip_prefix ?p ?s] =>
             let E := fresh "E" in
             destruct (strip_prefix p s) eqn:E;
             [apply strip_prefix_length in E; cbn in E |- *; lia|]
         end.
  apply match_number_progress.
Qed.

Lemma object_body_good n scan obj :
  scan_good n scan -> loop_good n obj ->
  loop_good (S n) (object_loop_body scan obj).
Proof.
  intros Hscan Hobj s acc Hs. unfold object_loop_body.
  destruct s as [|c s1]; [exact I|]. cbn in Hs.
  destruct (c =? 34); [|exact I].
  pose proof (scanstring_progress (List.length s1) s1
                (List.length (c :: s1)) [] (le_n _)) as Hk.
  destruct (scanstring _ s1 []) as [key r1| | |]; auto.
  pose proof (skip_ws_length r1) as Hw1.
  destruct (skip_ws r1) as [|d r2]; [exact I|]. cbn in Hw1.
  destruct (d =? 58); [|exact I].
  pose proof (skip_ws_length r2) as Hw2.
  pose proof (Hscan (skip_ws r2) ltac:(lia)) as Hv.
  destruct (scan (skip_ws r2)) as [v r3| | |]; auto. cbn in Hv.
  pose proof (skip_ws_length r3) as Hw3.
  destruct (skip_ws r3) as [|e r4]; [exact I|]. cbn in Hw3.
  destruct (e =? 125); [cbn; lia|].
  destruct (e =? 44); [|exact I].
  pose proof (skip_ws_length r4) as Hw4.
  apply (progress_weaken _ (skip_ws r4)); [apply Hobj|]; cbn; lia.
Qed.

Lemma array_body_good n scan arr :
  scan_good (S n) scan -> loop_good n arr ->
  loop_good (S n) (array_loop_body scan arr).
Proof.
  intros Hscan Harr s acc Hs. unfold array_loop_body.
  pose proof (Hscan s Hs) as Hv.
  destruct (scan s) as [v r1| | |]; auto. cbn in Hv.
  pose proof (skip_ws_length r1) as Hw1.
  destruct (skip_ws r1) as [|e r2]; [exact I|]. cbn in Hw1.
  destruct (e =? 93); [cbn; lia|].
  destruct (e =? 44); [|exact I].
  pose proof (skip_ws_length r2) as Hw2.
  apply (progress_weaken _ (skip_ws r2)); [apply Harr|]; cbn; lia.
Qed.

(** With fuel [2 * n] the scanner does not run out of fuel on a suffix
    shorter than [n]. *)
Lemma scanner_good fuel : forall n depth,
  ((2 * n <= fuel)%nat -> scan_good n (scan_once fuel depth))
  /\ ((2 * n + 1 <= fuel)%nat ->
      loop_good n (object_loop fuel depth)
      /\ loop_good n (array_loop fuel depth)).
Proof.
  induction fuel as [|fuel IH]; intros [|n] depth;
    try (split; [intros _ s Hs|intros _; split; intros s acc Hs];
         cbn in Hs; lia).
  - split; intro H; lia.
  - split; intro H.
    + destruct (proj2 (IH n (pred depth)) ltac:(lia)) as [Ho Ha].
      cbn [scan_once]. now apply scan_body_good.
    + destruct (proj2 (IH n depth) ltac:(lia)) as [Ho Ha]. split.
      * cbn [object_loop]. apply object_body_good; auto.
        apply (proj1 (IH n depth)). lia.
      * cbn [array_loop]. apply array_body_good; auto.
        apply (proj1 (IH (S n) depth)). lia.
Qed.

Lemma scan_once_enough_fuel depth s :
  progress s (scan_once (enough_fuel s) depth s).
Proof.
  apply (proj1 (scanner_good (enough_fuel s) (S (List.length s)) depth)).
  - unfold enough_fuel. lia.
  - lia.
Qed.



(** [json_loads] never takes the branch for a scan out of fuel. *)
Lemma json_loads_fuel depth s :
  scan_once (enough_fuel (skip_ws s)) depth (skip_ws s) <> Exhausted.
Proof.
  intro H. pose proof (scan_once_enough_fuel depth (skip_ws s)) as Hp.
  now rewrite H in Hp.
Qed.

Lemma scan_body_below obj1 obj2 arr1 arr2 depth :
  below_loop obj1 obj2 -> below_loop arr1 arr2 ->
  below (scan_once_body obj1 arr1 depth) (scan_once_body obj2 arr2 depth).
Proof.
  intros Hobj Harr s. unfold scan_once_body.
  destruct s as [|c s1]; [reflexivity|].
  destruct (c =? 34); [reflexivity|].
  destruct (c =? 123).
  { destruct depth as [|depth']; [reflexivity|].
    destruct (skip_ws s1) as [|d r]; [apply Hobj|].
    destruct (d =? 125); [reflexivity|apply Hobj]. }
  destruct (c =? 91).
  { destruct depth as [|depth']; [reflexivity|].
    destruct (skip_ws s1) as [|d r]; [apply Harr|].
    destruct (d =? 93); [reflexivity|apply Harr]. }
  reflexivity.
Qed.

Lemma object_body_below scan1 scan2 obj1 obj2 :
  below scan1 scan2 -> below_loop obj1 obj2 ->
  below_loop (object_loop_body scan1 obj1) (object_loop_body scan2 obj2).
Proof.
  intros Hscan Hobj s acc. unfold object_loop_body.
  destruct s as [|c s1]; [reflexivity|].
  destruct (c =? 34); [|reflexivity].
  destruct (scanstring _ s1 []) as [key r1| | |]; try reflexivity.
  destruct (skip_ws r1) as [|d r2]; [reflexivity|].
  destruct (d =? 58); [|reflexivity].
  specialize (Hscan (skip_ws r2)).
  destruct (scan1 (skip_ws r2)) as [v r3| | |] eqn:E.
  - rewrite Hscan by discriminate.
    destruct (skip_ws r3) as [|e r4]; [reflexivity|].
    destruct (e =? 125); [reflexivity|].
    destruct (e =? 44); [apply Hobj|reflexivity].
  - now rewrite Hscan by discriminate.
  - now rewrite Hscan by discriminate.
  - congruence.
Qed.

Lemma array_body_below scan1 scan2 arr1 arr2 :
  below scan1 scan2 -> below_loop arr1 arr2 ->
  below_loop (array_loop_body scan1 arr1) (array_loop_body scan2 arr2).
Proof.
  intros Hscan Harr s acc. unfold array_loop_body.
  specialize (Hscan s).
  destruct (scan1 s) as [v r1| | |] eqn:E.
  - rewrite Hscan by discriminate.
    destruct (skip_ws r1) as [|e r2]; [reflexivity|].
    destruct (e =? 93); [reflexivity|].
    destruct (e =? 44); [apply Harr|reflexivity].
  - now rewrite Hscan by discriminate.
  - now rewrite Hscan by discriminate.
  - congruence.
Qed.

Lemma scanner_below_succ fuel : forall depth,
  below (scan_once fuel depth) (scan_once (S fuel) depth)
  /\ below_loop (object_loop fuel depth) (object_loop (S fuel) depth)
  /\ below_loop (array_loop fuel depth) (array_loop (S fuel) depth).
Proof.
  induction fuel as [|fuel IH]; intro depth.
  - repeat split; intros s; cbn; congruence.
  - destruct (IH depth) as (IHs & IHo & IHa).
    destruct (IH (pred depth)) as (_ & IHo' & IHa').
    repeat split.
    + apply scan_body_below; assumption.
    + apply object_body_below; assumption.
    + apply array_body_below; assumption.
Qed.

Lemma scan_once_more_fuel fuel fuel' depth s :
  (fuel <= fuel')%nat ->
  scan_once fuel depth s <> Exhausted ->
  scan_once fuel' depth s = scan_once fuel depth s.
Proof.
  induction 1 as [|fuel' Hle IH]; [reflexivity|].
  intro H. rewrite <- (IH H).
  apply (proj1 (scanner_below_succ fuel' depth)). rewrite (IH H). exact H.
Qed.

Lemma array_loop_more_fuel fuel fuel' depth s acc :
  (fuel <= fuel')%nat ->
  array_loop fuel depth s acc <> Exhausted ->
  array_loop fuel' depth s acc = array_loop fuel depth s acc.
Proof.
  induction 1 as [|fuel' Hle IH]; [reflexivity|].
  intro H. rewrite <- (IH H).
  apply (proj2 (proj2 (scanner_below_succ fuel' depth))). rewrite (IH H).
  exact H.
Qed.

Lemma object_loop_more_fuel fuel fuel' depth s acc :
  (fuel <= fuel')%nat ->
  object_loop fuel depth s acc <> Exhausted ->
  object_loop fuel' depth s acc = object_loop fuel depth s acc.
Proof.
  induction 1 as [|fuel' Hle IH]; [reflexivity|].
  intro H. rewrite <- (IH H).
  apply (proj1 (proj2 (scanner_below_succ fuel' depth))). rewrite (IH H).
  exact H.
Qed.

End DecoderTermination.

(** ** Reading back numbers *)

Section Numbers.

Lemma text_of_uint_digits u : forallb is_digit (text_of_uint u) = true.
Proof. induction u; cbn; auto. Qed.

Lemma uint_of_text_of_uint u : uint_of_digits (text_of_uint u) = u.
Proof. induction u; cbn; congruence. Qed.

Lemma span_digits_all ds rest :
  forallb is_digit ds = true ->
  match rest with [] => True | c :: _ => is_digit c = false end ->
  span_digits (ds ++ rest) = (ds, rest).
Proof.
  intros Hds Hrest. induction ds as [|d ds IH]; cbn in *.
  - destruct rest as [|c rest]; [reflexivity|]. cbn. now rewrite Hrest.
  - apply andb_true_iff in Hds. destruct Hds as [-> Hds].
    now rewrite (IH Hds).
Qed.

(** The numeral of a positive number starts with a digit other than 0. *)
Lemma pos_to_uint_head p :
  exists c ds,
    text_of_uint (Pos.to_uint p) = c :: ds
    /\ is_digit c = true /\ (c =? 48) = false.
Proof.
  pose proof (DecimalPos.Unsigned.to_of (Pos.to_uint p)) as Hn.
  rewrite DecimalPos.Unsigned.of_to in Hn. cbn [N.to_uint] in Hn.
  assert (Hz : Decimal.nzhead (Pos.to_uint p) <> Decimal.Nil).
  { intro H. apply DecimalFacts.unorm_0 in H. rewrite <- Hn in H.
    now apply DecimalPos.Unsigned.to_uint_nonzero in H. }
  rewrite (DecimalFacts.unorm_nzhead _ Hz) in Hn.
  pose proof (DecimalFacts.nzhead_nonzero (Pos.to_uint p)) as Hd.
  rewrite <- Hn in Hd.
  destruct (Pos.to_uint p) as [|u|u|u|u|u|u|u|u|u|u]; cbn;
    try (eexists _, _; repeat split; reflexivity).
  - now destruct Hz.
  - now destruct (Hd u).
Qed.

Lemma delim_not_number rest :
  delim rest = true ->
  match_frac rest = ([], rest) /\ match_exp rest = ([], rest)
  /\ match rest with [] => True | c :: _ => is_digit c = false end.
Proof.
  destruct rest as [|c rest]; [now repeat split|]. cbn [delim].
  rewrite !orb_true_iff, !N.eqb_eq. intros [[->| ->]| ->];
    (split; [destruct rest; reflexivity|split; reflexivity]).
Qed.

Lemma match_number_str_int z rest :
  delim rest = true ->
  (int_digits z <= int_max_str_digits)%nat ->
  match_number (str_int z ++ rest) = Scanned (JInt z) rest.
Proof.
  intros Hd Hlen. destruct (delim_not_number rest Hd) as (Hf & He & Hnd).
  unfold int_digits in Hlen. unfold match_number, str_int in *.
  pose proof (DecimalZ.of_to z) as Hz.
  destruct z as [|p|p]; cbn [Z.to_int Z.abs] in *.
  - assert (Hm : match_int (48 :: rest) = Some (false, [48], rest))
      by reflexivity.
    cbn [text_of_uint List.app]. rewrite Hm, Hf, He. reflexivity.
  - destruct (pos_to_uint_head p) as (c & ds & Hp & Hc & Hc0).
    pose proof (text_of_uint_digits (Pos.to_uint p)) as Hall.
    pose proof (uint_of_text_of_uint (Pos.to_uint p)) as Hu.
    rewrite Hp in *. cbn [forallb] in Hall.
    apply andb_true_iff in Hall. destruct Hall as [_ Hall].
    assert (Hm : match_int ((c :: ds) ++ rest) = Some (false, c :: ds, rest)).
    { unfold match_int. cbn [List.app].
      assert (Hneg : (c =? 45) = false).
      { unfold is_digit in Hc. apply andb_true_iff in Hc.
        destruct Hc as [Hc _]. apply N.leb_le in Hc. apply N.eqb_neq. lia. }
      rewrite Hneg, Hc0, Hc. now rewrite (span_digits_all ds rest Hall Hnd). }
    rewrite Hm, Hf, He, (proj2 (Nat.ltb_ge _ _) Hlen), Hu, Hz. reflexivity.
  - destruct (pos_to_uint_head p) as (c & ds & Hp & Hc & Hc0).
    pose proof (text_of_uint_digits (Pos.to_uint p)) as Hall.
    pose proof (uint_of_text_of_uint (Pos.to_uint p)) as Hu.
    rewrite Hp in *. cbn [forallb] in Hall.
    apply andb_true_iff in Hall. destruct Hall as [_ Hall].
    assert (Hm : match_int ((45 :: c :: ds) ++ rest)
                 = Some (true, c :: ds, rest)).
    { unfold match_int. cbn [List.app].
      change (45 =? 45) with true. cbv iota beta.
      rewrite Hc0, Hc. now rewrite (span_digits_all ds rest Hall Hnd). }
    rewrite Hm, Hf, He, (proj2 (Nat.ltb_ge _ _) Hlen), Hu, Hz. reflexivity.
Qed.

(** Appending text that starts with a delimiter to a number leaves the
    number read as it was. *)
Lemma span_digits_digits s : forall ds r,
  span_digits s = (ds, r) -> forallb is_digit ds = true.
Proof.
  induction s as [|c s IH]; intros ds r H; cbn in H.
  - now inversion H.
  - destruct (is_digit c) eqn:E.
    + destruct (span_digits s) as [ds' r']. inversion H; subst.
      cbn. rewrite E. now apply (IH _ _ eq_refl).
    + now inversion H.
Qed.

Lemma span_digits_more s rest : forall ds r,
  match rest with [] => True | c :: _ => is_digit c = false end ->
  span_digits s = (ds, r) -> span_digits (s ++ rest) = (ds, r ++ rest).
Proof.
  intros ds r Hrest. revert ds r.
  induction s as [|c s IH]; intros ds r H; cbn in H |- *.
  - inversion H; subst. destruct rest as [|c rest]; [reflexivity|].
    cbn. now rewrite Hrest.
  - destruct (is_digit c).
    + destruct (span_digits s) as [ds' r']. inversion H; subst.
      now rewrite (IH _ _ eq_refl).
    + now inversion H.
Qed.

Lemma match_int_more s rest neg ds r :
  match rest with [] => True | c :: _ => is_digit c = false end ->
  match_int s = Some (neg, ds, r) ->
  match_int (s ++ rest) = Some (neg, ds, r ++ rest).
Proof.
  intro Hrest. unfold match_int.
  destruct s as [|c s']; [discriminate|]. cbn [List.app].
  destruct (c =? 45).
  - destruct s' as [|c' s2]; [discriminate|]. cbn [List.app].
    destruct (c' =? 48); [intro H; inversion H; reflexivity|].
    destruct (is_digit c'); [|discriminate].
    destruct (span_digits s2) as [ds' r'] eqn:Hs.
    rewrite (span_digits_more _ _ _ _ Hrest Hs).
    intro H; inversion H; reflexivity.
  - destruct (c =? 48); [intro H; inversion H; reflexivity|].
    destruct (is_digit c); [|discriminate].
    destruct (span_digits s') as [ds' r'] eqn:Hs.
    rewrite (span_digits_more _ _ _ _ Hrest Hs).
    intro H; inversion H; reflexivity.
Qed.

Lemma match_frac_more r1 rest frac r2 :
  delim rest = true ->
  match_frac r1 = (frac, r2) -> match_frac (r1 ++ rest) = (frac, r2 ++ rest).
Proof.
  intro Hd. destruct (delim_not_number rest Hd) as (Hf & _ & Hnd).
  unfold match_frac in *. destruct r1 as [|c [|d s']]; cbn [List.app].
  - intro H; inversion H; subst. exact Hf.
  - intro H; inversion H; subst.
    destruct rest as [|d rest']; [reflexivity|].
    rewrite Hnd, andb_false_r. reflexivity.
  - destruct ((c =? 46) && is_digit d); [|intro H; inversion H; reflexivity].
    destruct (span_digits s') as [ds r] eqn:Hs.
    rewrite (span_digits_more _ _ _ _ Hnd Hs).
    intro H; inversion H; reflexivity.
Qed.

Lemma delim_cases c rest :
  delim (c :: rest) = true -> c = 44 \/ c = 93 \/ c = 125.
Proof.
  cbn [delim]. rewrite !orb_true_iff, !N.eqb_eq. tauto.
Qed.

Lemma match_exp_more r2 rest ex r3 :
  delim rest = true ->
  match_exp r2 = (ex, r3) -> match_exp (r2 ++ rest) = (ex, r3 ++ rest).
Proof.
  intro Hd. destruct (delim_not_number rest Hd) as (_ & He & Hnd).
  unfold match_exp in *. destruct r2 as [|c s1]; cbn [List.app].
  - intro H; inversion H; subst. exact He.
  - destruct ((c =? 101) || (c =? 69)); [|intro H; inversion H; reflexivity].
    destruct s1 as [|d s']; cbn [List.app].
    + intro H; inversion H; subst.
      destruct rest as [|d rest']; [reflexivity|].
      destruct (delim_cases d rest' Hd) as [->|[->| ->]]; reflexivity.
    + destruct ((d =? 45) || (d =? 43)).
      * destruct (span_digits s') as [ds r] eqn:Hs.
        rewrite (span_digits_more _ _ _ _ Hnd Hs).
        destruct ds; intro H; inversion H; reflexivity.
      * destruct (span_digits (d :: s')) as [ds r] eqn:Hs.
        change (d :: s' ++ rest) with ((d :: s') ++ rest).
        rewrite (span_digits_more _ _ _ _ Hnd Hs).
        destruct ds; intro H; inversion H; reflexivity.
Qed.

Lemma match_number_more l v r rest :
  delim rest = true ->
  match_number l = Scanned v r ->
  match_number (l ++ rest) = Scanned v (r ++ rest).
Proof.
  intro Hd. destruct (delim_not_number rest Hd) as (_ & _ & Hnd).
  unfold match_number.
  destruct (match_int l) as [[[neg ds] r1]|] eqn:Hi; [|discriminate].
  rewrite (match_int_more _ _ _ _ _ Hnd Hi).
  destruct (match_frac r1) as [frac r2] eqn:Hf.
  rewrite (match_frac_more _ _ _ _ Hd Hf).
  destruct (match_exp r2) as [ex r3] eqn:He.
  rewrite (match_exp_more _ _ _ _ Hd He).
  destruct frac, ex; [destruct (_ <? _)%nat; [discriminate|]|..];
    intro H; inversion H; reflexivity.
Qed.

(** A number starts with a digit, or with a minus sign and a digit. *)
Lemma match_int_start s x :
  match_int s = Some x ->
  exists c r,
    s = c :: r
    /\ (((c =? 45) = true
         /\ exists d r', r = d :: r' /\ is_digit d = true)
        \/ is_digit c = true).
Proof.
  unfold match_int. destruct s as [|c s']; [discriminate|].
  destruct (c =? 45) eqn:E.
  - destruct s' as [|c' s2]; [discriminate|].
    destruct (c' =? 48) eqn:E0.
    + intros _. exists c, (c' :: s2). split; [reflexivity|]. left.
      split; [exact E|]. exists c', s2. split; [reflexivity|].
      apply N.eqb_eq in E0. now subst.
    + destruct (is_digit c') eqn:Ed; [|discriminate].
      intros _. exists c, (c' :: s2). split; [reflexivity|]. left.
      split; [exact E|]. now exists c', s2.
  - destruct (c =? 48) eqn:E0.
    + intros _. exists c, s'. split; [reflexivity|]. right.
      apply N.eqb_eq in E0. now subst.
    + destruct (is_digit c) eqn:Ed; [|discriminate].
      intros _. exists c, s'. split; [reflexivity|]. now right.
Qed.

Lemma digits_last (x pre : text) :
  forallb is_digit x = true -> x <> [] ->
  exists r c, pre ++ x = r ++ [c] /\ is_digit c = true.
Proof.
  intros Hx Hne. destruct (exists_last Hne) as (r & c & ->).
  rewrite forallb_app in Hx. apply andb_true_iff in Hx.
  destruct Hx as [_ Hc]. cbn in Hc. rewrite andb_true_r in Hc.
  exists (pre ++ r), c. split; [now rewrite app_assoc|exact Hc].
Qed.

Lemma match_frac_last s frac r :
  match_frac s = (frac, r) ->
  frac = [] \/ exists r' c, frac = r' ++ [c] /\ is_digit c = true.
Proof.
  unfold match_frac. destruct s as [|c [|d s']];
    try (intro H; inversion H; now left).
  destruct ((c =? 46) && is_digit d) eqn:E;
    [|intro H; inversion H; now left].
  apply andb_true_iff in E. destruct E as [_ Ed].
  destruct (span_digits s') as [ds r0] eqn:Hs.
  intro H; inversion H; subst. right.
  apply (digits_last (d :: ds) [c]); [|discriminate].
  cbn. rewrite Ed. exact (span_digits_digits _ _ _ Hs).
Qed.

Lemma match_exp_last s ex r :
  match_exp s = (ex, r) ->
  ex = [] \/ exists r' c, ex = r' ++ [c] /\ is_digit c = true.
Proof.
  unfold match_exp. destruct s as [|c s1]; [intro H; inversion H; now left|].
  destruct ((c =? 101) || (c =? 69)); [|intro H; inversion H; now left].
  set (p := match s1 with
            | d :: s' => if (d =? 45) || (d =? 43) then ([d], s') else ([], s1)
            | [] => ([], s1)
            end).
  destruct p as [sign s2].
  destruct (span_digits s2) as [ds r0] eqn:Hs.
  pose proof (span_digits_digits _ _ _ Hs) as Hds.
  destruct ds as [|d0 ds]; [intro H; inversion H; now left|].
  intro H; inversion H; subst. right.
  change (c :: sign ++ d0 :: ds) with ((c :: sign) ++ d0 :: ds).
  apply digits_last; [exact Hds|discriminate].
Qed.

(** A float literal ends with a digit. *)
Lemma match_number_float_last l l' r :
  match_number l = Scanned (JFloat l') r ->
  exists r' c, l' = r' ++ [c] /\ is_digit c = true.
Proof.
  unfold match_number.
  destruct (match_int l) as [[[neg ds] r1]|]; [|discriminate].
  destruct (match_frac r1) as [frac r2] eqn:Hf.
  destruct (match_exp r2) as [ex r3] eqn:He.
  destruct (match_exp_last _ _ _ He) as [->|(re & ce & -> & Hce)].
  - destruct (match_frac_last _ _ _ Hf) as [->|(rf & cf & -> & Hcf)].
    + destruct (_ <? _)%nat; discriminate.
    + intro H.
      assert (Hl : l' = (if neg then [45] else []) ++ ds ++ (rf ++ [cf]) ++ [])
        by (destruct rf; cbn in H |- *; now inversion H).
      exists ((if neg then [45] else []) ++ ds ++ rf), cf.
      split; [|exact Hcf]. rewrite Hl, app_nil_r, <- !app_assoc. reflexivity.
  - intro H.
    assert (Hl : l' = (if neg then [45] else []) ++ ds ++ frac ++ re ++ [ce]).
    { destruct frac; [destruct re|]; cbn in H |- *; now inversion H. }
    exists ((if neg then [45] else []) ++ ds ++ frac ++ re), ce.
    split; [|exact Hce]. rewrite Hl, <- !app_assoc. reflexivity.
Qed.

Lemma float_literal_scan l :
  float_literal l = true -> match_number l = Scanned (JFloat l) [].
Proof.
  unfold float_literal.
  destruct (match_number l) as [v rest| | |]; try discriminate.
  destruct v; try discriminate. destruct rest; try discriminate.
  intro H. apply text_eqb_eq in H. now subst.
Qed.

Lemma float_literal_start l :
  float_literal l = true ->
  exists c r,
    l = c :: r
    /\ (((c =? 45) = true
         /\ exists d r', r = d :: r' /\ is_digit d = true)
        \/ is_digit c = true).
Proof.
  intro H. apply float_literal_scan in H. unfold match_number in H.
  destruct (match_int l) as [x|] eqn:Hi; [|discriminate].
  exact (match_int_start _ _ Hi).
Qed.

Lemma float_literal_end l :
  float_literal l = true ->
  exists r c, l = r ++ [c] /\ is_digit c = true.
Proof.
  intro H. apply float_literal_scan in H.
  exact (match_number_float_last _ _ _ H).
Qed.

(** The three forms of a float in canonical form. *)
Lemma canonical_float_cases fr l :
  canonical_float fr l = true ->
  fr l = l
  /\ (float_literal l = true \/ l = t "Infinity" \/ l = t "-Infinity").
Proof.
  unfold canonical_float. rewrite andb_true_iff, !orb_true_iff.
  rewrite !text_eqb_eq. tauto.
Qed.

End Numbers.

(** ** Reading back strings *)

Section Strings.

Lemma hexval_hexdigit d : d < 16 -> hexval (hexdigit d) = Some d.
Proof.
  intro H.
  assert (Hd : d = 0 \/ d = 1 \/ d = 2 \/ d = 3 \/ d = 4 \/ d = 5 \/ d = 6
               \/ d = 7 \/ d = 8 \/ d = 9 \/ d = 10 \/ d = 11 \/ d = 12
               \/ d = 13 \/ d = 14 \/ d = 15) by lia.
  repeat (destruct Hd as [->|Hd]; [reflexivity|]). now subst.
Qed.

Lemma hex4val_hex4 n :
  n < 65536 ->
  hex4val (hexdigit (n / 4096 mod 16)) (hexdigit (n / 256 mod 16))
          (hexdigit (n / 16 mod 16)) (hexdigit (n mod 16)) = Some n.
Proof.
  intro H. unfold hex4val.
  rewrite !hexval_hexdigit by (apply N.mod_lt; discriminate).
  f_equal.
  pose proof (N.div_mod n 16 ltac:(discriminate)) as H0.
  pose proof (N.div_mod (n / 16) 16 ltac:(discriminate)) as H1.
  pose proof (N.div_mod (n / 16 / 16) 16 ltac:(discriminate)) as H2.
  pose proof (N.div_mod (n / 16 / 16 / 16) 16 ltac:(discriminate)) as H3.
  change 4096 with (16 * 16 * 16). change 256 with (16 * 16).
  rewrite <- !N.Div0.div_div.
  assert (n / 16 / 16 / 16 / 16 = 0).
  { rewrite !N.Div0.div_div. apply N.div_small. exact H. }
  lia.
Qed.

Lemma lor_shifted k b : b < 1024 -> N.lor (k * 1024) b = k * 1024 + b.
Proof.
  intro Hb.
  assert (H0 : N.land (k * 1024) b = 0).
  { rewrite <- (N.mod_small b 1024 Hb).
    change 1024 with (2 ^ 10). rewrite <- (N.land_ones b 10).
    rewrite (N.land_comm b), N.land_assoc, N.land_ones.
    now rewrite N.Div0.mod_mul, N.land_0_l. }
  now rewrite <- N.lxor_lor, N.add_nocarry_lxor.
Qed.

(** The two escapes written for a character beyond the basic plane, read
    back as one character. *)
Lemma surrogates_join c :
  65536 <= c -> c < 1114112 ->
  let n := c - 65536 in
  let hi := N.lor 55296 (N.land (N.shiftr n 10) 1023) in
  let lo := N.lor 56320 (N.land n 1023) in
  hi < 65536 /\ lo < 65536 /\ is_high_surrogate hi = true
  /\ is_low_surrogate lo = true /\ join_surrogates hi lo = c.
Proof.
  intros H1 H2 n hi lo.
  assert (Hn : n + 65536 = c) by (unfold n; lia).
  clearbody n.
  assert (Hx : n / 1024 < 1024)
    by (apply N.Div0.div_lt_upper_bound; lia).
  assert (Hy : n mod 1024 < 1024) by (apply N.mod_lt; discriminate).
  assert (Hhi : hi = 54 * 1024 + n / 1024).
  { unfold hi. change 1023 with (N.ones 10).
    rewrite N.land_ones, N.shiftr_div_pow2. change (2 ^ 10) with 1024.
    rewrite (N.mod_small _ _ Hx). now apply (lor_shifted 54). }
  assert (Hlo : lo = 55 * 1024 + n mod 1024).
  { unfold lo. change 1023 with (N.ones 10).
    rewrite N.land_ones. change (2 ^ 10) with 1024.
    now apply (lor_shifted 55). }
  assert (Hj : join_surrogates hi lo = c).
  { unfold join_surrogates. change 1023 with (N.ones 10).
    rewrite !N.land_ones, N.shiftl_mul_pow2. change (2 ^ 10) with 1024.
    rewrite Hhi, Hlo.
    rewrite (N.add_comm (54 * 1024)), (N.add_comm (55 * 1024)).
    rewrite !N.Div0.mod_add, N.Div0.mod_mod, (N.mod_small _ _ Hx).
    rewrite (lor_shifted _ _ Hy).
    pose proof (N.div_mod n 1024 ltac:(discriminate)) as Hdm.
    lia. }
  unfold is_high_surrogate, is_low_surrogate.
  pose proof (N.le_0_l (n / 1024)) as Hx0.
  pose proof (N.le_0_l (n mod 1024)) as Hy0.
  rewrite Hhi, Hlo in *.
  repeat split; try lia; try exact Hj;
    apply andb_true_iff; split; apply N.leb_le; lia.
Qed.

(** Reading back what the encoder writes for one character. *)
Lemma scanstring_encode_char c x tail begin acc :
  is_scalar c = true ->
  scanstring begin (encode_char c ++ x :: tail) acc
  = scanstring begin (x :: tail) (c :: acc).
Proof.
  intro Hc. unfold encode_char.
  repeat match goal with
         | |- context [if ?k =? ?v then _ else _] =>
             let E := fresh "E" in
             destruct (k =? v) eqn:E;
             [apply N.eqb_eq in E; subst; reflexivity|]
         end.
  destruct ((32 <=? c) && (c <=? 126)) eqn:Hp.
  - apply andb_true_iff in Hp. destruct Hp as [Hlo Hhi].
    apply N.leb_le in Hlo. cbn [List.app scanstring]. rewrite E, E0.
    destruct (c <=? 31) eqn:Hctl; [apply N.leb_le in Hctl; lia|reflexivity].
  - destruct (c <? 65536) eqn:Hb.
    + apply N.ltb_lt in Hb. unfold uescape, hex4.
      cbn [List.app scanstring]. change (backslash =? 34) with false.
      change (backslash =? 92) with true. change (117 =? 117) with true.
      cbv iota. rewrite (hex4val_hex4 c Hb).
      assert (Hh : is_high_surrogate c = false).
      { unfold is_scalar in Hc. unfold is_high_surrogate.
        apply orb_true_iff in Hc. destruct Hc as [Hc|Hc].
        - apply N.ltb_lt in Hc. apply andb_false_iff. left.
          apply N.leb_gt. lia.
        - apply andb_true_iff in Hc. destruct Hc as [Hc _].
          apply N.ltb_lt in Hc. apply andb_false_iff. right.
          apply N.leb_gt. lia. }
      rewrite Hh. cbn [andb].
      destruct tail as [|u2 [|g1 [|g2 [|g3 [|g4 [|y s4]]]]]]; reflexivity.
    + apply N.ltb_ge in Hb.
      assert (Hmax : c < 1114112).
      { unfold is_scalar in Hc. apply orb_true_iff in Hc.
        destruct Hc as [Hc|Hc]; [apply N.ltb_lt in Hc; lia|].
        apply andb_true_iff in Hc. destruct Hc as [_ Hc].
        now apply N.ltb_lt in Hc. }
      destruct (surrogates_join c Hb Hmax) as (Hhi & Hlo & Hh & Hl & Hj).
      cbv zeta in *.
      set (hi := N.lor 55296 (N.land (N.shiftr (c - 65536) 10) 1023)) in *.
      set (lo := N.lor 56320 (N.land (c - 65536) 1023)) in *.
      unfold uescape, hex4. cbn [List.app scanstring].
      change (backslash =? 34) with false.
      change (backslash =? 92) with true. change (117 =? 117) with true.
      cbv iota. rewrite (hex4val_hex4 hi Hhi), Hh. cbn [andb].
      rewrite (hex4val_hex4 lo Hlo), Hl, Hj. reflexivity.
Qed.

Lemma scanstring_encode s rest begin acc :
  forallb is_scalar s = true ->
  scanstring begin (flat_map encode_char s ++ dquote :: rest) acc
  = Scanned (List.rev acc ++ s) rest.
Proof.
  revert acc. induction s as [|c s IH]; intros acc Hs.
  - cbn. now rewrite app_nil_r.
  - cbn [forallb] in Hs. apply andb_true_iff in Hs. destruct Hs as [Hc Hs].
    cbn [flat_map]. rewrite <- app_assoc.
    destruct (flat_map encode_char s ++ dquote :: rest) as [|x tail] eqn:E.
    + destruct (flat_map encode_char s); discriminate E.
    + rewrite (scanstring_encode_char c x tail begin acc Hc).
      rewrite (IH (c :: acc) Hs). cbn. now rewrite <- app_assoc.
Qed.

End Strings.

(** ** The first and the last character of a rendered value *)

Section Values.

Variable fr : text -> text.



Lemma dumps_list xs : dumps fr (JList xs) = 91 :: list_items fr xs ++ [93].
Proof. reflexivity. Qed.

Lemma dumps_dict kvs : dumps fr (JDict kvs) = 123 :: dict_items fr kvs ++ [125].
Proof. reflexivity. Qed.


Lemma str_int_start z :
  exists c r, str_int z = c :: r
              /\ ((c =? 45) = true /\ (exists d r', r = d :: r' /\ is_digit d = true)
                  \/ is_digit c = true).
Proof.
  unfold str_int. destruct z as [|p|p]; cbn [Z.to_int].
  - eexists _, _. split; [reflexivity|]. now right.
  - destruct (pos_to_uint_head p) as (c & ds & -> & Hc & _).
    eexists _, _. split; [reflexivity|]. now right.
  - destruct (pos_to_uint_head p) as (c & ds & -> & Hc & _).
    eexists _, _. split; [reflexivity|]. left. split; [reflexivity|].
    eauto.
Qed.

Lemma str_int_end z :
  exists r c, str_int z = r ++ [c] /\ is_digit c = true.
Proof.
  assert (H : forall u, u <> Decimal.Nil ->
            exists r c, text_of_uint u = r ++ [c] /\ is_digit c = true).
  { induction u as [|u IH|u IH|u IH|u IH|u IH|u IH|u IH|u IH|u IH|u IH];
      intro Hn; [now destruct Hn| | | | | | | | | |];
      (destruct (Decimal.uint_eq_dec u Decimal.Nil) as [->|Hu];
       [exists []; eexists; split; reflexivity|
        destruct (IH Hu) as (r & c & Hr & Hc); cbn [text_of_uint];
        rewrite Hr; eexists (_ :: r), c; split; [reflexivity|exact Hc]]). }
  unfold str_int. destruct z as [|p|p]; cbn [Z.to_int].
  - exists [], 48. split; reflexivity.
  - apply H, DecimalPos.Unsigned.to_uint_nonnil.
  - destruct (H (Pos.to_uint p) (DecimalPos.Unsigned.to_uint_nonnil p))
      as (r & c & -> & Hc).
    exists (45 :: r), c. split; [reflexivity|exact Hc].
Qed.

Lemma dumps_start v :
  plain fr v = true ->
  exists c r, dumps fr v = c :: r /\ value_start c = true.
Proof.
  destruct v as [|[|]|z|l| | |]; intro H;
    try (eexists _, _; split; reflexivity).
  - destruct (str_int_start z) as (c & r & Hz & [[Hc _]|Hc]);
      exists c, r; (split; [exact Hz|]); unfold value_start; rewrite Hc;
      rewrite ?orb_true_r; reflexivity.
  - cbn [plain] in H.
    destruct (canonical_float_cases fr l H) as (Hfr & [Hl|[->| ->]]);
      cbn [dumps]; rewrite Hfr;
      [|eexists _, _; split; reflexivity..].
    destruct (float_literal_start l Hl) as (c & r & -> & [[Hc _]|Hc]);
      exists c, r; (split; [reflexivity|]); unfold value_start; rewrite Hc;
      rewrite ?orb_true_r; reflexivity.
Qed.

Lemma dumps_end v :
  plain fr v = true ->
  exists r c, dumps fr v = r ++ [c] /\ value_end c = true.
Proof.
  destruct v as [|[|]|z|l|s|xs|kvs]; intro H.
  - exists (t "nul"), 108. split; reflexivity.
  - exists (t "tru"), 101. split; reflexivity.
  - exists (t "fals"), 101. split; reflexivity.
  - destruct (str_int_end z) as (r & c & Hz & Hc). exists r, c.
    split; [exact Hz|]. unfold value_end. rewrite Hc.
    rewrite ?orb_true_r. reflexivity.
  - cbn [plain] in H.
    destruct (canonical_float_cases fr l H) as (Hfr & [Hl|[->| ->]]);
      cbn [dumps]; rewrite Hfr.
    + destruct (float_literal_end l Hl) as (r & c & -> & Hc). exists r, c.
      split; [reflexivity|]. unfold value_end. rewrite Hc.
      rewrite ?orb_true_r. reflexivity.
    + exists (t "Infinit"), 121. split; reflexivity.
    + exists (t "-Infinit"), 121. split; reflexivity.
  - exists (dquote :: flat_map encode_char s), dquote. split; reflexivity.
  - exists (91 :: list_items fr xs), 93. split; reflexivity.
  - exists (123 :: dict_items fr kvs), 125. split; reflexivity.
Qed.

Lemma value_start_facts c :
  value_start c = true ->
  is_ws c = false /\ isspace c = false /\ (c =? 93) = false
  /\ (c =? 125) = false /\ (c =? 96) = false /\ (c =? 106) = false
  /\ (c =? 65279) = false.
Proof.
  unfold value_start, is_digit. rewrite !orb_true_iff, andb_true_iff.
  rewrite !N.eqb_eq, !N.leb_le. intro H.
  assert (Hc : c = 110 \/ c = 116 \/ c = 102 \/ c = 45 \/ c = 34 \/ c = 91
               \/ c = 123 \/ c = 73 \/ c = 48 \/ c = 49 \/ c = 50 \/ c = 51
               \/ c = 52 \/ c = 53 \/ c = 54 \/ c = 55 \/ c = 56 \/ c = 57)
    by lia.
  clear H.
  repeat (destruct Hc as [->|Hc]; [repeat split; reflexivity|]).
  subst. repeat split; reflexivity.
Qed.

Lemma value_end_facts c :
  value_end c = true -> isspace c = false /\ (c =? 96) = false.
Proof.
  unfold value_end, is_digit. rewrite !orb_true_iff, andb_true_iff.
  rewrite !N.eqb_eq, !N.leb_le. intro H.
  assert (Hc : c = 108 \/ c = 101 \/ c = 34 \/ c = 93 \/ c = 125
               \/ c = 121 \/ c = 48 \/ c = 49 \/ c = 50 \/ c = 51 \/ c = 52
               \/ c = 53 \/ c = 54 \/ c = 55 \/ c = 56 \/ c = 57) by lia.
  clear H.
  repeat (destruct Hc as [->|Hc]; [split; reflexivity|]).
  subst. split; reflexivity.
Qed.

End Values.

(** ** Reading back values *)

Section RoundTrip.

Variable fr : text -> text.

Lemma skip_ws_start c r : is_ws c = false -> skip_ws (c :: r) = c :: r.
Proof. intro H. cbn. now rewrite H. Qed.

Lemma digit_cases d :
  is_digit d = true ->
  d = 48 \/ d = 49 \/ d = 50 \/ d = 51 \/ d = 52 \/ d = 53 \/ d = 54
  \/ d = 55 \/ d = 56 \/ d = 57.
Proof.
  unfold is_digit. rewrite andb_true_iff, !N.leb_le. lia.
Qed.

(** On a minus sign followed by a digit, or on a digit, [_scan_once] comes
    down to matching a number. *)
Lemma scan_body_number obj arr depth c r :
  ((c =? 45) = true /\ (exists d r', r = d :: r' /\ is_digit d = true))
  \/ is_digit c = true ->
  scan_once_body obj arr depth (c :: r) = match_number (c :: r).
Proof.
  intros [[Hc (d & r' & -> & Hd)]|Hc].
  - apply N.eqb_eq in Hc. subst c. apply digit_cases in Hd.
    repeat (destruct Hd as [->|Hd]; [reflexivity|]). now subst.
  - apply digit_cases in Hc.
    repeat (destruct Hc as [->|Hc]; [reflexivity|]). now subst.
Qed.

Lemma list_items_start x xs tail :
  plain fr x = true ->
  exists c r, list_items fr (x :: xs) ++ tail = c :: r
              /\ value_start c = true.
Proof.
  intro Hx. destruct (dumps_start fr x Hx) as (c & r & Hd & Hc).
  cbn [list_items]. destruct xs; rewrite Hd; eexists _, _;
    (split; [reflexivity|exact Hc]).
Qed.

Lemma dict_items_start k x kvs tail :
  exists r, dict_items fr ((k, x) :: kvs) ++ tail = dquote :: r.
Proof.
  cbn [dict_items]. destruct kvs; eexists; reflexivity.
Qed.

Lemma fold_dict_set_distinct (kvs acc : list (text * json)) :
  distinct (map fst acc ++ map fst kvs) = true ->
  fold_left (fun d kv => dict_set (fst kv) (snd kv) d) kvs acc = acc ++ kvs.
Proof.
  revert acc. induction kvs as [|[k v] kvs IH]; intros acc Hd.
  - cbn. now rewrite app_nil_r.
  - cbn [fold_left fst snd].
    assert (Hset : dict_set k v acc = acc ++ [(k, v)]).
    { clear IH. induction acc as [|[k' v'] acc IHa]; [reflexivity|].
      cbn [map fst List.app distinct] in Hd.
      apply andb_true_iff in Hd. destruct Hd as [Hk Hd].
      cbn [dict_set]. destruct (text_eqb k k') eqn:E.
      - exfalso. apply text_eqb_eq in E. subst k'.
        apply negb_true_iff, mem_false in Hk. apply Hk.
        apply in_or_app. right. now left.
      - cbn. now rewrite (IHa Hd). }
    rewrite Hset. rewrite IH.
    + now rewrite <- app_assoc.
    + rewrite map_app, <- app_assoc. exact Hd.
Qed.

Lemma first_error_none {A : Type} (f : A -> option exn) xs :
  first_error f xs = None -> Forall (fun x => f x = None) xs.
Proof.
  induction xs as [|x xs IH]; cbn; [constructor|].
  destruct (f x) eqn:E; [discriminate|]. intro H. constructor; auto.
Qed.

Lemma array_loop_items depth xs :
  xs <> [] ->
  Forall (fun x => plain fr x = true
                   /\ forall rest, delim rest = true ->
                        exists fuel,
                          scan_once fuel depth (dumps fr x ++ rest)
                          = Scanned x rest) xs ->
  forall acc rest,
    exists fuel,
      array_loop fuel depth (list_items fr xs ++ 93 :: rest) acc
      = Scanned (JList (List.rev acc ++ xs)) rest.
Proof.
  intros Hne Hall. induction Hall as [|x xs [Hx Hrt] Hall IH];
    [now destruct Hne|]. intros acc rest.
  destruct xs as [|y ys].
  - destruct (Hrt (93 :: rest) eq_refl) as (f1 & H1).
    exists (S f1). cbn [array_loop list_items]. unfold array_loop_body.
    rewrite H1. reflexivity.
  - destruct (Hrt (44 :: 32 :: list_items fr (y :: ys) ++ 93 :: rest)
                eq_refl) as (f1 & H1).
    destruct (IH ltac:(discriminate) (x :: acc) rest) as (f2 & H2).
    exists (S (Nat.max f1 f2)).
    cbn [array_loop]. unfold array_loop_body.
    change (list_items fr (x :: y :: ys))
      with (dumps fr x ++ t ", " ++ list_items fr (y :: ys)).
    rewrite <- !app_assoc. change (t ", ") with [44; 32]. cbn [List.app].
    rewrite (scan_once_more_fuel f1 (Nat.max f1 f2) depth), H1
      by (rewrite ?H1; try discriminate; lia).
    cbn [skip_ws is_ws N.eqb Pos.eqb orb].
    change (44 =? 93) with false. change (44 =? 44) with true. cbv iota.
    inversion Hall as [|? ? [Hy _] _]; subst.
    destruct (list_items_start y ys (93 :: rest) Hy) as (c & r & Hs & Hc).
    rewrite Hs in *.
    destruct (value_start_facts c Hc) as (Hws & _).
    rewrite (skip_ws_start c r Hws).
    rewrite (array_loop_more_fuel f2 (Nat.max f1 f2) depth), H2
      by (rewrite ?H2; try discriminate; lia).
    cbn [List.rev]. now rewrite <- app_assoc.
Qed.

Lemma object_loop_items depth kvs :
  kvs <> [] ->
  Forall (fun kv => forallb is_scalar (fst kv) = true
                    /\ plain fr (snd kv) = true
                    /\ forall rest, delim rest = true ->
                         exists fuel,
                           scan_once fuel depth (dumps fr (snd kv) ++ rest)
                           = Scanned (snd kv) rest) kvs ->
  forall acc rest,
    exists fuel,
      object_loop fuel depth (dict_items fr kvs ++ 125 :: rest) acc
      = Scanned
          (JDict (fold_left (fun d kv => dict_set (fst kv) (snd kv) d)
                    kvs acc)) rest.
Proof.
  intros Hne Hall. induction Hall as [|[k x] kvs (Hk & Hx & Hrt) Hall IH];
    [now destruct Hne|]. intros acc rest. cbn [fst snd] in *.
  destruct (dumps_start fr x Hx) as (c & r & Hd & Hc).
  destruct (value_start_facts c Hc) as (Hws & _).
  destruct kvs as [|[k' y] kvs'].
  - destruct (Hrt (125 :: rest) eq_refl) as (f1 & H1).
    exists (S f1). cbn [object_loop dict_items]. unfold object_loop_body.
    unfold encode_basestring_ascii.
    rewrite <- !app_assoc. change (t ": ") with [58; 32].
    cbn [List.app]. change (dquote =? 34) with true. cbv iota.
    rewrite <- !app_assoc. cbn [List.app].
    rewrite (scanstring_encode k _ _ [] Hk).
    cbn [List.rev List.app skip_ws is_ws N.eqb Pos.eqb orb].
    change (58 =? 58) with true. cbv iota.
    rewrite Hd in *. cbn [List.app] in *. rewrite (skip_ws_start c _ Hws).
    rewrite H1. reflexivity.
  - destruct (Hrt (44 :: 32 :: dict_items fr ((k', y) :: kvs') ++ 125 :: rest)
                eq_refl) as (f1 & H1).
    destruct (IH ltac:(discriminate) (dict_set k x acc) rest) as (f2 & H2).
    exists (S (Nat.max f1 f2)).
    cbn [object_loop]. unfold object_loop_body.
    change (dict_items fr ((k, x) :: (k', y) :: kvs'))
      with (encode_basestring_ascii k ++ t ": " ++ dumps fr x ++ t ", "
            ++ dict_items fr ((k', y) :: kvs')).
    unfold encode_basestring_ascii at 1.
    rewrite <- !app_assoc. change (t ": ") with [58; 32].
    change (t ", ") with [44; 32].
    cbn [List.app]. change (dquote =? 34) with true. cbv iota.
    rewrite <- !app_assoc. cbn [List.app].
    rewrite (scanstring_encode k _ _ [] Hk).
    cbn [List.rev List.app skip_ws is_ws N.eqb Pos.eqb orb].
    change (58 =? 58) with true. cbv iota.
    rewrite Hd in *. cbn [List.app] in *. rewrite (skip_ws_start c _ Hws).
    rewrite (scan_once_more_fuel f1 (Nat.max f1 f2) depth), H1
      by (rewrite ?H1; try discriminate; lia).
    cbn [skip_ws is_ws N.eqb Pos.eqb orb].
    change (44 =? 125) with false. change (44 =? 44) with true. cbv iota.
    destruct (dict_items_start k' y kvs' (125 :: rest)) as (r' & Hs).
    rewrite Hs in *. rewrite (skip_ws_start dquote r' eq_refl).
    rewrite (object_loop_more_fuel f2 (Nat.max f1 f2) depth), H2
      by (rewrite ?H2; try discriminate; lia).
    reflexivity.
Qed.

(** The decoder reads back what the encoder writes, whatever follows,
    provided the next character ends the value, when the encoder meets no
    limit of the interpreter. *)
Lemma scan_once_dumps v :
  plain fr v = true ->
  forall depth rest,
    encoder_error depth v = None -> delim rest = true ->
    exists fuel, scan_once fuel depth (dumps fr v ++ rest) = Scanned v rest.
Proof.
  induction v as [|b|z|l|s|xs IH|kvs IH] using json_ind';
    intros Hv depth rest He Hrest.
  - exists 1%nat. reflexivity.
  - exists 1%nat. destruct b; reflexivity.
  - exists 1%nat. cbn [scan_once dumps].
    cbn [encoder_error] in He.
    destruct (int_max_str_digits <? int_digits z)%nat eqn:Hlen;
      [discriminate He|]. apply Nat.ltb_ge in Hlen.
    destruct (str_int_start z) as (c & r & Hz & Hc).
    pose proof (match_number_str_int z rest Hrest Hlen) as Hm.
    rewrite Hz in *. cbn [List.app] in *.
    rewrite (scan_body_number _ _ depth c (r ++ rest)); [exact Hm|].
    destruct Hc as [[Hc (d & r' & -> & Hd)]|Hc]; [left|now right].
    split; [exact Hc|]. exists d, (r' ++ rest).
    split; [reflexivity|exact Hd].
  - exists 1%nat. cbn [scan_once dumps]. cbn [plain] in Hv.
    destruct (canonical_float_cases fr l Hv) as (Hfr & [Hl|[->| ->]]);
      rewrite Hfr; [|reflexivity..].
    pose proof (match_number_more l _ _ rest Hrest (float_literal_scan l Hl))
      as Hm.
    destruct (float_literal_start l Hl) as (c & r & -> & Hc).
    cbn [List.app] in *.
    rewrite (scan_body_number _ _ depth c (r ++ rest)); [exact Hm|].
    destruct Hc as [[Hc (d & r' & -> & Hd)]|Hc]; [left|now right].
    split; [exact Hc|]. exists d, (r' ++ rest).
    split; [reflexivity|exact Hd].
  - exists 1%nat. cbn [scan_once dumps]. unfold encode_basestring_ascii.
    cbn [List.app]. unfold scan_once_body.
    change (dquote =? 34) with true. cbv iota. unfold scan_string_value.
    rewrite <- app_assoc. cbn [List.app].
    cbn [plain] in Hv. now rewrite (scanstring_encode s rest _ [] Hv).
  - destruct depth as [|depth']; [discriminate He|].
    cbn [encoder_error] in He. apply first_error_none in He.
    rewrite dumps_list. cbn [List.app]. rewrite <- app_assoc.
    cbn [List.app].
    destruct xs as [|x xs].
    + exists 1%nat. reflexivity.
    + cbn [plain] in Hv.
      assert (Hall : Forall (fun x => plain fr x = true
                       /\ forall rest, delim rest = true ->
                            exists fuel,
                              scan_once fuel depth' (dumps fr x ++ rest)
                              = Scanned x rest) (x :: xs)).
      { rewrite forallb_forall in Hv. rewrite Forall_forall in *.
        intros y Hy. split; [now apply Hv|].
        intros rest' Hrest'.
        apply (IH y Hy (Hv y Hy) depth' rest' (He y Hy) Hrest'). }
      destruct (array_loop_items depth' (x :: xs) ltac:(discriminate) Hall []
                  rest) as (f & Hf).
      inversion Hall as [|? ? [Hx _] _]; subst.
      destruct (list_items_start x xs (93 :: rest) Hx) as (c & r & Hs & Hc).
      destruct (value_start_facts c Hc) as (Hws & _ & H93 & _).
      exists (S f). cbn [scan_once]. unfold scan_once_body.
      change (91 =? 34) with false. change (91 =? 123) with false.
      change (91 =? 91) with true. cbv iota.
      rewrite Hs in *. rewrite (skip_ws_start c r Hws), H93. exact Hf.
  - destruct depth as [|depth']; [discriminate He|].
    cbn [encoder_error] in He. apply first_error_none in He.
    rewrite dumps_dict. cbn [List.app]. rewrite <- app_assoc.
    cbn [List.app].
    destruct kvs as [|[k x] kvs].
    + exists 1%nat. reflexivity.
    + cbn [plain] in Hv. apply andb_true_iff in Hv. destruct Hv as [Hd Hv].
      assert (Hall : Forall (fun kv => forallb is_scalar (fst kv) = true
                       /\ plain fr (snd kv) = true
                       /\ forall rest, delim rest = true ->
                            exists fuel,
                              scan_once fuel depth'
                                (dumps fr (snd kv) ++ rest)
                              = Scanned (snd kv) rest) ((k, x) :: kvs)).
      { rewrite forallb_forall in Hv. rewrite Forall_forall in *.
        intros kv Hkv. specialize (Hv kv Hkv).
        apply andb_true_iff in Hv. destruct Hv as [Hk Hp].
        split; [exact Hk|split; [exact Hp|]].
        intros rest' Hrest'.
        apply (IH kv Hkv Hp depth' rest' (He kv Hkv) Hrest'). }
      destruct (object_loop_items depth' ((k, x) :: kvs) ltac:(discriminate)
                  Hall [] rest) as (f & Hf).
      rewrite (fold_dict_set_distinct ((k, x) :: kvs) [] Hd) in Hf.
      destruct (dict_items_start k x kvs (125 :: rest)) as (r & Hs).
      exists (S f). cbn [scan_once]. unfold scan_once_body.
      change (123 =? 34) with false. change (123 =? 123) with true.
      cbv iota. rewrite Hs in *.
      rewrite (skip_ws_start dquote r eq_refl).
      change (dquote =? 125) with false. cbv iota. exact Hf.
Qed.

(** What [json.dumps] returns is the text [dumps] gives. *)
Lemma json_dumps_text limit v s :
  json_dumps limit fr v = inr s ->
  s = dumps fr v /\ encoder_error limit v = None.
Proof.
  unfold json_dumps. destruct (encoder_error limit v); [discriminate|].
  intro H. inversion H. auto.
Qed.

Lemma json_loads_dumps limit v :
  plain fr v = true -> encoder_error limit v = None ->
  json_loads limit (dumps fr v) = inr v.
Proof.
  intros Hv He. destruct (dumps_start fr v Hv) as (c & r & Hd & Hc).
  destruct (value_start_facts c Hc) as (Hws & _ & _ & _ & _ & _ & Hbom).
  destruct (scan_once_dumps v Hv limit [] He eq_refl) as (f & Hf).
  rewrite app_nil_r in Hf.
  unfold json_loads. rewrite Hd in *.
  unfold startswith. cbn [strip_prefix].
  rewrite N.eqb_sym, Hbom. rewrite (skip_ws_start c r Hws).
  pose proof (scan_once_enough_fuel limit (c :: r)) as Hp.
  assert (Hs : scan_once (enough_fuel (c :: r)) limit (c :: r)
               = Scanned v []).
  { destruct (Nat.le_ge_cases f (enough_fuel (c :: r))) as [Hle|Hge].
    - rewrite (scan_once_more_fuel f _ _ _ Hle); [exact Hf|].
      rewrite Hf. discriminate.
    - rewrite <- (scan_once_more_fuel _ f _ _ Hge); [exact Hf|].
      intro He'. rewrite He' in Hp. exact Hp. }
  rewrite Hs. reflexivity.
Qed.

End RoundTrip.

(** ** Where the decoder stops *)

Section DecoderShape.

Lemma suffix_refl s : suffix s s.
Proof. now exists []. Qed.

Lemma suffix_trans a b c : suffix a b -> suffix b c -> suffix a c.
Proof.
  intros [p ->] [p' ->]. exists (p' ++ p). now rewrite app_assoc.
Qed.

Lemma suffix_cons c r s : suffix r s -> suffix r (c :: s).
Proof. intros [p ->]. now exists (c :: p). Qed.

Lemma suffix_tail c r s : suffix (c :: r) s -> suffix r s.
Proof.
  intros [p ->]. exists (p ++ [c]). now rewrite <- app_assoc.
Qed.

Lemma suffix_app p r : suffix r (p ++ r).
Proof. now exists p. Qed.

Ltac suffix_tac := first [apply suffix_refl | apply suffix_cons; suffix_tac].

Lemma skip_ws_suffix s : suffix (skip_ws s) s.
Proof.
  induction s as [|c s IH]; [apply suffix_refl|]. cbn.
  destruct (is_ws c); [now apply suffix_cons|apply suffix_refl].
Qed.

Lemma skip_ws_nil s : skip_ws s = [] -> forallb is_ws s = true.
Proof.
  induction s as [|c s IH]; [reflexivity|]. cbn.
  destruct (is_ws c); [exact IH|discriminate].
Qed.

Lemma strip_prefix_suffix p s r : strip_prefix p s = Some r -> suffix r s.
Proof.
  revert s. induction p as [|c p IH]; intros s H; cbn in H.
  - inversion H. apply suffix_refl.
  - destruct s as [|d s]; [discriminate|].
    destruct (c =? d); [|discriminate]. apply suffix_cons. now apply IH.
Qed.

Lemma scanstring_suffix n : forall s begin acc,
  (List.length s <= n)%nat ->
  match scanstring begin s acc with
  | Scanned _ rest => suffix rest s
  | _ => True
  end.
Proof.
  induction n as [|n IH]; intros s begin acc Hn.
  - destruct s; [exact I|cbn in Hn; lia].
  - destruct s as [|c s1]; [exact I|]. cbn [scanstring].
    assert (Hrec : forall s' acc',
               (List.length s' <= List.length s1)%nat ->
               suffix s' (c :: s1) ->
               match scanstring begin s' acc' with
               | Scanned _ rest => suffix rest (c :: s1)
               | _ => True
               end).
    { intros s' acc' Hs' Hsuf. cbn in Hn.
      specialize (IH s' begin acc' ltac:(lia)).
      destruct (scanstring begin s' acc'); auto.
      now apply (suffix_trans _ s'). }
    destruct (c =? 34); [suffix_tac|].
    destruct (c =? 92).
    + destruct s1 as [|e s2]; [exact I|].
      destruct (e =? 117).
      * destruct s2 as [|h1 [|h2 [|h3 [|h4 [|x s3']]]]]; try exact I.
        destruct (hex4val h1 h2 h3 h4) as [c1|]; [|exact I].
        destruct s3' as [|u2 [|g1 [|g2 [|g3 [|g4 [|y s4']]]]]];
          try (apply Hrec; [cbn; lia|suffix_tac]).
        destruct (is_high_surrogate c1 && (x =? 92) && (u2 =? 117));
          [|apply Hrec; [cbn; lia|suffix_tac]].
        destruct (hex4val g1 g2 g3 g4) as [c2|]; [|exact I].
        destruct (is_low_surrogate c2); apply Hrec;
          solve [cbn; lia|suffix_tac].
      * destruct (unescape e); [|exact I].
        apply Hrec; [cbn; lia|suffix_tac].
    + destruct (c <=? 31); [exact I|]. apply Hrec; [lia|suffix_tac].
Qed.

Lemma match_number_suffix s v r : match_number s = Scanned v r -> suffix r s.
Proof.
  unfold match_number. destruct (match_int s) as [[[neg ds] r1]|] eqn:Hi;
    [|discriminate].
  assert (H1 : suffix r1 s).
  { unfold match_int in Hi.
    destruct s as [|c s']; [discriminate|].
    destruct (c =? 45).
    - destruct s' as [|c' s2]; [discriminate|].
      destruct (c' =? 48); [inversion Hi; subst; suffix_tac|].
      destruct (is_digit c'); [|discriminate].
      destruct (span_digits s2) as [ds' r'] eqn:Hs.
      inversion Hi; subst. apply span_digits_app in Hs. subst s2.
      do 2 apply suffix_cons. apply suffix_app.
    - destruct (c =? 48); [inversion Hi; subst; suffix_tac|].
      destruct (is_digit c); [|discriminate].
      destruct (span_digits s') as [ds' r'] eqn:Hs.
      inversion Hi; subst. apply span_digits_app in Hs. subst s'.
      apply suffix_cons, suffix_app. }
  assert (H2 : suffix (snd (match_frac r1)) r1).
  { unfold match_frac. destruct r1 as [|c [|d s']]; try apply suffix_refl.
    destruct ((c =? 46) && is_digit d); [|apply suffix_refl].
    destruct (span_digits s') as [ds' r'] eqn:Hs.
    apply span_digits_app in Hs. subst s'. cbn [snd].
    do 2 apply suffix_cons. apply suffix_app. }
  destruct (match_frac r1) as [frac r2]. cbn [snd] in H2.
  assert (H3 : suffix (snd (match_exp r2)) r2).
  { unfold match_exp. destruct r2 as [|c s1]; [apply suffix_refl|].
    destruct ((c =? 101) || (c =? 69)); [|apply suffix_refl].
    set (p := match s1 with
              | d :: s' => if (d =? 45) || (d =? 43) then ([d], s') else ([], s1)
              | [] => ([], s1)
              end).
    assert (Hp : suffix (snd p) s1).
    { unfold p. destruct s1 as [|d s']; [apply suffix_refl|].
      destruct ((d =? 45) || (d =? 43)); cbn [snd]; suffix_tac. }
    destruct p as [sign s2]. cbn [snd] in Hp.
    destruct (span_digits s2) as [ds' r'] eqn:Hs.
    apply span_digits_app in Hs. subst s2.
    destruct ds'; cbn [snd]; [apply suffix_refl|].
    apply suffix_cons. apply (suffix_trans _ _ _ (suffix_app _ r') Hp). }
  destruct (match_exp r2) as [ex r3]. cbn [snd] in H3.
  assert (H : suffix r3 s)
    by (apply (suffix_trans _ r1); [apply (suffix_trans _ r2)|]; assumption).
  destruct frac, ex; [destruct (_ <? _)%nat; [discriminate|]|..];
    intro E; inversion E; subst; exact H.
Qed.

Lemma scan_body_closed obj arr depth :
  (forall s acc, closed_loop 125 s (obj s acc)) ->
  (forall s acc, closed_loop 93 s (arr s acc)) ->
  forall s, closed_scan s (scan_once_body obj arr depth s).
Proof.
  intros Hobj Harr s. unfold scan_once_body.
  destruct s as [|c s1]; [exact I|].
  destruct (c =? 34) eqn:E34.
  { unfold scan_string_value.
    pose proof (scanstring_suffix (List.length s1) s1
                  (List.length (c :: s1)) [] (le_n _)) as H.
    destruct (scanstring _ s1 []); try exact I. cbn.
    apply N.eqb_eq in E34. subst c.
    split; [now apply suffix_cons|]. split; discriminate. }
  pose proof (skip_ws_suffix s1) as Hws.
  destruct (c =? 123) eqn:E123.
  { apply N.eqb_eq in E123. subst c.
    destruct depth as [|depth']; [exact I|].
    destruct (skip_ws s1) as [|d r].
    - specialize (Hobj [] []). destruct (obj [] []); try exact I.
      cbn in *. assert (Hs : suffix (125 :: rest) (123 :: s1)).
      { apply suffix_cons. now apply (suffix_trans _ []). }
      split; [now apply suffix_tail in Hs|]. split; [discriminate|auto].
    - destruct (d =? 125) eqn:Ed.
      + apply N.eqb_eq in Ed. subst d. cbn.
        assert (Hs : suffix (125 :: r) (123 :: s1)) by now apply suffix_cons.
        split; [now apply suffix_tail in Hs|]. split; [discriminate|auto].
      + specialize (Hobj (d :: r) []). destruct (obj (d :: r) []);
          try exact I.
        cbn in *. assert (Hs : suffix (125 :: rest) (123 :: s1)).
        { apply suffix_cons. now apply (suffix_trans _ (d :: r)). }
        split; [now apply suffix_tail in Hs|]. split; [discriminate|auto]. }
  destruct (c =? 91) eqn:E91.
  { apply N.eqb_eq in E91. subst c.
    destruct depth as [|depth']; [exact I|].
    destruct (skip_ws s1) as [|d r].
    - specialize (Harr [] []). destruct (arr [] []); try exact I.
      cbn in *. assert (Hs : suffix (93 :: rest) (91 :: s1)).
      { apply suffix_cons. now apply (suffix_trans _ []). }
      split; [now apply suffix_tail in Hs|]. split; [auto|discriminate].
    - destruct (d =? 93) eqn:Ed.
      + apply N.eqb_eq in Ed. subst d. cbn.
        assert (Hs : suffix (93 :: r) (91 :: s1)) by now apply suffix_cons.
        split; [now apply suffix_tail in Hs|]. split; [auto|discriminate].
      + specialize (Harr (d :: r) []). destruct (arr (d :: r) []);
          try exact I.
        cbn in *. assert (Hs : suffix (93 :: rest) (91 :: s1)).
        { apply suffix_cons. now apply (suffix_trans _ (d :: r)). }
        split; [now apply suffix_tail in Hs|]. split; [auto|discriminate]. }
  assert (Hlit : forall v rest,
            suffix rest (c :: s1) ->
            closed_scan (c :: s1) (Scanned v rest)).
  { intros v rest Hs. cbn. rewrite E91, E123.
    split; [exact Hs|]. split; discriminate. }
  repeat match goal with
         | |- context [strip_prefix ?p ?s] =>
             let E := fresh "E" in
             destruct (strip_prefix p s) eqn:E;
             [apply Hlit; now apply (strip_prefix_suffix _ _ _ E)|]
         end.
  destruct (match_number (c :: s1)) as [v r| | |] eqn:En; try exact I.
  apply Hlit. now apply (match_number_suffix _ _ _ En).
Qed.

Lemma object_body_closed scan obj :
  (forall s, closed_scan s (scan s)) ->
  (forall s acc, closed_loop 125 s (obj s acc)) ->
  forall s acc, closed_loop 125 s (object_loop_body scan obj s acc).
Proof.
  intros Hscan Hobj s acc. unfold object_loop_body.
  destruct s as [|c s1]; [exact I|].
  destruct (c =? 34); [|exact I].
  pose proof (scanstring_suffix (List.length s1) s1
                (List.length (c :: s1)) [] (le_n _)) as Hk.
  destruct (scanstring _ s1 []) as [key r1| | |]; try exact I.
  pose proof (skip_ws_suffix r1) as Hw1.
  destruct (skip_ws r1) as [|d r2]; [exact I|].
  destruct (d =? 58); [|exact I].
  pose proof (skip_ws_suffix r2) as Hw2.
  pose proof (Hscan (skip_ws r2)) as Hv.
  destruct (scan (skip_ws r2)) as [v r3| | |]; try exact I.
  cbn in Hv. destruct Hv as [Hv _].
  pose proof (skip_ws_suffix r3) as Hw3.
  assert (Hr3 : suffix r3 (c :: s1)).
  { apply suffix_cons. apply (suffix_trans _ r1); [|exact Hk].
    apply (suffix_trans _ (d :: r2)); [|exact Hw1].
    apply suffix_cons. apply (suffix_trans _ (skip_ws r2)); assumption. }
  destruct (skip_ws r3) as [|e r4]; [exact I|].
  destruct (e =? 125) eqn:Ee.
  { apply N.eqb_eq in Ee. subst e. cbn.
    now apply (suffix_trans _ r3). }
  destruct (e =? 44); [|exact I].
  specialize (Hobj (skip_ws r4) (dict_set key v acc)).
  destruct (obj (skip_ws r4) (dict_set key v acc)); try exact I.
  cbn in *. apply (suffix_trans _ (skip_ws r4)); [exact Hobj|].
  apply (suffix_trans _ r4); [apply skip_ws_suffix|].
  apply (suffix_trans _ r3); [|exact Hr3].
  apply (suffix_tail e). exact Hw3.
Qed.

Lemma array_body_closed scan arr :
  (forall s, closed_scan s (scan s)) ->
  (forall s acc, closed_loop 93 s (arr s acc)) ->
  forall s acc, closed_loop 93 s (array_loop_body scan arr s acc).
Proof.
  intros Hscan Harr s acc. unfold array_loop_body.
  pose proof (Hscan s) as Hv.
  destruct (scan s) as [v r1| | |]; try exact I.
  cbn in Hv. destruct Hv as [Hv _].
  pose proof (skip_ws_suffix r1) as Hw1.
  destruct (skip_ws r1) as [|e r2]; [exact I|].
  destruct (e =? 93) eqn:Ee.
  { apply N.eqb_eq in Ee. subst e. cbn.
    now apply (suffix_trans _ r1). }
  destruct (e =? 44); [|exact I].
  specialize (Harr (skip_ws r2) (v :: acc)).
  destruct (arr (skip_ws r2) (v :: acc)); try exact I.
  cbn in *. apply (suffix_trans _ (skip_ws r2)); [exact Harr|].
  apply (suffix_trans _ r2); [apply skip_ws_suffix|].
  apply (suffix_trans _ r1); [|exact Hv].
  apply (suffix_tail e). exact Hw1.
Qed.

(** A list the scanner reads ends with a closing bracket, a mapping with
    a closing brace. *)
Lemma scanner_closed fuel : forall depth,
  (forall s, closed_scan s (scan_once fuel depth s))
  /\ (forall s acc, closed_loop 125 s (object_loop fuel depth s acc))
  /\ (forall s acc, closed_loop 93 s (array_loop fuel depth s acc)).
Proof.
  induction fuel as [|fuel IH]; intro depth.
  - repeat split; intros; exact I.
  - destruct (IH depth) as (IHs & IHo & IHa).
    destruct (IH (pred depth)) as (_ & IHo' & IHa').
    repeat split.
    + intro s. cbn [scan_once]. now apply scan_body_closed.
    + intros s acc. cbn [object_loop]. now apply object_body_closed.
    + intros s acc. cbn [array_loop]. now apply array_body_closed.
Qed.

(** A document that starts with an opening bracket, or brace, and that
    [json.loads] reads, has the closing bracket, or brace, as its last
    character but for whitespace. *)
Lemma json_loads_closed limit c s1 v closer :
  json_loads limit (c :: s1) = inr v ->
  (c = 91 /\ closer = 93) \/ (c = 123 /\ closer = 125) ->
  exists p ws,
    c :: s1 = p ++ closer :: ws /\ forallb is_ws ws = true.
Proof.
  intros H Hc. unfold json_loads in H.
  assert (Hstart : startswith [65279] (c :: s1) = false
                   /\ skip_ws (c :: s1) = c :: s1)
    by (destruct Hc as [[-> _]|[-> _]]; split; reflexivity).
  destruct Hstart as [Hb Hw]. rewrite Hb, Hw in H.
  pose proof (proj1 (scanner_closed (enough_fuel (c :: s1)) limit) (c :: s1))
    as Hcl.
  destruct (scan_once _ _ _) as [v' rest| | |]; try discriminate H.
  destruct (skip_ws rest) eqn:Hrest; [|discriminate H].
  cbn in Hcl. destruct Hcl as (_ & H91 & H123).
  assert (Hs : suffix (closer :: rest) (c :: s1)).
  { destruct Hc as [[-> ->]|[-> ->]]; [now apply H91|now apply H123]. }
  destruct Hs as [p Hp]. exists p, rest.
  split; [exact Hp|now apply skip_ws_nil].
Qed.

(** A text that starts with an opening bracket, or brace, and whose last
    character is neither whitespace nor the closing one, is not read. *)
Lemma json_loads_unclosed limit c s1 r z closer v :
  c :: s1 = r ++ [z] ->
  (c = 91 /\ closer = 93) \/ (c = 123 /\ closer = 125) ->
  is_ws z = false -> (z =? closer) = false ->
  json_loads limit (c :: s1) <> inr v.
Proof.
  intros Hz Hc Hws Hne H.
  destruct (json_loads_closed _ _ _ _ closer H Hc) as (p & ws & Hp & Hall).
  rewrite Hz in Hp.
  destruct ws as [|w ws] using rev_ind.
  - apply app_inj_tail in Hp. destruct Hp as [_ ->].
    now rewrite N.eqb_refl in Hne.
  - clear IHws. change (closer :: ws ++ [w]) with ((closer :: ws) ++ [w]) in Hp.
    rewrite app_assoc in Hp. apply app_inj_tail in Hp.
    destruct Hp as [_ ->]. rewrite forallb_app in Hall.
    apply andb_true_iff in Hall. destruct Hall as [_ Hall]. cbn in Hall.
    rewrite Hws in Hall. discriminate Hall.
Qed.

End DecoderShape.

(** ** Cleaning the response *)

Section Cleaning.

Lemma lstrip_length s : (List.length (lstrip s) <= List.length s)%nat.
Proof.
  induction s as [|c s IH]; cbn; [lia|]. destruct (isspace c); cbn; lia.
Qed.

Lemma re_sub_ws_fuel_any lit fuel1 : forall fuel2 s,
  lit <> [] ->
  (List.length s < fuel1)%nat -> (List.length s < fuel2)%nat ->
  re_sub_ws_fuel fuel1 lit s = re_sub_ws_fuel fuel2 lit s.
Proof.
  induction fuel1 as [|fuel1 IH]; intros fuel2 s Hlit H1 H2; [lia|].
  destruct fuel2 as [|fuel2]; [lia|].
  cbn [re_sub_ws_fuel]. destruct s as [|c s]; [reflexivity|].
  cbn [List.length] in *.
  destruct (strip_prefix lit (c :: s)) as [rest|] eqn:E.
  - apply strip_prefix_length in E. cbn [List.length] in E.
    pose proof (lstrip_length rest).
    assert (0 < List.length lit)%nat by (destruct lit; [congruence|cbn; lia]).
    apply IH; [exact Hlit|lia|lia].
  - f_equal. apply IH; [exact Hlit|lia|lia].
Qed.

(** The fuel [re_sub_ws] supplies is enough. *)
Lemma re_sub_ws_fuel_enough lit fuel s :
  lit <> [] -> (List.length s < fuel)%nat ->
  re_sub_ws_fuel fuel lit s = re_sub_ws lit s.
Proof.
  intros Hlit H. unfold re_sub_ws. apply re_sub_ws_fuel_any; auto.
Qed.

Lemma re_sub_ws_nil lit : re_sub_ws lit [] = [].
Proof. reflexivity. Qed.

Lemma re_sub_ws_match lit c s rest :
  lit <> [] ->
  strip_prefix lit (c :: s) = Some rest ->
  re_sub_ws lit (c :: s) = re_sub_ws lit (lstrip rest).
Proof.
  intros Hlit E. unfold re_sub_ws at 1. cbn [re_sub_ws_fuel]. rewrite E.
  apply re_sub_ws_fuel_enough; [exact Hlit|].
  apply strip_prefix_length in E. pose proof (lstrip_length rest).
  assert (0 < List.length lit)%nat by (destruct lit; [congruence|cbn; lia]).
  lia.
Qed.

Lemma re_sub_ws_skip lit c s :
  lit <> [] ->
  strip_prefix lit (c :: s) = None ->
  re_sub_ws lit (c :: s) = c :: re_sub_ws lit s.
Proof.
  intros Hlit E. unfold re_sub_ws at 1. cbn [re_sub_ws_fuel]. rewrite E.
  reflexivity.
Qed.

Lemma re_sub_ws_inert lit body tail :
  lit <> [] -> inert lit body tail ->
  re_sub_ws lit (body ++ tail) = body ++ re_sub_ws lit tail.
Proof.
  intros Hlit. induction body as [|c body IH]; intro Hin; [reflexivity|].
  cbn [List.app]. rewrite re_sub_ws_skip.
  - f_equal. apply IH. intros b1 b2 -> Hb2.
    apply (Hin (c :: b1) b2 eq_refl Hb2).
  - exact Hlit.
  - apply (Hin [] (c :: body) eq_refl). discriminate.
Qed.

Lemma lstrip_spaces ws tail :
  forallb isspace ws = true -> lstrip (ws ++ tail) = lstrip tail.
Proof.
  induction ws as [|c ws IH]; intro H; [reflexivity|].
  cbn in *. apply andb_true_iff in H. destruct H as [-> H]. now apply IH.
Qed.

Lemma lstrip_start c r : isspace c = false -> lstrip (c :: r) = c :: r.
Proof. intro H. cbn. now rewrite H. Qed.

Lemma space_not_backtick c : isspace c = true -> (96 =? c) = false.
Proof.
  intro H. destruct (96 =? c) eqn:E; [|reflexivity].
  apply N.eqb_eq in E. subst. discriminate H.
Qed.

Lemma spaces_inert lit ws tail :
  forallb isspace ws = true -> inert (96 :: lit) ws tail.
Proof.
  intros H b1 b2 -> Hb2. rewrite forallb_app in H.
  apply andb_true_iff in H. destruct H as [_ H].
  destruct b2 as [|c b2]; [congruence|].
  cbn [List.app strip_prefix forallb] in *.
  apply andb_true_iff in H. destruct H as [H _].
  now rewrite (space_not_backtick c H).
Qed.

Lemma strip_prefix_app_none p p' s :
  strip_prefix p s = None -> strip_prefix (p ++ p') s = None.
Proof.
  revert s. induction p as [|c p IH]; intros s H; [discriminate|].
  destruct s as [|d s]; [reflexivity|]. cbn in *.
  destruct (c =? d); [now apply IH|reflexivity].
Qed.

Lemma inert_longer lit lit' body tail :
  inert lit body tail -> inert (lit ++ lit') body tail.
Proof.
  intros H b1 b2 Hb Hb2. apply strip_prefix_app_none. now apply (H b1 b2).
Qed.

Lemma occurs_suffix lit b1 b2 :
  occurs lit (b1 ++ b2) = false -> b2 <> [] -> startswith lit b2 = false.
Proof.
  induction b1 as [|c b1 IH]; intros H Hb2.
  - destruct b2 as [|c b2]; [congruence|]. cbn in H.
    now apply orb_false_iff in H.
  - cbn in H. apply orb_false_iff in H. now apply IH.
Qed.

(** A body without triple backtick that does not end with a backtick is
    inert for the fence. *)
Lemma body_inert body r z tail :
  occurs fence body = false ->
  body = r ++ [z] -> (z =? 96) = false ->
  inert fence body tail.
Proof.
  intros Hocc Hend Hz b1 b2 Hb Hb2.
  pose proof (occurs_suffix fence b1 b2 ltac:(now rewrite <- Hb) Hb2) as Hs.
  assert (Hlast : exists r2, b2 = r2 ++ [z]).
  { destruct (exists_last Hb2) as (r2 & z' & ->). exists r2.
    rewrite Hend, app_assoc in Hb. apply app_inj_tail in Hb.
    destruct Hb as [_ ->]. reflexivity. }
  destruct Hlast as (r2 & ->).
  unfold startswith, fence in *. rewrite N.eqb_sym in Hz.
  destruct r2 as [|a [|b [|c r2]]]; cbn [List.app strip_prefix] in *.
  - now rewrite Hz.
  - destruct (96 =? a); [now rewrite Hz|reflexivity].
  - destruct (96 =? a); [|reflexivity].
    destruct (96 =? b); [now rewrite Hz|reflexivity].
  - destruct (96 =? a); [|reflexivity].
    destruct (96 =? b); [|reflexivity].
    destruct (96 =? c); [discriminate Hs|reflexivity].
Qed.

(** A fence followed by neither a backtick nor the letter j is inert for
    the tagged fence. *)
Lemma fence_inert tail :
  calm tail -> inert (fence ++ t "json") fence tail.
Proof.
  intros Hc b1 b2 Hb Hb2. unfold fence in *.
  destruct b1 as [|x1 [|x2 [|x3 [|x4 b1]]]]; cbn in Hb; inversion Hb; subst;
    try congruence.
  - destruct tail as [|c tail]; [reflexivity|].
    destruct Hc as [_ Hj]. rewrite N.eqb_sym in Hj.
    change (t "json") with [106; 115; 111; 110].
    cbn [List.app strip_prefix]. change (96 =? 96) with true. cbv iota.
    now rewrite Hj.
  - destruct tail as [|c tail]; [reflexivity|].
    destruct Hc as [Hb' _]. rewrite N.eqb_sym in Hb'.
    cbn [List.app strip_prefix]. change (96 =? 96) with true. cbv iota.
    now rewrite Hb'.
  - destruct tail as [|c tail]; [reflexivity|].
    destruct Hc as [Hb' _]. rewrite N.eqb_sym in Hb'.
    cbn [List.app strip_prefix]. change (96 =? 96) with true. cbv iota.
    now rewrite Hb'.
Qed.

Lemma calm_spaces ws tail :
  forallb isspace ws = true -> calm tail -> calm (ws ++ tail).
Proof.
  destruct ws as [|c ws]; [auto|]. cbn [List.app forallb calm]. intros H _.
  apply andb_true_iff in H. destruct H as [H _].
  split; destruct (_ =? _) eqn:E; try reflexivity;
    apply N.eqb_eq in E; subst; discriminate H.
Qed.

Lemma strip_body ws1 body ws3 c r r' z :
  forallb isspace ws1 = true -> forallb isspace ws3 = true ->
  body = c :: r -> isspace c = false ->
  body = r' ++ [z] -> isspace z = false ->
  strip (ws1 ++ body ++ ws3) = body.
Proof.
  intros H1 H3 Hc Hcs Hz Hzs. unfold strip, rstrip.
  rewrite (lstrip_spaces ws1 _ H1).
  rewrite Hc at 1. cbn [List.app]. rewrite (lstrip_start c _ Hcs).
  change (c :: r ++ ws3) with ((c :: r) ++ ws3). rewrite <- Hc.
  rewrite rev_app_distr.
  rewrite (lstrip_spaces (List.rev ws3)).
  - rewrite Hz at 1. rewrite rev_app_distr. cbn [List.rev List.app].
    rewrite (lstrip_start z _ Hzs).
    change (z :: List.rev r') with (List.rev [z] ++ List.rev r').
    rewrite <- rev_app_distr, <- Hz. apply rev_involutive.
  - rewrite forallb_forall in *. intros x Hx. apply H3.
    now apply in_rev.
Qed.

(** Cleaning a text wrapped in a fenced code block gives the text back,
    when it holds no fence marker, starts with a character that is neither
    whitespace nor a backtick nor the letter j, and ends with one that is
    neither whitespace nor a backtick. *)
Lemma clean_wrapped_body (tagged : bool) ws1 ws2 body ws3 ws4 c r r' z :
  forallb isspace ws1 = true -> forallb isspace ws2 = true ->
  forallb isspace ws3 = true -> forallb isspace ws4 = true ->
  occurs fence body = false ->
  body = c :: r ->
  isspace c = false -> (c =? 96) = false -> (c =? 106) = false ->
  body = r' ++ [z] -> isspace z = false -> (z =? 96) = false ->
  _clean_json_response
    (ws1 ++ fence ++ (if tagged then t "json" else []) ++ ws2 ++ body
     ++ ws3 ++ fence ++ ws4)
  = body.
Proof.
  intros H1 H2 H3 H4 Hocc Hc Hcsp Hc96 Hc106 Hz Hzsp Hz96.
  assert (Hlit1 : fence ++ t "json" <> []) by discriminate.
  assert (Hlit2 : fence <> []) by discriminate.
  assert (Hcalm_body : forall tail, calm (body ++ tail))
    by (intro tail; rewrite Hc; cbn; auto).
  assert (Hbody : forall tail, inert fence body tail)
    by (intro tail; now apply (body_inert body r' z)).
  (* the closing fence and what follows it *)
  assert (Hclose1 : re_sub_ws (fence ++ t "json") (ws3 ++ fence ++ ws4)
                    = ws3 ++ fence ++ ws4).
  { rewrite (re_sub_ws_inert _ ws3) by (auto; now apply (spaces_inert _ ws3)).
    rewrite (re_sub_ws_inert _ fence)
      by (auto; apply fence_inert;
          rewrite <- (app_nil_r ws4); now apply calm_spaces).
    rewrite <- (app_nil_r ws4) at 1.
    rewrite (re_sub_ws_inert _ ws4) by (auto; now apply (spaces_inert _ ws4)).
    now rewrite re_sub_ws_nil, app_nil_r. }
  assert (Hclose2 : re_sub_ws fence (ws3 ++ fence ++ ws4) = ws3).
  { rewrite (re_sub_ws_inert _ ws3)
      by (auto; now apply (spaces_inert [96; 96] ws3)).
    unfold fence at 2. cbn [List.app].
    rewrite (re_sub_ws_match fence 96 _ ws4) by (auto; reflexivity).
    rewrite <- (app_nil_r ws4), (lstrip_spaces ws4 [] H4).
    now rewrite app_nil_r. }
  assert (Hrest1 : re_sub_ws (fence ++ t "json") (body ++ ws3 ++ fence ++ ws4)
                   = body ++ ws3 ++ fence ++ ws4).
  { rewrite (re_sub_ws_inert _ body) by (auto; now apply inert_longer).
    now rewrite Hclose1. }
  assert (Hrest2 : re_sub_ws fence (body ++ ws3 ++ fence ++ ws4)
                   = body ++ ws3).
  { rewrite (re_sub_ws_inert _ body) by auto. now rewrite Hclose2. }
  assert (Hlstrip : lstrip (ws2 ++ body ++ ws3 ++ fence ++ ws4)
                    = body ++ ws3 ++ fence ++ ws4).
  { rewrite (lstrip_spaces ws2 _ H2). rewrite Hc at 1. cbn [List.app].
    rewrite (lstrip_start c _ Hcsp). now rewrite Hc. }
  unfold _clean_json_response.
  rewrite (re_sub_ws_inert _ ws1)
    by (auto; now apply (spaces_inert ([96; 96] ++ t "json") ws1)).
  destruct tagged.
  - assert (Hopen : re_sub_ws (fence ++ t "json")
                      (fence ++ t "json" ++ ws2 ++ body ++ ws3 ++ fence ++ ws4)
                    = body ++ ws3 ++ fence ++ ws4).
    { unfold fence at 2. cbn [List.app].
      rewrite (re_sub_ws_match _ 96 _ (ws2 ++ body ++ ws3 ++ fence ++ ws4))
        by (auto; reflexivity).
      now rewrite Hlstrip, Hrest1. }
    rewrite Hopen.
    rewrite (re_sub_ws_inert _ ws1)
      by (auto; now apply (spaces_inert [96; 96] ws1)).
    rewrite Hrest2.
    now apply (strip_body ws1 body ws3 c r r' z).
  - cbn [List.app].
    rewrite (re_sub_ws_inert _ fence)
      by (auto; apply fence_inert; apply calm_spaces; auto).
    rewrite (re_sub_ws_inert _ ws2)
      by (auto; now apply (spaces_inert ([96; 96] ++ t "json") ws2)).
    rewrite Hrest1.
    rewrite (re_sub_ws_inert _ ws1)
      by (auto; now apply (spaces_inert [96; 96] ws1)).
    unfold fence at 2. cbn [List.app].
    rewrite (re_sub_ws_match fence 96 _ (ws2 ++ body ++ ws3 ++ fence ++ ws4))
      by (auto; reflexivity).
    rewrite Hlstrip, Hrest2.
    now apply (strip_body ws1 body ws3 c r r' z).
Qed.

(** Cleaning a value wrapped in a fenced code block gives the value
    back. *)
Lemma clean_wrapped (tagged : bool) ws1 ws2 body ws3 ws4 c r r' z :
  forallb isspace ws1 = true -> forallb isspace ws2 = true ->
  forallb isspace ws3 = true -> forallb isspace ws4 = true ->
  occurs fence body = false ->
  body = c :: r -> value_start c = true ->
  body = r' ++ [z] -> value_end z = true ->
  _clean_json_response
    (ws1 ++ fence ++ (if tagged then t "json" else []) ++ ws2 ++ body
     ++ ws3 ++ fence ++ ws4)
  = body.
Proof.
  intros H1 H2 H3 H4 Hocc Hc Hcs Hz Hzs.
  destruct (value_start_facts c Hcs) as (_ & Hcsp & _ & _ & Hc96 & Hc106 & _).
  destruct (value_end_facts z Hzs) as (Hzsp & Hz96).
  now apply (clean_wrapped_body tagged ws1 ws2 body ws3 ws4 c r r' z).
Qed.

End Cleaning.

(** ** The cleaned response *)

Section CleaningNormalForm.

Lemma fence_nonempty : fence <> [].
Proof. discriminate. Qed.

Lemma tagged_fence_nonempty : fence ++ t "json" <> [].
Proof. discriminate. Qed.

(** The output of the second substitution starts with two backticks only
    if its input does. *)
Lemma re_sub_fence_two_backticks s :
  startswith [96; 96] s = false ->
  startswith [96; 96] (re_sub_ws fence s) = false.
Proof.
  unfold startswith. intro H.
  destruct s as [|a s]; [reflexivity|].
  cbn [strip_prefix] in H.
  destruct (96 =? a) eqn:Ea.
  - destruct s as [|b s].
    + rewrite (re_sub_ws_skip fence a [] fence_nonempty).
      2:{ unfold fence; cbn [strip_prefix]. now rewrite Ea. }
      rewrite re_sub_ws_nil. cbn [strip_prefix]. now rewrite Ea.
    + cbn [strip_prefix] in H. destruct (96 =? b) eqn:Eb; [discriminate H|].
      rewrite (re_sub_ws_skip fence a (b :: s) fence_nonempty)
        by (unfold fence; cbn [strip_prefix]; now rewrite Ea, Eb).
      rewrite (re_sub_ws_skip fence b s fence_nonempty)
        by (unfold fence; cbn [strip_prefix]; now rewrite Eb).
      cbn [strip_prefix]. now rewrite Ea, Eb.
  - rewrite (re_sub_ws_skip fence a s fence_nonempty)
      by (unfold fence; cbn [strip_prefix]; now rewrite Ea).
    cbn [strip_prefix]. now rewrite Ea.
Qed.

(** No fence marker is left by the second substitution. *)
Lemma re_sub_fence_no_fence s : occurs fence (re_sub_ws fence s) = false.
Proof.
  remember (List.length s) as n eqn:Hn. revert s Hn.
  induction n as [n IH] using lt_wf_ind. intros s Hn.
  destruct s as [|c s]; [reflexivity|].
  destruct (strip_prefix fence (c :: s)) as [rest|] eqn:E.
  - rewrite (re_sub_ws_match fence c s rest fence_nonempty E).
    apply (IH (List.length (lstrip rest))); [|reflexivity].
    apply strip_prefix_length in E. pose proof (lstrip_length rest).
    cbn in *. lia.
  - rewrite (re_sub_ws_skip fence c s fence_nonempty E).
    cbn [occurs]. rewrite (IH (List.length s)) by (cbn in Hn; lia || reflexivity).
    rewrite orb_false_r. unfold startswith.
    destruct (N.eqb_spec 96 c) as [<-|Hc].
    + assert (E2 : strip_prefix [96; 96] s = None) by exact E.
      pose proof (re_sub_fence_two_backticks s) as H2.
      unfold startswith in H2. rewrite E2 in H2. exact (H2 eq_refl).
    + unfold fence. cbn [strip_prefix]. apply N.eqb_neq in Hc.
      now rewrite Hc.
Qed.

Lemma strip_prefix_app_some p s r q :
  strip_prefix p s = Some r -> strip_prefix p (s ++ q) = Some (r ++ q).
Proof.
  revert s. induction p as [|c p IH]; intros s H; cbn in *.
  - now inversion H.
  - destruct s as [|d s]; [discriminate|]. cbn.
    destruct (c =? d); [now apply IH|discriminate].
Qed.

Lemma occurs_app_false lit a b :
  occurs lit (a ++ b) = false -> occurs lit a = false /\ occurs lit b = false.
Proof.
  induction a as [|c a IH]; intro H; [now split|].
  cbn [List.app occurs] in *. apply orb_false_iff in H.
  destruct H as [Hs H]. destruct (IH H) as [Ha Hb]. split; [|exact Hb].
  rewrite Ha, orb_false_r. unfold startswith in *.
  destruct (strip_prefix lit (c :: a)) as [r|] eqn:E; [|reflexivity].
  change (c :: a ++ b) with ((c :: a) ++ b) in Hs.
  now rewrite (strip_prefix_app_some lit (c :: a) r b E) in Hs.
Qed.

(** What [lstrip] removes is a prefix of spaces, what [rstrip] removes a
    suffix of spaces. *)
Lemma lstrip_split s :
  exists ws, s = ws ++ lstrip s /\ forallb isspace ws = true.
Proof.
  induction s as [|c s (ws & Hs & Hws)]; [now exists []|].
  cbn [lstrip]. destruct (isspace c) eqn:E.
  - exists (c :: ws). cbn. rewrite E, Hws. split; [now f_equal|reflexivity].
  - now exists [].
Qed.

Lemma rstrip_split s :
  exists ws, s = rstrip s ++ ws /\ forallb isspace ws = true.
Proof.
  unfold rstrip. destruct (lstrip_split (List.rev s)) as (ws & Hs & Hws).
  exists (List.rev ws). split.
  - rewrite <- rev_app_distr, <- Hs. now rewrite rev_involutive.
  - rewrite forallb_forall in *. intros x Hx. apply Hws. now apply in_rev.
Qed.

Lemma strip_split s :
  exists ws1 ws2,
    s = ws1 ++ strip s ++ ws2
    /\ forallb isspace ws1 = true /\ forallb isspace ws2 = true.
Proof.
  destruct (lstrip_split s) as (ws1 & H1 & Hw1).
  destruct (rstrip_split (lstrip s)) as (ws2 & H2 & Hw2).
  exists ws1, ws2. unfold strip. rewrite <- H2. auto.
Qed.

Lemma strip_no_occurrence lit s :
  occurs lit s = false -> occurs lit (strip s) = false.
Proof.
  intro H. destruct (strip_split s) as (ws1 & ws2 & Hs & _).
  rewrite Hs in H. apply occurs_app_false in H. destruct H as [_ H].
  now apply occurs_app_false in H.
Qed.

(** The cleaned text holds no fence marker. *)
Lemma cleaned_no_fence response :
  occurs fence (_clean_json_response response) = false.
Proof.
  unfold _clean_json_response. apply strip_no_occurrence.
  apply re_sub_fence_no_fence.
Qed.

Lemma lstrip_head s :
  match lstrip s with
  | [] => True
  | c :: _ => isspace c = false
  end.
Proof.
  induction s as [|c s IH]; [exact I|]. cbn [lstrip].
  destruct (isspace c) eqn:E; [exact IH|exact E].
Qed.

Lemma rstrip_last s :
  rstrip s = [] \/ exists r z, rstrip s = r ++ [z] /\ isspace z = false.
Proof.
  unfold rstrip. pose proof (lstrip_head (List.rev s)) as H.
  destruct (lstrip (List.rev s)) as [|z r]; [now left|].
  right. exists (List.rev r), z. split; [reflexivity|exact H].
Qed.

Lemma rstrip_fixed r z : isspace z = false -> rstrip (r ++ [z]) = r ++ [z].
Proof.
  intro H. unfold rstrip. rewrite rev_app_distr. cbn [List.rev List.app].
  cbn [lstrip]. rewrite H. cbn [List.rev].
  now rewrite rev_involutive.
Qed.

(** The head of a text is kept by [rstrip] unless everything goes. *)
Lemma rstrip_head c s :
  isspace c = false ->
  exists r, rstrip (c :: s) = c :: r.
Proof.
  intro Hc. destruct (rstrip_split (c :: s)) as (ws & Hs & Hws).
  destruct (rstrip (c :: s)) as [|d r] eqn:E.
  - cbn in Hs. subst ws. cbn in Hws. now rewrite Hc in Hws.
  - inversion Hs; subst. now exists r.
Qed.

(** The stripped text neither starts nor ends with whitespace. *)
Lemma strip_ends s :
  strip s = []
  \/ (exists c r, strip s = c :: r /\ isspace c = false)
     /\ (exists r z, strip s = r ++ [z] /\ isspace z = false).
Proof.
  unfold strip. pose proof (lstrip_head s) as Hh.
  destruct (lstrip s) as [|c l]; [now left|].
  right. split.
  - destruct (rstrip_head c l Hh) as (r & Hr). eauto.
  - destruct (rstrip_last (c :: l)) as [E|H]; [|exact H].
    destruct (rstrip_head c l Hh) as (r & Hr). congruence.
Qed.

Lemma strip_idempotent s : strip (strip s) = strip s.
Proof.
  destruct (strip_ends s) as [E|[(c & r & Hc & Hcs) (r' & z & Hz & Hzs)]].
  - now rewrite E.
  - unfold strip at 1. rewrite Hc at 1. cbn [lstrip]. rewrite Hcs.
    rewrite <- Hc, Hz. now apply rstrip_fixed.
Qed.

Lemma no_occurrence_inert lit body :
  occurs lit body = false -> inert lit body [].
Proof.
  intros H b1 b2 -> Hb2. rewrite app_nil_r.
  pose proof (occurs_suffix lit b1 b2 H Hb2) as Hs. unfold startswith in Hs.
  now destruct (strip_prefix lit b2).
Qed.

Lemma re_sub_ws_no_occurrence lit s :
  lit <> [] -> occurs lit s = false -> re_sub_ws lit s = s.
Proof.
  intros Hlit H. rewrite <- (app_nil_r s) at 1.
  rewrite (re_sub_ws_inert lit s [] Hlit (no_occurrence_inert lit s H)).
  now rewrite re_sub_ws_nil, app_nil_r.
Qed.

Lemma occurs_longer lit lit' s :
  occurs lit s = false -> occurs (lit ++ lit') s = false.
Proof.
  induction s as [|c s IH]; [reflexivity|]. cbn [occurs]. intro H.
  apply orb_false_iff in H. destruct H as [Hs H]. rewrite (IH H).
  rewrite orb_false_r. unfold startswith in *.
  destruct (strip_prefix lit (c :: s)) eqn:E; [discriminate|].
  now rewrite (strip_prefix_app_none lit lit' (c :: s) E).
Qed.

(** A text without fence marker is only stripped. *)
Lemma cleaned_without_fence response :
  occurs fence response = false ->
  _clean_json_response response = strip response.
Proof.
  intro H. unfold _clean_json_response.
  rewrite (re_sub_ws_no_occurrence _ _ tagged_fence_nonempty
             (occurs_longer fence (t "json") response H)).
  now rewrite (re_sub_ws_no_occurrence _ _ fence_nonempty H).
Qed.

(** X3. Cleaning is idempotent: a cleaned text is left as it is by a second
    cleaning. *)
Theorem clean_idempotent response :
  _clean_json_response (_clean_json_response response)
  = _clean_json_response response.
Proof.
  rewrite (cleaned_without_fence _ (cleaned_no_fence response)).
  unfold _clean_json_response. apply strip_idempotent.
Qed.

(** X2. The cleaned text is empty or starts and ends with a character that
    is not whitespace. *)
Theorem clean_ends response :
  _clean_json_response response = []
  \/ (exists c r, _clean_json_response response = c :: r /\ isspace c = false)
     /\ (exists r z, _clean_json_response response = r ++ [z]
                     /\ isspace z = false).
Proof. unfold _clean_json_response. apply strip_ends. Qed.

(** X1. Whatever the response, the cleaned text holds no triple
    backtick. *)
Theorem clean_no_fence response :
  occurs fence (_clean_json_response response) = false.
Proof. apply cleaned_no_fence. Qed.

(** X4. A response without triple backtick is only stripped of the
    whitespace around it. *)
Theorem clean_without_fence response :
  occurs fence response = false ->
  _clean_json_response response = strip response.
Proof. apply cleaned_without_fence. Qed.

Lemma clean_without_fence_witness :
  occurs fence (t "  [1, 2] ") = false
  /\ _clean_json_response (t "  [1, 2] ") = strip (t "  [1, 2] ").
Proof.
  split; [reflexivity|].
  apply (clean_without_fence (t "  [1, 2] ")). reflexivity.
Defined.



End CleaningNormalForm.

(** ** C5 and C6: the response parser *)

Section ParserFacts.

Lemma is_ws_isspace c : is_ws c = true -> isspace c = true.
Proof.
  unfold is_ws. rewrite !orb_true_iff, !N.eqb_eq.
  intros [[[->| ->]| ->]| ->]; reflexivity.
Qed.

Lemma strip_prefix_other a p c r :
  (c =? a) = false -> strip_prefix (a :: p) (c :: r) = None.
Proof. intro H. cbn. now rewrite N.eqb_sym, H. Qed.

Lemma startswith_false p s :
  startswith p s = false -> strip_prefix p s = None.
Proof. unfold startswith. now destruct (strip_prefix p s). Qed.

(** A text that starts as no JSON document does is rejected at its first
    character. *)
Lemma json_loads_no_value limit s :
  starts_no_value s = true ->
  json_loads limit s
  = inl (JSONDecodeErr (mkJSONDecodeError (t "Expecting value") s 0)).
Proof.
  destruct s as [|c r]; [reflexivity|]. unfold starts_no_value.
  rewrite andb_true_iff, !negb_true_iff, !orb_false_iff.
  intros [((((((Hws & Hbom) & H34) & H123) & H91) & H45) & Hd)
          ((((Hnull & Htrue) & Hfalse) & Hnan) & Hinf)].
  apply startswith_false in Hnull, Htrue, Hfalse, Hnan, Hinf.
  unfold json_loads, startswith.
  rewrite (strip_prefix_other 65279 [] c r Hbom).
  rewrite (skip_ws_start c r Hws).
  unfold enough_fuel. cbn [Nat.mul Nat.add List.length scan_once].
  unfold scan_once_body. rewrite H34, H123, H91.
  rewrite Hnull, Htrue, Hfalse, Hnan, Hinf.
  replace (strip_prefix (t "-Infinity") (c :: r)) with (@None text)
    by (symmetry; exact (strip_prefix_other 45 (t "Infinity") c r H45)).
  unfold match_number, match_int. rewrite H45.
  assert (H48 : (c =? 48) = false).
  { destruct (N.eqb_spec c 48) as [->|_]; [discriminate Hd|reflexivity]. }
  rewrite H48, Hd. cbn [List.length]. now rewrite Nat.sub_diag.
Qed.

(** The syntax error of the decoder is about the document it was
    given. *)
Lemma json_loads_doc limit s e :
  json_loads limit s = inl (JSONDecodeErr e) ->
  doc e = s /\ (pos e <= List.length s)%nat.
Proof.
  unfold json_loads. destruct (startswith [65279] s).
  - intro H. inversion H. cbn. split; [reflexivity|lia].
  - destruct (scan_once _ _ _) as [v rest|m remaining|le|].
    + destruct (skip_ws rest); intro H; inversion H. cbn.
      split; [reflexivity|lia].
    + intro H. inversion H. cbn. split; [reflexivity|lia].
    + destruct le; discriminate.
    + intro H. inversion H. cbn. split; [reflexivity|lia].
Qed.





End ParserFacts.



(** * Further properties *)

(** ** Envelopes, exceptions and prompts of [extract] *)

Section EngineInvariants.

Variable St : Type.
Variable call : text -> St -> result text * St.
Variable schema_json : text.
Variable sv : list ErrorDetails -> text.
Variable limit : nat.

Local Abbreviation extract' := (extract call schema_json sv limit).
Local Abbreviation loop' := (extract_loop call sv limit).

(** What the loop returns: a success envelope for one of the attempts,
    with the text of that attempt and the record read from it, or the
    failure envelope. *)
Lemma loop_envelope attempts d prompt le rr s env s' :
  loop' attempts d prompt le rr s = (inr env, s') ->
  (success env = true /\ In (retries env) attempts /\ error env = None
   /\ exists raw data md,
        raw_response env = Some raw /\ metadata env = Some md
        /\ _parse_response limit raw = inr data /\ _validate data = inr md)
  \/ (success env = false /\ retries env = max_retries
      /\ metadata env = None /\ exists m, error env = Some m).
Proof.
  unfold loop'. revert prompt le rr s.
  induction attempts as [|attempt attempts IH]; intros prompt le rr s H.
  - cbn in H. inversion H; subst. right. cbn. eauto.
  - cbn [extract_loop] in H. unfold attempt_once in H.
    set (prompt' := if (0 <? attempt)%nat then _ else _) in H.
    assert (Hnext : forall le' rr' s1,
              extract_loop call sv limit attempts d prompt' le' rr' s1
              = (inr env, s') ->
              (success env = true /\ In (retries env) (attempt :: attempts)
               /\ error env = None
               /\ exists raw data md,
                    raw_response env = Some raw /\ metadata env = Some md
                    /\ _parse_response limit raw = inr data
                    /\ _validate data = inr md)
              \/ (success env = false /\ retries env = max_retries
                  /\ metadata env = None /\ exists m, error env = Some m)).
    { intros le' rr' s1 H'.
      destruct (IH _ _ _ _ H') as [(Hs & Hin & He & Hx)|Hf];
        [left|right; exact Hf].
      repeat split; auto. now right. }
    destruct (call prompt' s) as [[e|raw] s1].
    + destruct (is_caught e); [now apply Hnext in H|discriminate H].
    + destruct (_parse_response limit raw) as [e|data] eqn:Hp; cbn [bind] in H.
      * destruct (is_caught e); [now apply Hnext in H|discriminate H].
      * destruct (_validate data) as [e|md] eqn:Hv.
        -- destruct (is_caught e); [now apply Hnext in H|discriminate H].
        -- inversion H; subst. left. cbn. repeat split; auto.
           exists raw, data, md. auto.
Qed.

(** An exception that leaves the loop was raised by a call and is of no
    caught class, or is the [RecursionError] of the decoder, or is the
    [TypeError] of a response that parses to a value that is not a
    mapping. *)
Lemma uncaught_failure raw e :
  (data <- _parse_response limit raw ;; _validate data) = inl e ->
  is_caught e = false ->
  (_parse_response limit raw = inl e
   /\ exists container,
        e = RecursionError
              (t "maximum recursion depth exceeded while decoding a JSON "
               ++ container ++ t " from a unicode string"))
  \/ exists data,
       _parse_response limit raw = inr data
       /\ (forall items, data <> JDict items)
       /\ e = TypeError
                (t "src.schemas.ContentMetadata() argument after ** must be a mapping, not "
                 ++ type_name data).
Proof.
  intros H He. destruct (_parse_response limit raw) as [e'|data] eqn:Hp;
    cbn [bind] in H.
  - inversion H; subst e'. left. split; [reflexivity|].
    destruct (parse_response_error limit _ _ Hp)
      as [(je & _ & ->)|(le & _ & ->)]; [discriminate He|].
    destruct le as [container|n]; [|discriminate He]. now exists container.
  - right. exists data. split; [reflexivity|].
    destruct data;
      try (split; [discriminate|]; cbn in H; now inversion H).
    rewrite (validate_mapping_error_caught _ _ H) in He. discriminate He.
Qed.

Lemma loop_raise_origin attempts d prompt le rr s e s' :
  loop' attempts d prompt le rr s = (inl e, s') ->
  is_caught e = false
  /\ ((exists p s1, call p s1 = (inl e, s'))
      \/ (exists p s1 raw container,
            call p s1 = (inr raw, s')
            /\ _parse_response limit raw = inl e
            /\ e = RecursionError
                     (t "maximum recursion depth exceeded while decoding a JSON "
                      ++ container ++ t " from a unicode string"))
      \/ exists p s1 raw data,
           call p s1 = (inr raw, s')
           /\ _parse_response limit raw = inr data
           /\ (forall items, data <> JDict items)
           /\ e = TypeError
                    (t "src.schemas.ContentMetadata() argument after ** must be a mapping, not "
                     ++ type_name data)).
Proof.
  unfold loop'. revert prompt le rr s.
  induction attempts as [|attempt attempts IH]; intros prompt le rr s H.
  - discriminate H.
  - cbn [extract_loop] in H. unfold attempt_once in H.
    set (prompt' := if (0 <? attempt)%nat then _ else _) in H.
    destruct (call prompt' s) as [[e'|raw] s1] eqn:Hc.
    + destruct (is_caught e') eqn:He; [now apply IH in H|].
      inversion H; subst. split; [exact He|]. left. eauto.
    + destruct (raw' <- _parse_response limit raw ;; _validate raw') as [e'|md]
        eqn:Hb; [|discriminate H].
      destruct (is_caught e') eqn:He; [now apply IH in H|].
      inversion H; subst. split; [exact He|]. right.
      destruct (uncaught_failure raw e Hb He)
        as [(Hp & container & ->)|(data & Hp & Hd & ->)].
      * left. exists prompt', s, raw, container. auto.
      * right. exists prompt', s, raw, data. auto.
Qed.

(** Recording the calls does not change what [extract] does. *)
Lemma loop_recorded_same attempts d prompt le rr s log :
  let '(r, sl) :=
    extract_loop (recorded call) sv limit attempts d prompt le rr (s, log) in
  (r, fst sl) = loop' attempts d prompt le rr s.
Proof.
  unfold loop'. revert prompt le rr s log.
  induction attempts as [|attempt attempts IH]; intros prompt le rr s log.
  - reflexivity.
  - cbn [extract_loop]. unfold attempt_once, recorded. cbn [fst snd].
    set (prompt' := if (0 <? attempt)%nat then _ else _).
    destruct (call prompt' s) as [[e|raw] s1].
    + destruct (is_caught e); [apply IH|reflexivity].
    + destruct (raw' <- _parse_response limit raw ;; _validate raw') as [e|md].
      * destruct (is_caught e); [apply IH|reflexivity].
      * reflexivity.
Qed.

(** The prompts of the attempts [k, k+1, ...]. *)
Lemma loop_recorded_prompts m k d prompt le rr s log :
  let '(r, sl) :=
    extract_loop (recorded call) sv limit (seq k m) d prompt le rr (s, log) in
  exists new,
    snd sl = log ++ new
    /\ map fst new
       = prompts_sent sv limit d
           (if (0 <? k)%nat
            then RETRY_PROMPT_format (str_last_error sv le) d else prompt)
           (map snd new).
Proof.
  revert k prompt le rr s log.
  induction m as [|m IH]; intros k prompt le rr s log.
  - cbn. exists []. rewrite app_nil_r. split; reflexivity.
  - cbn [seq extract_loop]. unfold attempt_once, recorded. cbn [fst snd].
    set (prompt' := if (0 <? k)%nat then _ else _).
    destruct (call prompt' s) as [[e|raw] s1].
    + destruct (is_caught e).
      * specialize (IH (S k) prompt' (Some e) rr s1
                      (log ++ [(prompt', inl e)])).
        cbv beta iota.
        destruct (extract_loop _ _ _ _ _ _ _ _) as [r sl].
        destruct IH as (new & Hnew & Hp).
        exists ((prompt', inl e) :: new). split.
        -- rewrite Hnew, <- app_assoc. reflexivity.
        -- cbn [map fst snd prompts_sent attempt_failure]. f_equal.
           exact Hp.
      * exists [(prompt', inl e)]. split; reflexivity.
    + cbv beta iota.
      destruct (raw' <- _parse_response limit raw ;; _validate raw') as [e|md]
        eqn:Hb.
      * destruct (is_caught e).
        -- specialize (IH (S k) prompt' (Some e) (Some raw) s1
                         (log ++ [(prompt', inr raw)])).
           destruct (extract_loop _ _ _ _ _ _ _ _) as [r sl].
           destruct IH as (new & Hnew & Hp).
           exists ((prompt', inr raw) :: new). split.
           ++ rewrite Hnew, <- app_assoc. reflexivity.
           ++ cbn [map fst snd prompts_sent]. unfold attempt_failure at 1.
              rewrite Hb. f_equal. exact Hp.
        -- exists [(prompt', inr raw)]. split; reflexivity.
      * exists [(prompt', inr raw)]. split; reflexivity.
Qed.

(** The text kept in the envelope. *)
Lemma loop_recorded_raw attempts d prompt le rr s log :
  let '(r, sl) :=
    extract_loop (recorded call) sv limit attempts d prompt le rr (s, log) in
  exists new,
    snd sl = log ++ new
    /\ match r with
       | inr env => raw_response env = last_text rr (map snd new)
       | inl _ => True
       end.
Proof.
  revert prompt le rr s log.
  induction attempts as [|attempt attempts IH]; intros prompt le rr s log.
  - cbn. exists []. rewrite app_nil_r. split; reflexivity.
  - cbn [extract_loop]. unfold attempt_once, recorded. cbn [fst snd].
    set (prompt' := if (0 <? attempt)%nat then _ else _).
    destruct (call prompt' s) as [[e|raw] s1]; cbv beta iota.
    + destruct (is_caught e).
      * specialize (IH prompt' (Some e) rr s1 (log ++ [(prompt', inl e)])).
        destruct (extract_loop _ _ _ _ _ _ _ _) as [r sl].
        destruct IH as (new & Hnew & Hr).
        exists ((prompt', inl e) :: new). split; [|exact Hr].
        rewrite Hnew, <- app_assoc. reflexivity.
      * exists [(prompt', inl e)]. split; [reflexivity|exact I].
    + destruct (raw' <- _parse_response limit raw ;; _validate raw') as [e|md].
      * destruct (is_caught e).
        -- specialize (IH prompt' (Some e) (Some raw) s1
                         (log ++ [(prompt', inr raw)])).
           destruct (extract_loop _ _ _ _ _ _ _ _) as [r sl].
           destruct IH as (new & Hnew & Hr).
           exists ((prompt', inr raw) :: new). split; [|exact Hr].
           rewrite Hnew, <- app_assoc. reflexivity.
        -- exists [(prompt', inr raw)]. split; [reflexivity|exact I].
      * exists [(prompt', inr raw)]. split; reflexivity.
Qed.

Lemma last_cons {A : Type} (x : A) l d : last (x :: l) d = last l x.
Proof.
  revert x d. induction l as [|y l IH]; intros x d; [reflexivity|].
  change (last (x :: y :: l) d) with (last (y :: l) d).
  now rewrite (IH y d), (IH y x).
Qed.

(** The outcomes of the calls made by the attempts [k, k+1, ..., k+m-1]:
    all but the last are failures of a caught class; the last decides. *)
Lemma loop_recorded_trace m k d prompt le rr s log :
  let '(r, sl) :=
    extract_loop (recorded call) sv limit (seq k m) d prompt le rr (s, log) in
  exists new,
    snd sl = log ++ new
    /\ (List.length new <= m)%nat
    /\ match r with
       | inl e =>
           exists init o,
             map snd new = init ++ [o] /\ forallb (retried limit) init = true
             /\ attempt_failure limit o = Some e /\ is_caught e = false
       | inr env =>
           if success env
           then exists init o,
                  map snd new = init ++ [o] /\ forallb (retried limit) init = true
                  /\ attempt_failure limit o = None
                  /\ retries env = (k + List.length init)%nat
           else forallb (retried limit) (map snd new) = true
                /\ List.length new = m
                /\ error env
                   = Some (str_last_error sv
                             (last (map (attempt_failure limit)
                                      (map snd new)) le))
       end.
Proof.
  revert k prompt le rr s log.
  induction m as [|m IH]; intros k prompt le rr s log.
  - cbn. exists []. rewrite app_nil_r. repeat split. apply Nat.le_refl.
  - cbn [seq extract_loop]. unfold attempt_once, recorded. cbn [fst snd].
    set (prompt' := if (0 <? k)%nat then _ else _).
    assert (Hnext : forall o e rr' s1 r sl,
              attempt_failure limit o = Some e -> is_caught e = true ->
              extract_loop (recorded call) sv limit (seq (S k) m) d prompt'
                (Some e) rr' (s1, log ++ [(prompt', o)]) = (r, sl) ->
              exists new,
                snd sl = log ++ new
                /\ (List.length new <= S m)%nat
                /\ match r with
                   | inl e =>
                       exists init o,
                         map snd new = init ++ [o]
                         /\ forallb (retried limit) init = true
                         /\ attempt_failure limit o = Some e
                         /\ is_caught e = false
                   | inr env =>
                       if success env
                       then exists init o,
                              map snd new = init ++ [o]
                              /\ forallb (retried limit) init = true
                              /\ attempt_failure limit o = None
                              /\ retries env = (k + List.length init)%nat
                       else forallb (retried limit) (map snd new) = true
                            /\ List.length new = S m
                            /\ error env
                               = Some (str_last_error sv
                                         (last (map (attempt_failure limit)
                                                  (map snd new)) le))
                   end).
    { intros o e rr' s1 r sl Ho He Hl.
      specialize (IH (S k) prompt' (Some e) rr' s1 (log ++ [(prompt', o)])).
      rewrite Hl in IH. destruct IH as (new & Hnew & Hle & Hr).
      assert (Hret : retried limit o = true) by (unfold retried; now rewrite Ho).
      exists ((prompt', o) :: new). split.
      { rewrite Hnew, <- app_assoc. reflexivity. }
      split; [cbn [List.length]; lia|].
      cbn [map snd]. destruct r as [e'|env].
      - destruct Hr as (init & o' & Hm & Hi & Hf & Hc).
        exists (o :: init), o'. rewrite Hm. cbn [forallb]. rewrite Hret, Hi.
        auto.
      - destruct (success env).
        + destruct Hr as (init & o' & Hm & Hi & Hf & Hc).
          exists (o :: init), o'. rewrite Hm. cbn [forallb List.length].
          rewrite Hret, Hi, Hc. repeat split; auto.
        + destruct Hr as (Hall & Hlen & Herr).
          cbn [forallb List.length]. rewrite Hret, Hall, Hlen, Herr.
          repeat split. rewrite last_cons, Ho. reflexivity. }
    destruct (call prompt' s) as [[e|raw] s1]; cbv beta iota.
    + destruct (is_caught e) eqn:He.
      * destruct (extract_loop _ _ _ _ _ _ _ _) as [r sl] eqn:Hl.
        apply (Hnext (inl e) e rr s1 r sl eq_refl He Hl).
      * exists [(prompt', inl e)]. split; [reflexivity|].
        split; [cbn; lia|]. exists [], (inl e). auto.
    + destruct (raw' <- _parse_response limit raw ;; _validate raw') as [e|md]
        eqn:Hb.
      * assert (Ho : attempt_failure limit (inr raw) = Some e)
          by (unfold attempt_failure; now rewrite Hb).
        destruct (is_caught e) eqn:He.
        -- destruct (extract_loop _ _ _ _ _ _ _ _) as [r sl] eqn:Hl.
           apply (Hnext (inr raw) e (Some raw) s1 r sl Ho He Hl).
        -- exists [(prompt', inr raw)]. split; [reflexivity|].
           split; [cbn; lia|]. exists [], (inr raw). auto.
      * assert (Ho : attempt_failure limit (inr raw) = None)
          by (unfold attempt_failure; now rewrite Hb).
        exists [(prompt', inr raw)]. split; [reflexivity|].
        split; [cbn; lia|].
        cbn [success retries]. exists [], (inr raw). cbn.
        rewrite Nat.add_0_r. auto.
Qed.


(** X6. Every envelope [extract] returns is one of two kinds.  A success
    envelope has a record, a raw text and no error, and a number of retries
    that is at most [max_retries]; a failure envelope has no record, an
    error text, and [max_retries] retries. *)
Theorem extract_envelope_invariants description s env s' :
  extract' description s = (inr env, s') ->
  (retries env <= max_retries)%nat
  /\ (if success env
      then metadata env <> None /\ raw_response env <> None
           /\ error env = None
      else metadata env = None /\ error env <> None
           /\ retries env = max_retries).
Proof.
  unfold extract', extract. fold loop'. intro H.
  destruct (loop_envelope _ _ _ _ _ _ _ _ H)
    as [(-> & Hin & -> & raw & data & md & -> & -> & _)
       |(-> & -> & -> & m & ->)].
  - split; [|repeat split; discriminate].
    cbn in Hin. unfold max_retries.
    destruct Hin as [<-|[<-|[<-|[]]]]; lia.
  - split; [lia|]. repeat split. discriminate.
Qed.

(** X7. The record of a success envelope is what the validator builds from
    the value the parser reads in the envelope's raw text. *)
Theorem extract_success_consistent description s env s' :
  extract' description s = (inr env, s') ->
  success env = true ->
  exists raw data md,
    raw_response env = Some raw /\ metadata env = Some md
    /\ _parse_response limit raw = inr data /\ _validate data = inr md.
Proof.
  unfold extract', extract. fold loop'. intros H Hs.
  destruct (loop_envelope _ _ _ _ _ _ _ _ H)
    as [(_ & _ & _ & Hx)|(Hf & _)]; [exact Hx|congruence].
Qed.


(** X9. A first response that parses to a value that is not a mapping
    makes [extract] raise a [TypeError] at once: no retry is made and no
    envelope is returned. *)
Theorem extract_raises_on_non_mapping description s raw s1 data :
  call (EXTRACTION_PROMPT_format description
          (_get_schema_string schema_json)) s = (inr raw, s1) ->
  _parse_response limit raw = inr data ->
  (forall items, data <> JDict items) ->
  extract' description s
  = (inl (TypeError
            (t "src.schemas.ContentMetadata() argument after ** must be a mapping, not "
             ++ type_name data)), s1).
Proof.
  intros Hc Hp Hd. unfold extract', extract.
  cbn [seq Nat.add max_retries extract_loop Nat.ltb Nat.leb].
  unfold attempt_once. rewrite Hc, Hp. cbn [bind].
  destruct data; try reflexivity. now destruct (Hd items).
Qed.

(** X10. With the calls recorded: the first prompt is the extraction
    prompt for the description and the schema, and every later prompt is
    the retry prompt for the same description and the message of the
    failure of the attempt just before it.  The recording leaves the
    outcome unchanged. *)
Theorem extract_prompts_sent description s :
  let '(r, sl) :=
    extract (recorded call) schema_json sv limit description (s, []) in
  (r, fst sl) = extract' description s
  /\ map fst (snd sl)
     = prompts_sent sv limit description
         (EXTRACTION_PROMPT_format description
            (_get_schema_string schema_json))
         (map snd (snd sl)).
Proof.
  unfold extract', extract.
  pose proof (loop_recorded_same (seq 0 (1 + max_retries)) description
                (EXTRACTION_PROMPT_format description
                   (_get_schema_string schema_json)) None None s [])
    as Hsame.
  pose proof (loop_recorded_prompts (1 + max_retries) 0 description
                (EXTRACTION_PROMPT_format description
                   (_get_schema_string schema_json)) None None s [])
    as Hp.
  destruct (extract_loop _ _ _ _ _ _ _ _) as [r sl].
  split; [exact Hsame|].
  destruct Hp as (new & Hnew & Hp). rewrite Hnew. exact Hp.
Qed.

(** X11. With the calls recorded: the raw text of an envelope is the text
    returned by the last call that returned one, and is absent when every
    call raised. *)
Theorem extract_raw_response_last_text description s :
  let '(r, sl) :=
    extract (recorded call) schema_json sv limit description (s, []) in
  match r with
  | inr env => raw_response env = last_text None (map snd (snd sl))
  | inl _ => True
  end.
Proof.
  unfold extract.
  pose proof (loop_recorded_raw (seq 0 (1 + max_retries)) description
                (EXTRACTION_PROMPT_format description
                   (_get_schema_string schema_json)) None None s [])
    as Hr.
  destruct (extract_loop _ _ _ _ _ _ _ _) as [r sl].
  destruct Hr as (new & Hnew & Hr). rewrite Hnew. exact Hr.
Qed.


(** X13. A first response that parses and validates gives the success
    envelope with no retry, after exactly one call. *)
Theorem extract_first_attempt_success description s raw s1 data md :
  call (EXTRACTION_PROMPT_format description
          (_get_schema_string schema_json)) s = (inr raw, s1) ->
  _parse_response limit raw = inr data ->
  _validate data = inr md ->
  extract (counted call) schema_json sv limit description (s, 0%nat)
  = (inr (mkEnvelope (Some md) (Some raw) 0 true None), (s1, 1%nat)).
Proof.
  intros Hc Hp Hv. unfold extract.
  cbn [seq Nat.add max_retries extract_loop Nat.ltb Nat.leb].
  unfold attempt_once, counted. cbn [fst snd]. rewrite Hc, Hp. cbn [bind].
  now rewrite Hv.
Qed.

End EngineInvariants.

Lemma extract_envelope_invariants_witness :
  (1 <= max_retries)%nat
  /\ Some valid_metadata <> None /\ Some valid_response <> None
  /\ @None text = None.
Proof.
  apply (extract_envelope_invariants _ scripted (t "schema")
           some_str_ValidationError default_depth (t "A fun romantic comedy")
           [inr (t "Not valid JSON"); inr valid_response]
           (mkEnvelope (Some valid_metadata) (Some valid_response) 1 true
              None) []).
  vm_compute. reflexivity.
Defined.


Lemma extract_success_consistent_witness :
  exists raw data md,
    Some valid_response = Some raw /\ Some valid_metadata = Some md
    /\ _parse_response default_depth raw = inr data
    /\ _validate data = inr md.
Proof.
  apply (extract_success_consistent _ scripted (t "schema")
           some_str_ValidationError default_depth (t "A fun romantic comedy")
           [inr (t "Not valid JSON"); inr valid_response]
           (mkEnvelope (Some valid_metadata) (Some valid_response) 1 true
              None) []).
  - vm_compute. reflexivity.
  - reflexivity.
Defined.


Lemma extract_raises_on_non_mapping_witness :
  extract scripted (t "schema") some_str_ValidationError default_depth
    (t "Test description") [inr (t "[1, 2]"); inr valid_response]
  = (inl (TypeError
            (t "src.schemas.ContentMetadata() argument after ** must be a mapping, not list")),
     [inr valid_response]).
Proof.
  apply (extract_raises_on_non_mapping _ scripted (t "schema")
           some_str_ValidationError default_depth (t "Test description")
           [inr (t "[1, 2]"); inr valid_response] (t "[1, 2]")
           [inr valid_response] (JList [JInt 1; JInt 2])).
  - reflexivity.
  - vm_compute. reflexivity.
  - intros items. discriminate.
Defined.

Lemma extract_first_attempt_success_witness :
  extract (counted scripted) (t "schema") some_str_ValidationError default_depth
    (t "A dark tale about a blackjack dealer") ([inr valid_response], 0%nat)
  = (inr (mkEnvelope (Some valid_metadata) (Some valid_response) 0 true
            None), ([], 1%nat)).
Proof.
  apply (extract_first_attempt_success _ scripted (t "schema")
           some_str_ValidationError default_depth
           (t "A dark tale about a blackjack dealer") [inr valid_response]
           valid_response [] (JDict valid_mapping) valid_metadata).
  - reflexivity.
  - vm_compute. reflexivity.
  - vm_compute. reflexivity.
Defined.

(** ** What the validator reads and reports *)

Section ValidatorSoundness.

Lemma item_errors_nil name i xs :
  item_errors name i xs = [] -> xs = map JStr (item_strings xs).
Proof.
  revert i. induction xs as [|x xs IH]; intro i; [reflexivity|].
  destruct x; cbn; try discriminate. intro H. f_equal. now apply (IH (S i)).
Qed.

Lemma validate_list_str_inr name default items ss :
  validate_list_str name default items = inr ss ->
  match dict_get name items with
  | Some v => v = JList (map JStr ss)
  | None => default = Some ss
  end.
Proof.
  unfold validate_list_str. destruct (dict_get name items) as [v|].
  - destruct v; try discriminate.
    destruct (item_errors name 0 xs) eqn:E; [|discriminate].
    intro H. inversion H; subst. f_equal. now apply (item_errors_nil name 0%nat).
  - destruct default; [|discriminate]. intro H. now inversion H.
Qed.

Lemma validate_str_inr name items s :
  validate_str name items = inr s -> dict_get name items = Some (JStr s).
Proof.
  unfold validate_str. destruct (dict_get name items) as [v|];
    [|discriminate].
  destruct v; try discriminate. intro H. now inversion H.
Qed.

(** The errors of a field name the field, and there is at least one when
    the field is rejected. *)
Lemma validate_list_str_errors name default items :
  Forall (names_field name)
    (errors_of (validate_list_str name default items))
  /\ (is_inl (validate_list_str name default items) = true ->
      errors_of (validate_list_str name default items) <> []).
Proof.
  unfold validate_list_str. destruct (dict_get name items) as [v|].
  - destruct v; cbn;
      try (split; [constructor; [reflexivity|constructor]|discriminate]).
    pose proof (item_errors_named name xs 0%nat) as Hall.
    destruct (item_errors name 0 xs) as [|e errs]; cbn.
    + split; [constructor|discriminate].
    + split; [exact Hall|discriminate].
  - destruct default; cbn.
    + split; [constructor|discriminate].
    + split; [constructor; [reflexivity|constructor]|discriminate].
Qed.

Lemma validate_str_errors name items :
  Forall (names_field name) (errors_of (validate_str name items))
  /\ (is_inl (validate_str name items) = true ->
      errors_of (validate_str name items) <> []).
Proof.
  unfold validate_str. destruct (dict_get name items) as [v|].
  - destruct v; cbn;
      (split; [repeat constructor|discriminate]).
  - cbn. split; [repeat constructor|discriminate].
Qed.

(** X14. The validator is sound: when it returns a record for a value,
    the value is a mapping whose four required fields hold the record's
    values, and whose [content_warnings] holds the record's list, or is
    absent, the record's list being empty. *)
Theorem validate_sound data md :
  _validate data = inr md ->
  exists items,
    data = JDict items
    /\ dict_get (t "genres") items = Some (JList (map JStr (genres md)))
    /\ dict_get (t "themes") items = Some (JList (map JStr (themes md)))
    /\ dict_get (t "mood") items = Some (JStr (mood md))
    /\ dict_get (t "target_audience") items
       = Some (JStr (target_audience md))
    /\ match dict_get (t "content_warnings") items with
       | Some v => v = JList (map JStr (content_warnings md))
       | None => content_warnings md = []
       end.
Proof.
  unfold _validate, ContentMetadata_init.
  destruct data as [| | | | | |items]; try discriminate.
  destruct (validate_list_str (t "genres") None items) as [|g] eqn:Hg,
    (validate_list_str (t "themes") None items) as [|th] eqn:Hth,
    (validate_str (t "mood") items) as [|m] eqn:Hm,
    (validate_str (t "target_audience") items) as [|a] eqn:Ha,
    (validate_list_str (t "content_warnings") (Some []) items) as [|w]
      eqn:Hw;
    try discriminate.
  intro H. inversion H; subst md.
  cbn [genres themes mood target_audience content_warnings].
  exists items.
  apply validate_list_str_inr in Hg, Hth, Hw.
  apply validate_str_inr in Hm, Ha.
  destruct (dict_get (t "genres") items) as [vg|]; [|discriminate Hg].
  destruct (dict_get (t "themes") items) as [vth|]; [|discriminate Hth].
  subst vg vth. repeat split; auto.
  destruct (dict_get (t "content_warnings") items); [exact Hw|].
  now inversion Hw.
Qed.


(** X16. A mapping is rejected with a [ValidationError] only, which has
    at least one entry, and each of its entries names one of the five
    fields. *)
Theorem validate_error_entries items e :
  _validate (JDict items) = inl e ->
  exists d errs,
    e = ValidationError (d :: errs)
    /\ Forall (fun d' => exists name,
                 In name field_names /\ names_field name d') (d :: errs).
Proof.
  intro H.
  pose proof (validate_list_str_errors (t "genres") None items) as [Fg Ng].
  pose proof (validate_list_str_errors (t "themes") None items) as [Fth Nth].
  pose proof (validate_str_errors (t "mood") items) as [Fm Nm].
  pose proof (validate_str_errors (t "target_audience") items) as [Fa Na].
  pose proof (validate_list_str_errors (t "content_warnings") (Some [])
                items) as [Fw Nw].
  assert (Hin : is_inl (validate_list_str (t "genres") None items)
                || is_inl (validate_list_str (t "themes") None items)
                || is_inl (validate_str (t "mood") items)
                || is_inl (validate_str (t "target_audience") items)
                || is_inl (validate_list_str (t "content_warnings")
                             (Some []) items) = true).
  { unfold _validate, ContentMetadata_init in H.
    destruct (validate_list_str (t "genres") None items),
      (validate_list_str (t "themes") None items),
      (validate_str (t "mood") items),
      (validate_str (t "target_audience") items),
      (validate_list_str (t "content_warnings") (Some []) items);
      try reflexivity; discriminate H. }
  unfold _validate in H. rewrite (init_invalid items Hin) in H.
  inversion H as [He]. clear H He.
  set (errs := _ ++ _).
  assert (Hall : Forall (fun d' => exists name,
                           In name field_names /\ names_field name d') errs).
  { unfold errs. repeat rewrite Forall_app.
    repeat split;
      match goal with
      | |- Forall _ (errors_of (_ ?name _ _)) =>
          eapply Forall_impl; [|eassumption];
          intros d' Hd'; exists name; split; [cbn; tauto|exact Hd']
      | |- Forall _ (errors_of (_ ?name _)) =>
          eapply Forall_impl; [|eassumption];
          intros d' Hd'; exists name; split; [cbn; tauto|exact Hd']
      end. }
  assert (Hne : errs <> []).
  { unfold errs. intro Hnil.
    apply app_eq_nil in Hnil. destruct Hnil as [Eg Hnil].
    apply app_eq_nil in Hnil. destruct Hnil as [Eth Hnil].
    apply app_eq_nil in Hnil. destruct Hnil as [Em Hnil].
    apply app_eq_nil in Hnil. destruct Hnil as [Ea Ew].
    repeat (apply orb_true_iff in Hin; destruct Hin as [Hin|Hin]);
      first [now apply Ng|now apply Nth|now apply Nm|now apply Na
            |now apply Nw]. }
  destruct errs as [|d errs']; [congruence|]. exists d, errs'. auto.
Qed.

End ValidatorSoundness.

Lemma validate_sound_witness :
  exists items,
    JDict mapping_without_warnings = JDict items
    /\ dict_get (t "genres") items = Some (JList (map JStr [t "Comedy"]))
    /\ dict_get (t "themes") items = Some (JList (map JStr [t "love"]))
    /\ dict_get (t "mood") items = Some (JStr (t "lighthearted"))
    /\ dict_get (t "target_audience") items = Some (JStr (t "teens"))
    /\ match dict_get (t "content_warnings") items with
       | Some v => v = JList (map JStr [])
       | None => @nil text = []
       end.
Proof.
  apply (validate_sound (JDict mapping_without_warnings)
           (mkContentMetadata [t "Comedy"] [t "love"] (t "lighthearted")
              (t "teens") [])).
  reflexivity.
Defined.


Lemma validate_error_entries_witness :
  exists d errs,
    ValidationError [mkErrorDetails [LocField (t "genres")] list_type]
    = ValidationError (d :: errs)
    /\ Forall (fun d' => exists name,
                 In name field_names /\ names_field name d') (d :: errs).
Proof.
  apply (validate_error_entries mapping_genres_string
           (ValidationError
              [mkErrorDetails [LocField (t "genres")] list_type])).
  reflexivity.
Defined.

(** ** Composition and calls of [extract_batch] *)

Section BatchComposition.

Variable St : Type.
Variable call : text -> St -> result text * St.
Variable schema_json : text.
Variable sv : list ErrorDetails -> text.
Variable limit : nat.

Local Abbreviation extract' := (extract call schema_json sv limit).
Local Abbreviation batch' := (extract_batch call schema_json sv limit).
Local Abbreviation batch_loop' := (extract_batch_loop call schema_json sv limit).

(** The results built so far are only extended. *)
Lemma batch_loop_acc items i acc s :
  batch_loop' i items acc s
  = match batch_loop' i items [] s with
    | (inl e, s1) => (inl e, s1)
    | (inr rs, s1) => (inr (acc ++ rs), s1)
    end.
Proof.
  revert i acc s.
  induction items as [|item items IH]; intros i acc s.
  - cbn. now rewrite app_nil_r.
  - cbn [extract_batch_loop].
    destruct (extract call schema_json sv limit _ s) as [[e|env] s1];
      [reflexivity|].
    rewrite (IH (S i) (acc ++ _)), (IH (S i) ([] ++ _)).
    destruct (extract_batch_loop _ _ _ _ _ _ _) as [[e|rs] s2];
      [reflexivity|].
    now rewrite <- app_assoc.
Qed.

Lemma batch_loop_app xs ys i acc s :
  batch_loop' i (xs ++ ys) acc s
  = match batch_loop' i xs acc s with
    | (inl e, s1) => (inl e, s1)
    | (inr rs, s1) => batch_loop' (i + List.length xs) ys rs s1
    end.
Proof.
  revert i acc s.
  induction xs as [|item xs IH]; intros i acc s.
  - cbn. now rewrite Nat.add_0_r.
  - cbn [List.app extract_batch_loop List.length].
    destruct (extract call schema_json sv limit _ s) as [[e|env] s1];
      [reflexivity|].
    rewrite IH. now rewrite (Nat.add_succ_r i (List.length xs)).
Qed.

(** X17. A batch over a concatenation is the batch over the first part
    followed, from the state it leaves and if it raised nothing, by the
    loop over the second part, whose items are numbered after those of
    the first; the results are concatenated. *)
Theorem extract_batch_app xs ys s :
  extract_batch call schema_json sv limit (xs ++ ys) s
  = match extract_batch call schema_json sv limit xs s with
    | (inl e, s1) => (inl e, s1)
    | (inr rs, s1) =>
        match extract_batch_loop call schema_json sv limit (List.length xs) ys []
                s1 with
        | (inl e, s2) => (inl e, s2)
        | (inr rs', s2) => (inr (rs ++ rs'), s2)
        end
    end.
Proof.
  unfold extract_batch.
  rewrite batch_loop_app. cbn [Nat.add].
  destruct (batch_loop' 0%nat xs [] s) as [[e|rs] s1]; [reflexivity|].
  apply batch_loop_acc.
Qed.

(** X18. When [extract] raises on an item, the batch raises the same
    exception: the results of the items before it are lost and the items
    after it are not attempted. *)
Theorem extract_batch_stops_at_exception xs item ys s rs s1 e s2 :
  batch' xs s = (inr rs, s1) ->
  extract' (description_of item) s1 = (inl e, s2) ->
  batch' (xs ++ item :: ys) s = (inl e, s2).
Proof.
  intros Hxs Hitem. unfold batch', extract_batch in *. fold batch_loop' in *.
  rewrite batch_loop_app, Hxs. unfold batch_loop'.
  cbn [extract_batch_loop]. fold (description_of item). now rewrite Hitem.
Qed.

(** The calls of one extraction: one more than the retries of the
    envelope. *)
Lemma extract_counted_calls description s n0 :
  let '(r, sn) :=
    extract (counted call) schema_json sv limit description (s, n0) in
  (snd sn <= n0 + (1 + max_retries))%nat
  /\ match r with
     | inr env => snd sn = (n0 + S (retries env))%nat
     | inl _ => True
     end.
Proof.
  unfold extract.
  pose proof (loop_counted_calls _ call schema_json sv limit (1 + max_retries) 0
                description
                (EXTRACTION_PROMPT_format description
                   (_get_schema_string schema_json)) None None s n0) as H.
  destruct (extract_loop _ _ _ _ _ _ _ _) as [r sn].
  destruct H as [Hn Hr]. split; [lia|].
  destruct r as [e|env]; [exact I|].
  unfold max_retries in *. destruct (success env); lia.
Qed.

Lemma batch_loop_counted_calls items i acc s n0 :
  let '(r, sn) :=
    extract_batch_loop (counted call) schema_json sv limit i items acc (s, n0) in
  (snd sn <= n0 + (1 + max_retries) * List.length items)%nat
  /\ match r with
     | inr results =>
         exists news,
           results = acc ++ news
           /\ snd sn
              = (n0 + list_sum (map (fun r : Result => S (retries r)) news))%nat
     | inl _ => True
     end.
Proof.
  revert i acc s n0.
  induction items as [|item items IH]; intros i acc s n0.
  - cbn. split; [lia|]. exists []. rewrite app_nil_r. cbn. split; [auto|lia].
  - cbn [extract_batch_loop].
    pose proof (extract_counted_calls
                  (match item_description item with
                   | Some x => x
                   | None => []
                   end) s n0) as He.
    destruct (extract (counted call) schema_json sv limit _ (s, n0))
      as [[e|env] [s1 n1]]; cbn [snd] in He.
    + cbn [snd List.length]. split; [lia|exact I].
    + destruct He as [Hle Hn1].
      specialize (IH (S i) (acc ++ [mkResult env
                                      (match item_title item with
                                       | Some x => x
                                       | None => t "Item " ++ str_nat (i + 1)
                                       end)
                                      (match item_description item with
                                       | Some x => x
                                       | None => []
                                       end)]) s1 n1).
      destruct (extract_batch_loop _ _ _ _ _ _ _) as [r sn].
      destruct IH as [Hn Hr]. cbn [List.length]. split; [lia|].
      destruct r as [e|results]; [exact I|].
      destruct Hr as (news & -> & Hsum).
      eexists (_ :: news). split; [now rewrite <- app_assoc|].
      unfold list_sum in *. cbn [map fold_right retries envelope]. lia.
Qed.

(** X19. With the calls counted: a batch makes at most
    [1 + max_retries] calls per item, and when it returns, the number of
    calls it made is the number of its results plus the sum of their
    retries. *)
Theorem extract_batch_calls items s :
  let '(r, sn) :=
    extract_batch (counted call) schema_json sv limit items (s, 0%nat) in
  (snd sn <= (1 + max_retries) * List.length items)%nat
  /\ match r with
     | inr results =>
         snd sn
         = list_sum (map (fun r : Result => S (retries r)) results)
     | inl _ => True
     end.
Proof.
  unfold extract_batch.
  pose proof (batch_loop_counted_calls items 0 [] s 0) as H.
  destruct (extract_batch_loop _ _ _ _ _ _ _) as [r sn].
  destruct H as [Hn Hr]. split; [exact Hn|].
  destruct r as [e|results]; [exact I|].
  destruct Hr as (news & -> & Hsum). exact Hsum.
Qed.

End BatchComposition.

Lemma extract_batch_stops_at_exception_witness :
  extract_batch scripted (t "schema") some_str_ValidationError default_depth
    ([mkItem (Some (t "A")) (Some (t "first"))]
     ++ mkItem (Some (t "B")) (Some (t "second"))
        :: [mkItem (Some (t "C")) (Some (t "third"))])
    [inr valid_response; inl service_error; inr valid_response]
  = (inl service_error, [inr valid_response]).
Proof.
  apply (extract_batch_stops_at_exception _ scripted (t "schema")
           some_str_ValidationError default_depth
           [mkItem (Some (t "A")) (Some (t "first"))]
           (mkItem (Some (t "B")) (Some (t "second")))
           [mkItem (Some (t "C")) (Some (t "third"))]
           [inr valid_response; inl service_error; inr valid_response]
           [mkResult
              (mkEnvelope (Some valid_metadata) (Some valid_response) 0 true
                 None) (t "A") (t "first")]
           [inl service_error; inr valid_response]
           service_error [inr valid_response]).
  - vm_compute. reflexivity.
  - reflexivity.
Defined.

(** ** The three rates *)

Section RateFacts.

Open Scope Q_scope.

Lemma Qnat_nonneg n : 0 <= Qnat n.
Proof. unfold Qnat, Qle. cbn. lia. Qed.

Lemma Qnat_pos n : (0 < n)%nat -> 0 < Qnat n.
Proof. unfold Qnat, Qlt. cbn. lia. Qed.

Lemma Qnat_le a b : (a <= b)%nat -> Qnat a <= Qnat b.
Proof. unfold Qnat, Qle. cbn. lia. Qed.

Lemma Qnat_add a b : Qnat (a + b) == Qnat a + Qnat b.
Proof. unfold Qnat. now rewrite Nat2Z.inj_add, inject_Z_plus. Qed.

Lemma Qnat_nonzero n : (0 < n)%nat -> ~ Qnat n == 0.
Proof.
  intros H E. apply Qnat_pos in H. rewrite E in H. now apply Qlt_irrefl in H.
Qed.

(** A part of a whole, as a fraction, lies between 0 and 1. *)
Lemma fraction_range a n :
  (a <= n)%nat -> (0 < n)%nat -> 0 <= Qnat a / Qnat n <= 1.
Proof.
  intros Ha Hn. pose proof (Qnat_pos n Hn) as Hp. split.
  - apply Qle_shift_div_l; [exact Hp|]. rewrite Qmult_0_l.
    apply Qnat_nonneg.
  - apply Qle_shift_div_r; [exact Hp|]. rewrite Qmult_1_l.
    now apply Qnat_le.
Qed.

Lemma percent_range x : 0 <= x <= 1 -> 0 <= x * 100 <= 100.
Proof.
  intros [H0 H1]. split.
  - apply Qmult_le_0_compat; [exact H0|discriminate].
  - setoid_replace 100 with (1 * 100) at 2 by reflexivity.
    apply Qmult_le_compat_r; [exact H1|discriminate].
Qed.

Lemma count_le {A : Type} (p : A -> bool) xs :
  (count p xs <= List.length xs)%nat.
Proof.
  unfold count. induction xs as [|x xs IH]; cbn; [lia|].
  destruct (p x); cbn; lia.
Qed.

(** A successful result was obtained at the first try or after a
    retry. *)
Lemma count_success_split (results : list Result) :
  (count (fun r : Result => success r && (retries r =? 0)%nat) results
   + count (fun r : Result => success r && (0 <? retries r)%nat) results
   = count (fun r : Result => success r) results)%nat.
Proof.
  unfold count. induction results as [|r results IH]; [reflexivity|].
  cbn [filter]. destruct (success r); cbn [andb]; [|exact IH].
  destruct (retries r) as [|k].
  - change (0 =? 0)%nat with true. change (0 <? 0)%nat with false.
    cbn [List.length]. lia.
  - change (S k =? 0)%nat with false. change (0 <? S k)%nat with true.
    cbn [List.length]. lia.
Qed.

(** The percentage of a part is at most the percentage of a larger
    part. *)
Lemma percent_le a b n :
  (a <= b)%nat -> (0 < n)%nat ->
  Qnat a / Qnat n * 100 <= Qnat b / Qnat n * 100.
Proof.
  intros Hab Hn. apply Qmult_le_compat_r; [|discriminate].
  unfold Qdiv. apply Qmult_le_compat_r; [now apply Qnat_le|].
  apply Qinv_le_0_compat, Qnat_nonneg.
Qed.

Lemma count_andb_le {A : Type} (p q : A -> bool) xs :
  (count (fun x => p x && q x) xs <= count p xs)%nat.
Proof.
  unfold count. induction xs as [|x xs IH]; cbn; [lia|].
  destruct (p x); cbn [andb]; [destruct (q x)|]; cbn; lia.
Qed.

(** What the three rates return. *)
Lemma rates_facts results :
  exists c o r,
    schema_compliance_rate results = inr c
    /\ overall_success_rate results = inr o
    /\ retry_rate results = inr r
    /\ 0 <= c <= o /\ 0 <= r <= o /\ o <= 100
    /\ (count (fun r : Result => success r && (0 <? retries r)%nat) results
        = 0%nat -> c == o)
    /\ (count (fun r : Result => success r && (retries r =? 0)%nat) results
        = 0%nat -> r == o)
    /\ (results <> [] ->
        count (fun r : Result => success r) results = List.length results ->
        o == 100)
    /\ (count (fun r : Result => success r) results = 0%nat -> o == 0).
Proof.
  destruct results as [|x results].
  - exists 0, 0, 0. repeat split; try discriminate; try reflexivity.
    intro H. now destruct H.
  - unfold schema_compliance_rate, overall_success_rate, retry_rate.
    rewrite !rate_total. cbn [bind].
    set (rs := x :: results).
    pose proof (count_success_split rs) as Hsplit.
    pose proof (count_andb_le (fun r : Result => success r)
                  (fun r : Result => (retries r =? 0)%nat) rs) as Hac.
    pose proof (count_andb_le (fun r : Result => success r)
                  (fun r : Result => (0 <? retries r)%nat) rs) as Hbc.
    cbv beta in Hac, Hbc.
    set (a := count (fun r : Result => success r && (retries r =? 0)%nat) rs)
      in *.
    set (b := count (fun r : Result => success r && (0 <? retries r)%nat) rs)
      in *.
    set (c := count (fun r : Result => success r) rs) in *.
    assert (Hn : (0 < List.length rs)%nat) by (cbn; lia).
    assert (Hc : (c <= List.length rs)%nat) by apply count_le.
    assert (Ha : (a <= List.length rs)%nat) by apply count_le.
    assert (Hb : (b <= List.length rs)%nat) by apply count_le.
    eexists _, _, _.
    split; [reflexivity|]. split; [reflexivity|]. split; [reflexivity|].
    split; [split; [now apply percent_range, fraction_range
                   |now apply percent_le]|].
    split; [split; [now apply percent_range, fraction_range
                   |now apply percent_le]|].
    split; [now apply percent_range, fraction_range|].
    split; [intro H0; replace a with c by lia; reflexivity|].
    split; [intro H0; replace b with c by lia; reflexivity|].
    split.
    + intros _ Hall. rewrite Hall. field. now apply Qnat_nonzero.
    + intro H0. rewrite H0. unfold Qnat at 1. cbn [Z.of_nat].
      unfold Qdiv. rewrite !Qmult_0_l. reflexivity.
Qed.

(** X20. The three rates return, and are percentages: the compliance rate
    and the retry rate each lie between 0 and the overall success rate,
    which is at most 100.  The successes the overall rate counts are those
    of the first try, which the compliance rate counts, and those after a
    retry, which the retry rate counts, no result being counted twice.
    With no success after a retry the compliance rate is the overall
    rate, and with no success at the first try the retry rate is. *)
Theorem rates_ordered results :
  exists c o r,
    schema_compliance_rate results = inr c
    /\ overall_success_rate results = inr o
    /\ retry_rate results = inr r
    /\ 0 <= c <= o /\ 0 <= r <= o /\ o <= 100
    /\ (count (fun r : Result => success r && (retries r =? 0)%nat) results
        + count (fun r : Result => success r && (0 <? retries r)%nat) results
        = count (fun r : Result => success r) results)%nat
    /\ (count (fun r : Result => success r && (0 <? retries r)%nat) results
        = 0%nat -> c == o)
    /\ (count (fun r : Result => success r && (retries r =? 0)%nat) results
        = 0%nat -> r == o).
Proof.
  destruct (rates_facts results)
    as (c & o & r & Hc & Ho & Hr & Hco & Hro & H100 & Hcr & Hrr & _).
  exists c, o, r.
  split; [exact Hc|]. split; [exact Ho|]. split; [exact Hr|].
  split; [exact Hco|]. split; [exact Hro|]. split; [exact H100|].
  split; [apply count_success_split|]. split; assumption.
Qed.

End RateFacts.

(** ** Bounds and additivity of [genre_accuracy] *)

Section GenreFacts.

Variable lower : text -> text.

Open Scope Q_scope.

Lemma comparable_rows_le results df :
  (List.length (comparable_rows results df)
   <= count (fun r : Result => success r) results)%nat.
Proof.
  unfold comparable_rows, count.
  induction results as [|r results IH]; [apply Nat.le_refl|].
  cbn [flat_map filter]. rewrite length_app.
  destruct (success r); [|exact IH].
  destruct (metadata r), (find_row df (title r)); cbn [List.length]; lia.
Qed.

(** The accumulators of the loop are only added to. *)
Lemma genre_accuracy_loop_shift results df m n d :
  genre_accuracy_loop lower results df m n d
  = match genre_accuracy_loop lower results df 0 0 [] with
    | inl e => inl e
    | inr (m', n', d') => inr ((m + m')%nat, (n + n')%nat, d ++ d')
    end.
Proof.
  revert m n d. induction results as [|r results IH]; intros m n d.
  - cbn. now rewrite !Nat.add_0_r, app_nil_r.
  - cbn [genre_accuracy_loop]. destruct (negb (success r)); [apply IH|].
    destruct (metadata_of r) as [e|md]; [reflexivity|]. cbn [bind].
    destruct (find_row df (title r)) as [row|]; [|apply IH].
    rewrite (IH _ (S n) (d ++ _)), (IH _ 1%nat ([] ++ _)).
    destruct (genre_accuracy_loop lower results df 0 0 [])
      as [e|[[m' n'] d']]; [reflexivity|].
    rewrite <- app_assoc. cbn [List.app].
    assert (Heq : forall (x x' y y' : nat) (z : list GenreDetail),
              x = x' -> y = y' ->
              @inr exn _ (x, y, z) = inr (x', y', z))
      by (intros; subst; reflexivity).
    destruct (0 <? _)%nat; cbv iota; apply Heq; lia.
Qed.

Lemma genre_accuracy_loop_app a b df m n d :
  genre_accuracy_loop lower (a ++ b) df m n d
  = match genre_accuracy_loop lower a df m n d with
    | inl e => inl e
    | inr (m', n', d') => genre_accuracy_loop lower b df m' n' d'
    end.
Proof.
  revert m n d. induction a as [|r a IH]; intros m n d; [reflexivity|].
  cbn [List.app genre_accuracy_loop].
  destruct (negb (success r)); [apply IH|].
  destruct (metadata_of r) as [e|md]; [reflexivity|]. cbn [bind].
  destruct (find_row df (title r)) as [row|]; apply IH.
Qed.

(** What [genre_accuracy] returns, from what its loop returns. *)
Lemma genre_accuracy_of_loop results df m n d :
  genre_accuracy_loop lower results df 0 0 [] = inr (m, n, d) ->
  genre_accuracy lower results df
  = inr (mkGenreAccuracy
           (if (0 <? n)%nat then Qnat m / Qnat n * 100 else 0) m n d).
Proof.
  intro H. unfold genre_accuracy. rewrite H. cbn [bind].
  destruct n as [|n]; [reflexivity|].
  change (0 <? S n)%nat with true. cbv iota.
  now rewrite truediv_Qnat by lia.
Qed.

Lemma genre_accuracy_loop_of results df ga :
  genre_accuracy lower results df = inr ga ->
  genre_accuracy_loop lower results df 0 0 []
  = inr (matches ga, total ga, details ga).
Proof.
  intro H.
  destruct (genre_accuracy_loop lower results df 0 0 [])
    as [e|[[m n] d]] eqn:Hl.
  - unfold genre_accuracy in H. rewrite Hl in H. discriminate H.
  - rewrite (genre_accuracy_of_loop _ _ _ _ _ Hl) in H.
    inversion H; subst ga. reflexivity.
Qed.

(** X21. For well-formed results [genre_accuracy] returns counts and a
    percentage that are consistent: no more matches than compared
    results, no more compared results than successful ones, one detail per
    compared result, and an accuracy between 0 and 100. *)
Theorem genre_accuracy_range results df :
  Forall well_formed results ->
  exists ga,
    genre_accuracy lower results df = inr ga
    /\ (matches ga <= total ga)%nat
    /\ (total ga <= count (fun r : Result => success r) results)%nat
    /\ List.length (details ga) = total ga
    /\ 0 <= accuracy ga <= 100.
Proof.
  intro Hwf.
  destruct (genre_accuracy_loop_counts lower results df 0 0 [] Hwf)
    as (details' & Hl & Hd).
  rewrite (genre_accuracy_of_loop _ _ _ _ _ Hl). eexists. split; [reflexivity|].
  cbn [matches total details accuracy Nat.add].
  set (rows := comparable_rows results df) in *.
  assert (Hm : (List.length (filter (is_genre_match lower) rows)
                <= List.length rows)%nat) by apply (count_le _ rows).
  split; [exact Hm|]. split; [apply comparable_rows_le|]. split.
  - rewrite <- (length_map gd_match), Hd. cbn [map List.app].
    apply length_map.
  - destruct (List.length rows) as [|n] eqn:En.
    + cbn. split; discriminate.
    + change (0 <? S n)%nat with true. cbv iota.
      apply percent_range, fraction_range; [exact Hm|lia].
Qed.

(** X22. [genre_accuracy] is additive: over a concatenation of two lists
    of results its matches and totals are the sums, and its details the
    concatenation, of those over the two lists. *)
Theorem genre_accuracy_app a b df ga1 ga2 :
  genre_accuracy lower a df = inr ga1 ->
  genre_accuracy lower b df = inr ga2 ->
  exists ga,
    genre_accuracy lower (a ++ b) df = inr ga
    /\ matches ga = (matches ga1 + matches ga2)%nat
    /\ total ga = (total ga1 + total ga2)%nat
    /\ details ga = details ga1 ++ details ga2.
Proof.
  intros H1 H2.
  apply genre_accuracy_loop_of in H1, H2.
  assert (Hl : genre_accuracy_loop lower (a ++ b) df 0 0 []
               = inr ((matches ga1 + matches ga2)%nat,
                      (total ga1 + total ga2)%nat,
                      details ga1 ++ details ga2)).
  { rewrite genre_accuracy_loop_app, H1, genre_accuracy_loop_shift, H2.
    reflexivity. }
  rewrite (genre_accuracy_of_loop _ _ _ _ _ Hl). eexists.
  split; [reflexivity|]. cbn. auto.
Qed.

End GenreFacts.

(** ** The similarity of two lists of strings *)

Section JaccardFacts.

Variable lower : text -> text.

Open Scope Q_scope.

Lemma Qnat_inj a b : Qnat a == Qnat b -> a = b.
Proof. unfold Qnat, Qeq. cbn. lia. Qed.

Lemma fraction_one a n : (0 < n)%nat -> Qnat a / Qnat n == 1 -> a = n.
Proof.
  intros Hn H. apply Qnat_inj.
  assert (E : Qnat a == Qnat a / Qnat n * Qnat n)
    by (field; now apply Qnat_nonzero).
  rewrite H, Qmult_1_l in E. exact E.
Qed.

Lemma fraction_zero a n : (0 < n)%nat -> Qnat a / Qnat n == 0 -> a = 0%nat.
Proof.
  intros Hn H. apply Qnat_inj.
  assert (E : Qnat a == Qnat a / Qnat n * Qnat n)
    by (field; now apply Qnat_nonzero).
  rewrite H, Qmult_0_l in E. exact E.
Qed.

Lemma same_elements_length (xs ys : list text) :
  NoDup xs -> NoDup ys -> (forall x, In x xs <-> In x ys) ->
  List.length xs = List.length ys.
Proof.
  intros Hx Hy H. apply Nat.le_antisymm; apply NoDup_incl_length; auto;
    intros x Hin; now apply H.
Qed.

Lemma jaccard_range a b q : is_jaccard lower a b q -> 0 <= q <= 1.
Proof.
  intros (I & U & HnI & HnU & HI & HU & ->).
  assert (Hle : (List.length I <= List.length U)%nat).
  { apply NoDup_incl_length; [exact HnI|]. intros x Hx. apply HU.
    apply HI in Hx. tauto. }
  destruct U as [|u U]; [split; discriminate|].
  apply fraction_range; [exact Hle|cbn; lia].
Qed.

Lemma jaccard_one a b q :
  is_jaccard lower a b q ->
  (q == 1 <-> forall x, In x (map lower a) <-> In x (map lower b)).
Proof.
  intros (I & U & HnI & HnU & HI & HU & ->).
  assert (Hincl : incl I U).
  { intros x Hx. apply HU. apply HI in Hx. tauto. }
  split.
  - intro Hq.
    assert (HUI : incl U I).
    { destruct U as [|u U]; [intros x []|].
      apply NoDup_length_incl; [exact HnI| |exact Hincl].
      apply fraction_one in Hq; [|cbn; lia]. rewrite Hq. apply Nat.le_refl. }
    intro x. split; intro Hx.
    + assert (Hu : In x U) by (apply HU; tauto).
      apply HUI, HI in Hu. tauto.
    + assert (Hu : In x U) by (apply HU; tauto).
      apply HUI, HI in Hu. tauto.
  - intro Hsame.
    assert (Hlen : List.length I = List.length U).
    { apply same_elements_length; auto. intro x. rewrite HI, HU.
      specialize (Hsame x). tauto. }
    destruct U as [|u U]; [reflexivity|]. rewrite Hlen.
    field. apply Qnat_nonzero. cbn. lia.
Qed.

Lemma jaccard_zero a b q :
  is_jaccard lower a b q ->
  (q == 0
   <-> (forall x, ~ (In x (map lower a) /\ In x (map lower b)))
       /\ (a <> [] \/ b <> [])).
Proof.
  intros (I & U & HnI & HnU & HI & HU & ->). split.
  - intro Hq. destruct U as [|u U]; [now vm_compute in Hq|].
    apply fraction_zero in Hq; [|cbn; lia].
    destruct I as [|i I]; [|discriminate Hq]. split.
    + intros x Hx. now apply HI in Hx.
    + assert (Hu : In u (map lower a) \/ In u (map lower b))
        by (apply HU; now left).
      destruct a as [|x a]; [right|left; discriminate].
      destruct b as [|y b]; [cbn in Hu; tauto|discriminate].
  - intros [Hdis Hne].
    assert (HI0 : I = []).
    { destruct I as [|i I]; [reflexivity|].
      destruct (Hdis i). apply HI. now left. }
    subst I. destruct U as [|u U].
    + exfalso. destruct Hne as [Hne|Hne].
      * destruct a as [|x a]; [congruence|].
        apply (HU (lower x)). left. now left.
      * destruct b as [|x b]; [congruence|].
        apply (HU (lower x)). right. now left.
    + cbn [List.length]. unfold Qdiv. now rewrite Qmult_0_l.
Qed.

(** The similarity is determined by the two sets. *)
Lemma jaccard_unique a b a' b' q q' :
  is_jaccard lower a b q -> is_jaccard lower a' b' q' ->
  (forall x, In x (map lower a) <-> In x (map lower a')) ->
  (forall x, In x (map lower b) <-> In x (map lower b')) ->
  q = q'.
Proof.
  intros (I & U & HnI & HnU & HI & HU & ->)
         (I' & U' & HnI' & HnU' & HI' & HU' & ->) Ha Hb.
  assert (HlI : List.length I = List.length I').
  { apply same_elements_length; auto. intro x.
    rewrite HI, HI', (Ha x), (Hb x). tauto. }
  assert (HlU : List.length U = List.length U').
  { apply same_elements_length; auto. intro x.
    rewrite HU, HU', (Ha x), (Hb x). tauto. }
  destruct U, U'; try discriminate HlU; [reflexivity|].
  now rewrite HlI, HlU.
Qed.

Lemma jaccard_swap a b q : is_jaccard lower a b q -> is_jaccard lower b a q.
Proof.
  intros (I & U & HnI & HnU & HI & HU & ->). exists I, U.
  split; [exact HnI|]. split; [exact HnU|].
  split; [intro x; rewrite HI; tauto|].
  split; [intro x; rewrite HU; tauto|reflexivity].
Qed.

(** X23. The similarity of two lists of strings is a number between 0
    and 1; it is 1 exactly when the two lists have the same lower-cased
    elements, and 0 exactly when they have none in common and are not both
    empty. *)
Theorem overlap_score_range a b :
  exists q,
    overlap_score lower a b = inr q
    /\ 0 <= q <= 1
    /\ (q == 1 <-> forall x, In x (map lower a) <-> In x (map lower b))
    /\ (q == 0
        <-> (forall x, ~ (In x (map lower a) /\ In x (map lower b)))
            /\ (a <> [] \/ b <> [])).
Proof.
  destruct (overlap_score_jaccard lower a b) as (q & Hq & Hj).
  exists q. split; [exact Hq|]. split; [now apply (jaccard_range a b)|].
  split; [now apply jaccard_one|now apply jaccard_zero].
Qed.

(** X24. The similarity is symmetric. *)
Theorem overlap_score_symmetric a b :
  overlap_score lower a b = overlap_score lower b a.
Proof.
  destruct (overlap_score_jaccard lower a b) as (q & Hq & Hj).
  destruct (overlap_score_jaccard lower b a) as (q' & Hq' & Hj').
  rewrite Hq, Hq'. f_equal.
  apply (jaccard_unique b a b a q q' (jaccard_swap _ _ _ Hj) Hj');
    intro x; reflexivity.
Qed.

(** X25. The similarity depends on the sets of lower-cased elements
    only: the order of the elements, their repetition and their case do
    not count. *)
Theorem overlap_score_set_invariant a a' b b' :
  (forall x, In x (map lower a) <-> In x (map lower a')) ->
  (forall x, In x (map lower b) <-> In x (map lower b')) ->
  overlap_score lower a b = overlap_score lower a' b'.
Proof.
  intros Ha Hb.
  destruct (overlap_score_jaccard lower a b) as (q & Hq & Hj).
  destruct (overlap_score_jaccard lower a' b') as (q' & Hq' & Hj').
  rewrite Hq, Hq'. f_equal. exact (jaccard_unique _ _ _ _ _ _ Hj Hj' Ha Hb).
Qed.

End JaccardFacts.

(** ** Bounds and the perfect case of [manual_accuracy] *)

Section ManualFacts.

Variable lower : text -> text.

Open Scope Q_scope.

Lemma Qsum_from acc xs : fold_left Qplus xs acc == acc + Qsum xs.
Proof.
  unfold Qsum. revert acc. induction xs as [|x xs IH]; intro acc.
  - cbn. ring.
  - cbn [fold_left]. rewrite (IH (acc + x)), (IH (0 + x)). ring.
Qed.

Lemma Qsum_cons x xs : Qsum (x :: xs) == x + Qsum xs.
Proof. unfold Qsum at 1. cbn [fold_left]. rewrite Qsum_from. ring. Qed.

Lemma Qnat_S n : Qnat (S n) == 1 + Qnat n.
Proof. change (S n) with (1 + n)%nat. now rewrite Qnat_add. Qed.

(** The sum of scores between 0 and [c]. *)
Lemma Qsum_range c xs :
  Forall (fun q => 0 <= q <= c) xs ->
  0 <= Qsum xs <= Qnat (List.length xs) * c.
Proof.
  induction 1 as [|x xs [Hx0 Hxc] _ [IH0 IHc]].
  - change (Qsum []) with 0. change (Qnat (List.length (@nil Q))) with 0.
    rewrite Qmult_0_l. split; apply Qle_refl.
  - rewrite Qsum_cons. cbn [List.length]. rewrite Qnat_S. split.
    + rewrite <- (Qplus_0_l 0). now apply Qplus_le_compat.
    + rewrite Qmult_plus_distr_l, Qmult_1_l. now apply Qplus_le_compat.
Qed.

Lemma Qsum_all c xs :
  Forall (fun q => q == c) xs -> Qsum xs == Qnat (List.length xs) * c.
Proof.
  induction 1 as [|x xs Hx _ IH].
  - change (Qsum []) with 0. change (Qnat (List.length (@nil Q))) with 0.
    ring.
  - cbv beta in Hx. rewrite Qsum_cons, IH. cbn [List.length].
    rewrite Hx, Qnat_S. ring.
Qed.

Lemma percent_mean_range xs :
  Forall (fun q => 0 <= q <= 1) xs -> 0 <= percent_mean xs <= 100.
Proof.
  intro H. destruct xs as [|x xs]; [split; discriminate|].
  unfold percent_mean. apply percent_range.
  destruct (Qsum_range 1 _ H) as [H0 H1]. rewrite Qmult_1_r in H1.
  assert (Hp : 0 < Qnat (List.length (x :: xs)))
    by (apply Qnat_pos; cbn; lia).
  split.
  - apply Qle_shift_div_l; [exact Hp|]. now rewrite Qmult_0_l.
  - apply Qle_shift_div_r; [exact Hp|]. now rewrite Qmult_1_l.
Qed.

Lemma percent_mean_all_one xs :
  xs <> [] -> Forall (fun q => q == 1) xs -> percent_mean xs == 100.
Proof.
  intros Hne H. destruct xs as [|x xs]; [congruence|].
  unfold percent_mean. rewrite (Qsum_all 1 _ H). field.
  apply Qnat_nonzero. cbn. lia.
Qed.

Lemma comparable_annotations_le results annotations :
  (List.length (comparable_annotations results annotations)
   <= List.length annotations)%nat.
Proof.
  unfold comparable_annotations.
  induction annotations as [|a annotations IH]; [apply Nat.le_refl|].
  cbn [flat_map List.length]. rewrite length_app.
  destruct (find _ results) as [r|]; [|cbn; lia].
  destruct (success r); [|cbn; lia].
  destruct (metadata r); cbn; lia.
Qed.

Lemma scored_unit c : scored lower c -> unit_scores (c_scores c).
Proof.
  intros (Hg & Hth & Hw & Hm & Ha). unfold unit_scores.
  rewrite Hm, Ha.
  repeat split;
    try (now apply (jaccard_range lower _ _ _ Hg));
    try (now apply (jaccard_range lower _ _ _ Hth));
    try (now apply (jaccard_range lower _ _ _ Hw));
    match goal with
    | |- context [if ?b then _ else _] => destruct b
    end; discriminate.
Qed.

(** What [manual_accuracy] returns for well-formed results. *)
Lemma manual_accuracy_returns results annotations :
  Forall well_formed results ->
  exists cs,
    manual_accuracy lower results annotations
    = inr (mkManualAccuracy
             (mkAverageScores
                (percent_mean (map (fun c => s_genres (c_scores c)) cs))
                (percent_mean (map (fun c => s_themes (c_scores c)) cs))
                (percent_mean (map (fun c => s_mood (c_scores c)) cs))
                (percent_mean
                   (map (fun c => s_target_audience (c_scores c)) cs))
                (percent_mean
                   (map (fun c => s_content_warnings (c_scores c)) cs))
                (Qsum
                   [percent_mean (map (fun c => s_genres (c_scores c)) cs);
                    percent_mean (map (fun c => s_themes (c_scores c)) cs);
                    percent_mean (map (fun c => s_mood (c_scores c)) cs);
                    percent_mean
                      (map (fun c => s_target_audience (c_scores c)) cs);
                    percent_mean
                      (map (fun c => s_content_warnings (c_scores c)) cs)]
                 / Qnat 5))
             cs)
    /\ map (fun c => (c_title c, c_extracted c, c_expected c)) cs
       = comparable_annotations results annotations
    /\ Forall (scored lower) cs.
Proof.
  intro Hwf.
  destruct (manual_accuracy_loop_scores lower results annotations
              (mkFieldScores [] [] [] [] []) [] Hwf) as (cs & Hl & Hm & Hs).
  exists cs. split; [|split; assumption].
  rewrite (manual_accuracy_after_loop lower _ _ _ _ Hl). reflexivity.
Qed.

Lemma overall_range g th m a w :
  0 <= g <= 100 -> 0 <= th <= 100 -> 0 <= m <= 100 -> 0 <= a <= 100 ->
  0 <= w <= 100 ->
  0 <= Qsum [g; th; m; a; w] / Qnat 5 <= 100.
Proof.
  intros Hg Hth Hm Ha Hw.
  assert (H : Forall (fun q => 0 <= q <= 100) [g; th; m; a; w])
    by (repeat constructor; tauto).
  destruct (Qsum_range 100 _ H) as [H0 H1].
  assert (Hp : 0 < Qnat 5) by reflexivity. split.
  - apply Qle_shift_div_l; [exact Hp|]. now rewrite Qmult_0_l.
  - apply Qle_shift_div_r; [exact Hp|]. now rewrite Qmult_comm.
Qed.

(** X26. For well-formed results [manual_accuracy] compares at most one
    result per annotation, every score of a comparison lies between 0 and
    1, and the five averages and their mean lie between 0 and 100. *)
Theorem manual_accuracy_range results annotations :
  Forall well_formed results ->
  exists ma,
    manual_accuracy lower results annotations = inr ma
    /\ (List.length (comparison_details ma) <= List.length annotations)%nat
    /\ Forall (fun c => unit_scores (c_scores c)) (comparison_details ma)
    /\ percentages (average_scores ma).
Proof.
  intro Hwf.
  destruct (manual_accuracy_returns results annotations Hwf)
    as (cs & -> & Hm & Hs).
  eexists. split; [reflexivity|]. cbn [comparison_details average_scores].
  assert (Hu : Forall (fun c => unit_scores (c_scores c)) cs).
  { eapply Forall_impl; [|exact Hs]. intros c Hc. now apply scored_unit. }
  split.
  { rewrite <- (length_map (fun c => (c_title c, c_extracted c, c_expected c))),
      Hm.
    apply comparable_annotations_le. }
  split; [exact Hu|].
  assert (Hf : forall f : Scores -> Q,
             (forall sc, unit_scores sc -> 0 <= f sc <= 1) ->
             0 <= percent_mean (map (fun c => f (c_scores c)) cs) <= 100).
  { intros f Hfu. apply percent_mean_range. apply Forall_map.
    eapply Forall_impl; [|exact Hu]. intros c Hc. now apply Hfu. }
  assert (Hg := Hf s_genres ltac:(unfold unit_scores; tauto)).
  assert (Hth := Hf s_themes ltac:(unfold unit_scores; tauto)).
  assert (Hmo := Hf s_mood ltac:(unfold unit_scores; tauto)).
  assert (Ha := Hf s_target_audience ltac:(unfold unit_scores; tauto)).
  assert (Hw := Hf s_content_warnings ltac:(unfold unit_scores; tauto)).
  unfold percentages.
  cbn [avg_genres avg_themes avg_mood avg_target_audience
       avg_content_warnings avg_overall].
  repeat (split; [tauto|]). now apply overall_range.
Qed.

Lemma jaccard_same a q : is_jaccard lower a a q -> q == 1.
Proof. intro H. apply (jaccard_one lower a a q H). intro x. reflexivity. Qed.

Lemma scored_same c :
  scored lower c -> c_extracted c = c_expected c ->
  s_genres (c_scores c) == 1 /\ s_themes (c_scores c) == 1
  /\ s_mood (c_scores c) == 1 /\ s_target_audience (c_scores c) == 1
  /\ s_content_warnings (c_scores c) == 1.
Proof.
  intros (Hg & Hth & Hw & Hm & Ha) E. rewrite E in *.
  rewrite text_eqb_refl in Hm, Ha. rewrite Hm, Ha.
  repeat split; try reflexivity; eapply jaccard_same; eassumption.
Qed.

(** X27. When every compared result carries exactly the record its
    annotation expects, and at least one is compared, the five averages
    and their mean are 100. *)
Theorem manual_accuracy_perfect results annotations :
  Forall well_formed results ->
  comparable_annotations results annotations <> [] ->
  Forall (fun c : text * ContentMetadata * ContentMetadata =>
            snd (fst c) = snd c)
    (comparable_annotations results annotations) ->
  exists ma,
    manual_accuracy lower results annotations = inr ma
    /\ all_hundred (average_scores ma).
Proof.
  intros Hwf Hne Hsame.
  destruct (manual_accuracy_returns results annotations Hwf)
    as (cs & -> & Hm & Hs).
  eexists. split; [reflexivity|]. cbn [average_scores].
  rewrite <- Hm in Hne, Hsame. apply Forall_map in Hsame.
  cbn [fst snd] in Hsame.
  assert (Hcs : cs <> []) by (intro E; subst cs; now apply Hne).
  assert (Hone : Forall (fun c =>
                   s_genres (c_scores c) == 1 /\ s_themes (c_scores c) == 1
                   /\ s_mood (c_scores c) == 1
                   /\ s_target_audience (c_scores c) == 1
                   /\ s_content_warnings (c_scores c) == 1) cs).
  { rewrite Forall_forall in *. intros c Hc.
    apply scored_same; [now apply Hs|now apply Hsame]. }
  assert (Hf : forall f : Scores -> Q,
             (forall c, In c cs -> f (c_scores c) == 1) ->
             percent_mean (map (fun c => f (c_scores c)) cs) == 100).
  { intros f Hfu. apply percent_mean_all_one.
    - destruct cs; [congruence|discriminate].
    - apply Forall_map. apply Forall_forall. exact Hfu. }
  rewrite Forall_forall in Hone.
  assert (Hg := Hf s_genres (fun c Hc => proj1 (Hone c Hc))).
  assert (Hth := Hf s_themes (fun c Hc => proj1 (proj2 (Hone c Hc)))).
  assert (Hmo := Hf s_mood (fun c Hc => proj1 (proj2 (proj2 (Hone c Hc))))).
  assert (Ha := Hf s_target_audience
                  (fun c Hc => proj1 (proj2 (proj2 (proj2 (Hone c Hc)))))).
  assert (Hw := Hf s_content_warnings
                  (fun c Hc => proj2 (proj2 (proj2 (proj2 (Hone c Hc)))))).
  unfold all_hundred.
  cbn [avg_genres avg_themes avg_mood avg_target_audience
       avg_content_warnings avg_overall].
  repeat (split; [assumption|]).
  rewrite (Qsum_all 100).
  - cbn [List.length]. vm_compute. reflexivity.
  - repeat constructor; assumption.
Qed.

End ManualFacts.

(** ** The evaluation pipeline *)

Section PipelineFacts.

Variable St : Type.
Variable call : text -> St -> result text * St.
Variable schema_json : text.
Variable sv : list ErrorDetails -> text.
Variable limit : nat.
Variable lower : text -> text.
Variable sample : list Row -> nat -> result (list Row).
Variable now : text.
Variable save : Report -> result unit.

Local Abbreviation batch' := (extract_batch call schema_json sv limit).
Local Abbreviation batch_loop' := (extract_batch_loop call schema_json sv limit).
Local Abbreviation run' :=
  (run_evaluation call schema_json sv limit lower sample now save).

Open Scope Q_scope.

(** The results of the annotated items carry the annotations' titles. *)
Lemma annotated_batch_titles annotations i acc s results s' :
  batch_loop' i (annotated_items annotations) acc s = (inr results, s') ->
  exists news,
    results = acc ++ news /\ map title news = map ann_title annotations.
Proof.
  revert i acc s.
  induction annotations as [|a annotations IH]; intros i acc s H.
  - cbn in H. inversion H; subst. exists []. now rewrite app_nil_r.
  - cbn [annotated_items map extract_batch_loop item_title
         item_description] in H.
    destruct (extract call schema_json sv limit (ann_description a) s)
      as [[e|env] s1]; [discriminate H|].
    destruct (IH _ _ _ H) as (news & -> & Ht).
    eexists (_ :: news). split; [now rewrite <- app_assoc|].
    cbn [map title]. now rewrite Ht.
Qed.

Lemma find_by_title (rs : list Result) j r :
  NoDup (map title rs) -> nth_error rs j = Some r ->
  find (fun r' : Result => text_eqb (title r') (title r)) rs = Some r.
Proof.
  revert j. induction rs as [|x rs IH]; intros j Hnd Hj.
  - destruct j; discriminate Hj.
  - cbn [map] in Hnd. inversion Hnd as [|? ? Hnotin Hnd']; subst.
    cbn [find]. destruct j as [|j]; cbn in Hj.
    + inversion Hj; subst. now rewrite text_eqb_refl.
    + destruct (text_eqb (title x) (title r)) eqn:E.
      * apply text_eqb_eq in E. exfalso. apply Hnotin. rewrite E.
        apply in_map. now apply nth_error_In in Hj.
      * now apply (IH j).
Qed.

Lemma flat_map_combine {A B C : Type} (F : A -> list C)
  (G : A * B -> list C) (l1 : list A) (l2 : list B) :
  List.length l1 = List.length l2 ->
  (forall j a b,
     nth_error l1 j = Some a -> nth_error l2 j = Some b -> F a = G (a, b)) ->
  flat_map F l1 = flat_map G (combine l1 l2).
Proof.
  revert l2. induction l1 as [|a l1 IH]; intros [|b l2] Hlen H;
    try discriminate Hlen; [reflexivity|].
  cbn [flat_map combine]. rewrite (H 0%nat a b eq_refl eq_refl). f_equal.
  apply IH; [now inversion Hlen|].
  intros j a' b' Ha Hb. exact (H (S j) a' b' Ha Hb).
Qed.

(** X28. When no two annotations have the same title, [manual_accuracy],
    given the results of the batch over the annotations' items, compares
    each annotation with the result of its own item: it returns, and the
    titles, extracted records and expected records of its comparisons are
    those of the annotations paired position by position with the results,
    for the results that succeeded. *)
Theorem annotated_results_compared annotations s results s' :
  NoDup (map ann_title annotations) ->
  batch' (annotated_items annotations) s = (inr results, s') ->
  List.length results = List.length annotations
  /\ exists ma,
       manual_accuracy lower results annotations = inr ma
       /\ map (fun c => (c_title c, c_extracted c, c_expected c))
            (comparison_details ma)
          = compared_in_order results annotations.
Proof.
  intros Hnd H.
  pose proof (extract_batch_well_formed _ call schema_json sv limit _ _ _ _ H)
    as Hwf.
  unfold extract_batch in H.
  destruct (annotated_batch_titles _ _ _ _ _ _ H) as (news & -> & Ht).
  cbn [List.app] in *.
  assert (Hlen : List.length news = List.length annotations)
    by (rewrite <- (length_map title), Ht; apply length_map).
  split; [exact Hlen|].
  destruct (manual_accuracy_returns lower news annotations Hwf)
    as (cs & Hma & Hm & _).
  eexists. split; [exact Hma|]. cbn [comparison_details]. rewrite Hm.
  unfold comparable_annotations, compared_in_order.
  apply flat_map_combine; [now rewrite Hlen|].
  intros j a r Ha Hr. cbn [fst snd].
  assert (Htitle : title r = ann_title a).
  { apply (map_nth_error title) in Hr. apply (map_nth_error ann_title) in Ha.
    rewrite Ht, Ha in Hr. now inversion Hr. }
  rewrite <- Htitle.
  rewrite (find_by_title news j r); [reflexivity| |exact Hr].
  now rewrite Ht.
Qed.

(** The results of a batch are as many as its items, and a failed one has
    an error text. *)
Lemma batch_results_facts items s results s' :
  batch' items s = (inr results, s') ->
  List.length results = List.length items
  /\ Forall (fun r : Result => success r = false -> error r <> None)
       results.
Proof.
  intro H. unfold extract_batch in H.
  destruct (batch_loop_results _ call schema_json sv limit _ _ _ _ _ _ H)
    as (news & -> & Hlen & Hnth).
  cbn [List.app]. split; [exact Hlen|].
  apply Forall_forall. intros r Hr.
  apply In_nth_error in Hr. destruct Hr as [j Hj].
  assert (Hlt : (j < List.length items)%nat).
  { rewrite <- Hlen. apply nth_error_Some. congruence. }
  destruct (nth_error items j) as [item|] eqn:Hitem;
    [|apply nth_error_None in Hitem; lia].
  destruct (Hnth j item Hitem) as (r' & sj & sj' & Hr' & _ & _ & Hex).
  rewrite Hj in Hr'. inversion Hr'; subst r'.
  unfold extract in Hex.
  destruct (loop_envelope _ call sv limit _ _ _ _ _ _ _ _ Hex)
    as [(Hs & _)|(_ & _ & _ & m & Hm)]; intro Hf; congruence.
Qed.

Lemma count_failed (rs : list Result) :
  (List.length (filter (fun r : Result => negb (success r)) rs)
   + count (fun r : Result => success r) rs = List.length rs)%nat.
Proof.
  unfold count. induction rs as [|r rs IH]; [reflexivity|].
  cbn [filter]. destruct (success r); cbn [negb List.length]; lia.
Qed.

(** What the pipeline computes from the results of its two batches. *)
Lemma run_evaluation_after_batches df annotations n save_report s
      ar s1 rows sr s2 :
  batch' (annotated_items annotations) s = (inr ar, s1) ->
  sample df n = inr rows ->
  batch' (sample_items rows) s1 = (inr sr, s2) ->
  exists c o r ga ma,
    schema_compliance_rate (ar ++ sr) = inr c
    /\ overall_success_rate (ar ++ sr) = inr o
    /\ retry_rate (ar ++ sr) = inr r
    /\ genre_accuracy lower sr df = inr ga
    /\ manual_accuracy lower ar annotations = inr ma
    /\ let failed :=
         filter (fun r : Result => negb (success r)) (ar ++ sr) in
       let report :=
         mkReport now (List.length (ar ++ sr))
           (mkMetrics c o r (accuracy ga) (average_scores ma))
           (List.length failed)
           (map (fun f : Result => mkFailure (title f) (error f)) failed) in
       run' df annotations n save_report s
       = (_ <- (if save_report then save report else inr tt) ;; inr report,
          s2).
Proof.
  intros Ha Hs Hb.
  pose proof (extract_batch_well_formed _ call schema_json sv limit _ _ _ _ Ha)
    as Hwa.
  pose proof (extract_batch_well_formed _ call schema_json sv limit _ _ _ _ Hb)
    as Hwb.
  destruct (rates_facts (ar ++ sr)) as (c & o & r & Hc & Ho & Hr & _).
  destruct (genre_accuracy_returns lower sr df Hwb) as (ga & Hga & _).
  destruct (manual_accuracy_returns lower ar annotations Hwa)
    as (cs & Hma & _).
  eexists c, o, r, ga, _. repeat (split; [eassumption|]).
  cbv zeta. unfold run_evaluation. rewrite Ha, Hs, Hb, Hc, Ho, Hr, Hga, Hma.
  reflexivity.
Qed.

(** X29. The pipeline raises nothing of its own: when its two batches
    return and the sample is drawn, the metrics are computed and the
    report is built, with the time of the clock and the number of
    annotations and sampled rows as its total; it is returned unless
    saving it raises. *)
Theorem run_evaluation_returns df annotations n save_report s
        ar s1 rows sr s2 :
  batch' (annotated_items annotations) s = (inr ar, s1) ->
  sample df n = inr rows ->
  batch' (sample_items rows) s1 = (inr sr, s2) ->
  exists report,
    run' df annotations n save_report s
    = (_ <- (if save_report then save report else inr tt) ;; inr report, s2)
    /\ timestamp report = now
    /\ total_samples report
       = (List.length annotations + List.length rows)%nat.
Proof.
  intros Ha Hs Hb.
  destruct (run_evaluation_after_batches df annotations n save_report s
              ar s1 rows sr s2 Ha Hs Hb)
    as (c & o & r & ga & ma & _ & _ & _ & _ & _ & Hrun).
  cbv zeta in Hrun. eexists. split; [exact Hrun|].
  split; [reflexivity|]. cbn [total_samples].
  destruct (batch_results_facts _ _ _ _ Ha) as [Hla _].
  destruct (batch_results_facts _ _ _ _ Hb) as [Hlb _].
  rewrite length_app, Hla, Hlb. unfold annotated_items, sample_items.
  now rewrite !length_map.
Qed.

(** X30. The numbers of a report agree with each other: the failure count
    is the number of failure entries and is at most the total; every
    failure entry has an error text; the compliance rate and the retry
    rate each lie between 0 and the overall success rate, which is at most
    100, is 100 when something was extracted and nothing failed, and is 0
    when everything failed. *)
Theorem run_evaluation_report_consistent df annotations n save_report s
        report s' :
  run_evaluation call schema_json sv limit lower sample now save df
    annotations n save_report s = (inr report, s') ->
  failure_count report = List.length (failures report)
  /\ (failure_count report <= total_samples report)%nat
  /\ Forall (fun f => f_error f <> None) (failures report)
  /\ 0 <= schema_compliance_first_try (metrics report)
       <= m_overall_success_rate (metrics report)
  /\ 0 <= m_retry_rate (metrics report)
       <= m_overall_success_rate (metrics report)
  /\ m_overall_success_rate (metrics report) <= 100
  /\ (total_samples report <> 0%nat -> failure_count report = 0%nat ->
      m_overall_success_rate (metrics report) == 100)
  /\ (failure_count report = total_samples report ->
      m_overall_success_rate (metrics report) == 0).
Proof.
  intro H.
  destruct (batch' (annotated_items annotations) s) as [[e|ar] s1] eqn:Ha;
    [unfold run_evaluation in H; rewrite Ha in H; discriminate H|].
  destruct (sample df n) as [e|rows] eqn:Hs;
    [unfold run_evaluation in H; rewrite Ha, Hs in H; discriminate H|].
  destruct (batch' (sample_items rows) s1) as [[e|sr] s2] eqn:Hb;
    [unfold run_evaluation in H; rewrite Ha, Hs, Hb in H; discriminate H|].
  destruct (run_evaluation_after_batches df annotations n save_report s
              ar s1 rows sr s2 Ha Hs Hb)
    as (c & o & r & ga & ma & Hc & Ho & Hr & _ & _ & Hrun).
  cbv zeta in Hrun. rewrite Hrun in H.
  destruct (if save_report then save _ else inr tt) as [e|[]];
    cbn [bind] in H; [discriminate H|].
  inversion H; subst report s'. clear H Hrun.
  cbn [failure_count failures total_samples metrics
       schema_compliance_first_try m_retry_rate m_overall_success_rate].
  pose proof (count_failed (ar ++ sr)) as Hcount.
  destruct (rates_facts (ar ++ sr))
    as (c' & o' & r' & Hc' & Ho' & Hr' & Hco & Hro & H100 & _ & _ & Hall
        & Hnone).
  rewrite Hc in Hc'. rewrite Ho in Ho'. rewrite Hr in Hr'.
  inversion Hc'; inversion Ho'; inversion Hr'; subst c' o' r'.
  set (all := ar ++ sr) in *.
  set (failed := filter (fun r : Result => negb (success r)) all) in *.
  split; [now rewrite length_map|].
  split; [lia|]. split.
  - apply Forall_map. cbn [f_error].
    destruct (batch_results_facts _ _ _ _ Ha) as [_ Hea].
    destruct (batch_results_facts _ _ _ _ Hb) as [_ Heb].
    assert (Hwf : Forall (fun r : Result =>
                            success r = false -> error r <> None) all)
      by (unfold all; apply Forall_app; split; assumption).
    rewrite Forall_forall in *. intros f Hf. unfold failed in Hf.
    apply filter_In in Hf. destruct Hf as [Hin Hneg].
    apply (Hwf f Hin). now destruct (success f).
  - split; [exact Hco|]. split; [exact Hro|]. split; [exact H100|].
    split.
    + intros Hne H0. apply Hall; [|lia].
      intro E. apply Hne. now rewrite E.
    + intro Heq. apply Hnone. lia.
Qed.

End PipelineFacts.

Lemma genre_accuracy_range_witness :
  exists ga,
    genre_accuracy ascii_lower [drama_result; failed_result] [drama_row]
    = inr ga
    /\ (matches ga <= total ga)%nat
    /\ (total ga
        <= count (fun r : Result => success r)
             [drama_result; failed_result])%nat
    /\ List.length (details ga) = total ga
    /\ (0 <= accuracy ga <= 100)%Q.
Proof.
  exact (genre_accuracy_range ascii_lower [drama_result; failed_result]
           [drama_row] example_results_well_formed).
Defined.

Lemma genre_accuracy_app_witness :
  exists ga,
    genre_accuracy ascii_lower ([drama_result] ++ [failed_result])
      [drama_row] = inr ga
    /\ matches ga = (1 + 0)%nat /\ total ga = (1 + 0)%nat
    /\ details ga = details drama_accuracy ++ [].
Proof.
  apply (genre_accuracy_app ascii_lower [drama_result] [failed_result]
           [drama_row] drama_accuracy empty_accuracy).
  - vm_compute. reflexivity.
  - vm_compute. reflexivity.
Defined.

Lemma overlap_score_set_invariant_witness :
  overlap_score ascii_lower [t "Drama"; t "Comedy"; t "drama"] [t "comedy"]
  = overlap_score ascii_lower [t "COMEDY"; t "DRAMA"] [t "Comedy"].
Proof.
  apply (overlap_score_set_invariant ascii_lower
           [t "Drama"; t "Comedy"; t "drama"] [t "COMEDY"; t "DRAMA"]
           [t "comedy"] [t "Comedy"]).
  - intro x. vm_compute. tauto.
  - intro x. vm_compute. tauto.
Defined.

Lemma manual_accuracy_range_witness :
  exists ma,
    manual_accuracy ascii_lower [drama_result; failed_result]
      [drama_annotation] = inr ma
    /\ (List.length (comparison_details ma)
        <= List.length [drama_annotation])%nat
    /\ Forall (fun c => unit_scores (c_scores c)) (comparison_details ma)
    /\ percentages (average_scores ma).
Proof.
  exact (manual_accuracy_range ascii_lower [drama_result; failed_result]
           [drama_annotation] example_results_well_formed).
Defined.

Lemma manual_accuracy_perfect_witness :
  exists ma,
    manual_accuracy ascii_lower [drama_result; failed_result]
      [drama_annotation] = inr ma
    /\ all_hundred (average_scores ma).
Proof.
  apply (manual_accuracy_perfect ascii_lower [drama_result; failed_result]
           [drama_annotation] example_results_well_formed).
  - vm_compute. discriminate.
  - vm_compute. repeat constructor.
Defined.

Lemma annotated_results_compared_witness :
  List.length [annotated_result] = List.length [drama_annotation]
  /\ exists ma,
       manual_accuracy ascii_lower [annotated_result] [drama_annotation]
       = inr ma
       /\ map (fun c => (c_title c, c_extracted c, c_expected c))
            (comparison_details ma)
          = compared_in_order [annotated_result] [drama_annotation].
Proof.
  apply (annotated_results_compared _ scripted (t "schema")
           some_str_ValidationError default_depth ascii_lower
           [drama_annotation] [inr valid_response] [annotated_result] []).
  - repeat constructor. cbn. tauto.
  - vm_compute. reflexivity.
Defined.

Lemma run_evaluation_returns_witness :
  exists report,
    run_evaluation scripted (t "schema") some_str_ValidationError default_depth
      ascii_lower first_rows some_time saved [drama_row] [drama_annotation]
      1 true
      [inr valid_response; inr (t "Not JSON"); inr (t "Not JSON");
       inr (t "Not JSON")]
    = (_ <- (if true then saved report else inr tt) ;; inr report, [])
    /\ timestamp report = some_time
    /\ total_samples report
       = (List.length [drama_annotation] + List.length [drama_row])%nat.
Proof.
  apply (run_evaluation_returns _ scripted (t "schema")
           some_str_ValidationError default_depth ascii_lower first_rows some_time saved
           [drama_row] [drama_annotation] 1 true
           [inr valid_response; inr (t "Not JSON"); inr (t "Not JSON");
            inr (t "Not JSON")]
           [annotated_result]
           [inr (t "Not JSON"); inr (t "Not JSON"); inr (t "Not JSON")]
           [drama_row]
           [mkResult
              (mkEnvelope None (Some (t "Not JSON")) 2 false
                 (Some (not_json_message (t "Not JSON")))) (t "A") (t "d")]
           []).
  - vm_compute. reflexivity.
  - reflexivity.
  - vm_compute. reflexivity.
Defined.

Lemma run_evaluation_report_consistent_witness :
  failure_count example_report = List.length (failures example_report)
  /\ (failure_count example_report <= total_samples example_report)%nat
  /\ Forall (fun f => f_error f <> None) (failures example_report)
  /\ (0 <= schema_compliance_first_try (metrics example_report)
         <= m_overall_success_rate (metrics example_report))%Q
  /\ (0 <= m_retry_rate (metrics example_report)
         <= m_overall_success_rate (metrics example_report))%Q
  /\ (m_overall_success_rate (metrics example_report) <= 100)%Q
  /\ (total_samples example_report <> 0%nat ->
      failure_count example_report = 0%nat ->
      m_overall_success_rate (metrics example_report) == 100)%Q
  /\ (failure_count example_report = total_samples example_report ->
      m_overall_success_rate (metrics example_report) == 0)%Q.
Proof.
  apply (run_evaluation_report_consistent _ scripted (t "schema")
           some_str_ValidationError default_depth ascii_lower first_rows
           some_time saved [drama_row] [drama_annotation] 1 true
           [inr valid_response; inr (t "Not JSON"); inr (t "Not JSON");
            inr (t "Not JSON")]
           example_report []).
  vm_compute. reflexivity.
Defined.
